(** * gojekyll: content ingestion and file helpers

    A shallow embedding of [helpers/file.go] and [page.go].  Go functions
    that touch the operating system become computations in a small monad
    that threads the state of the world, records every system call and
    callback invocation in a trace, and distinguishes a normal return from
    a run-time panic. *)

From Stdlib Require Import ZArith NArith Lia Bool.
From Stdlib Require Import Strings.Byte Strings.Ascii.
From stdpp Require Import base option list strings pretty gmap sorting.

Set Warnings "-register-all".

#[global] Instance byte_eq_dec : EqDecision byte := Byte.byte_eq_dec.

(** ** Go errors *)

Module GoErr.

(** [syscall.Errno] is an unsigned number; the values are those of Linux. *)
Definition Errno := N.
Definition ENOENT : Errno := 2%N.
Definition EIO : Errno := 5%N.
Definition EBADF : Errno := 9%N.
Definition EACCES : Errno := 13%N.
Definition ENOTDIR : Errno := 20%N.
Definition EISDIR : Errno := 21%N.
Definition ENOTEMPTY : Errno := 39%N.

(** The dynamic types of [error] values that the code inspects.  A nil
    interface value is [None] in [option error]. *)
Inductive error : Type :=
| EErrno (e : Errno)                          (* syscall.Errno *)
| EText (text : string)                       (* errors.New(text) *)
| EOF                                         (* io.EOF *)
| ErrNotExist                                 (* os.ErrNotExist *)
| EPath (pe : pathError)                      (* *os.PathError *)
| ELink (op old new : string) (err : option error)    (* *os.LinkError *)
| ESyscall (call : string) (err : option error)       (* *os.SyscallError *)
with pathError : Type :=
| MkPathError (Op Path : string) (Err : option error).

Definition Op (pe : pathError) : string := let 'MkPathError o _ _ := pe in o.
Definition Path (pe : pathError) : string := let 'MkPathError _ p _ := pe in p.
Definition Err (pe : pathError) : option error := let 'MkPathError _ _ e := pe in e.

(** [os.underlyingError] *)
Definition underlyingError (err : option error) : option error :=
  match err with
  | Some (EPath pe) => Err pe
  | Some (ELink _ _ _ e) => e
  | Some (ESyscall _ e) => e
  | _ => err
  end.

(** [os.IsNotExist]: the underlying error is ENOENT or [os.ErrNotExist]. *)
Definition IsNotExist (err : option error) : bool :=
  match underlyingError err with
  | Some (EErrno e) => N.eqb e ENOENT
  | Some ErrNotExist => true
  | _ => false
  end.

(** The error that [os.Open], [os.Stat], [os.Remove], ... build from a
    failed system call. *)
Definition sysError (op name : string) (e : Errno) : error :=
  EPath (MkPathError op name (Some (EErrno e))).

End GoErr.
Export GoErr.

(** ** Outcomes, traces and the monad of Go computations *)

(** How a call ends.  [Exhausted] is not a Go behaviour: it marks that the
    bounded unfolding of a recursive function ran out; a call that is
    [Exhausted] for every bound does not return. *)
Inductive outcome (A : Type) : Type :=
| Returned (a : A)
| Panicked (msg : string)
| Exhausted.
Arguments Returned {A} a.
Arguments Panicked {A} msg.
Arguments Exhausted {A}.

(** [os.FileInfo], as far as the code reads it. *)
Record FileInfo := mkFileInfo {
  Name : string;
  IsDir : bool;
  ModTime : Z;
}.

(** System calls and callback invocations, in the order they happen. *)
Inductive Event : Type :=
| EvOpen (name : string) (r : Errno + nat)
| EvRead (fd : nat) (len : nat) (r : Errno + list byte)
| EvWrite (fd : nat) (data : list byte) (r : Errno + nat)
| EvClose (fd : nat) (r : option Errno)
| EvCreate (name : string) (r : Errno + nat)
| EvReadDir (name : string) (r : Errno + list FileInfo)
| EvStat (name : string) (r : Errno + FileInfo)
| EvRemove (name : string) (r : option Errno)
| EvWalkFn (name : string) (info : option FileInfo) (err : option error)
| EvCall (fn arg : string).

(** The operating system as the code sees it.  Every call may change the
    world, so that a world can also script the interference of other
    processes. *)
Class OS (W : Type) := {
  sys_open : string → W → (Errno + nat) * W;
  sys_read : nat → nat → W → (Errno + list byte) * W;
  sys_write : nat → list byte → W → (Errno + nat) * W;
  sys_close : nat → W → option Errno * W;
  sys_creat : string → W → (Errno + nat) * W;
  sys_readdir : string → W → (Errno + list FileInfo) * W;
  sys_stat : string → W → (Errno + FileInfo) * W;
  sys_remove : string → W → option Errno * W;
}.

Definition M (W A : Type) : Type := W → outcome A * W * list Event.

Section Monad.
Context {W : Type}.

#[global] Instance M_ret : MRet (M W) := λ A a w, (Returned a, w, []).

#[global] Instance M_bind : MBind (M W) := λ A B k m w,
  match m w with
  | (Returned a, w1, t1) => let '(r, w2, t2) := k a w1 in (r, w2, t1 ++ t2)
  | (Panicked msg, w1, t1) => (Panicked msg, w1, t1)
  | (Exhausted, w1, t1) => (Exhausted, w1, t1)
  end.

Definition panic {A} (msg : string) : M W A := λ w, (Panicked msg, w, []).
Definition exhausted {A} : M W A := λ w, (Exhausted, w, []).
Definition tell (e : Event) : M W unit := λ w, (Returned tt, w, [e]).

(** Runs [m] and hands its outcome to the caller: what a deferred
    function observes. *)
Definition attempt {A} (m : M W A) : M W (outcome A) := λ w,
  let '(r, w1, t1) := m w in (Returned r, w1, t1).

(** A system call, recorded with its result. *)
Definition sys {R} (call : W → R * W) (ev : R → Event) : M W R := λ w,
  let '(r, w1) := call w in (Returned r, w1, [ev r]).
End Monad.

(** ** The Go standard library calls that the code makes *)

(** [*os.File]: a descriptor and the name the file was opened under. *)
Record File := mkFile { fd : nat; fname : string }.

Section GoOS.
Context {W : Type} `{OS W}.

Definition liftO {A} (o : outcome A) : M W A := λ w, (o, w, []).

(** [os.Open]: a file, or a [*PathError] with operation "open". *)
Definition os_Open (name : string) : M W (error + File) :=
  r ← sys (sys_open name) (EvOpen name);
  match r with
  | inl e => mret (inl (sysError "open" name e))
  | inr d => mret (inr (mkFile d name))
  end.

(** [os.Create]: the file is created or truncated. *)
Definition os_Create (name : string) : M W (error + File) :=
  r ← sys (sys_creat name) (EvCreate name);
  match r with
  | inl e => mret (inl (sysError "open" name e))
  | inr d => mret (inr (mkFile d name))
  end.

(** [Read] of [os.File]: reads up to [length b] bytes into [b]; returns
    the count, the buffer and the error.  Reading nothing into a
    buffer that is not empty is [io.EOF]. *)
Definition File_Read (f : File) (b : list byte) : M W (nat * list byte * option error) :=
  r ← sys (sys_read (fd f) (length b)) (EvRead (fd f) (length b));
  match r with
  | inl e => mret (0, b, Some (sysError "read" (fname f) e))
  | inr got =>
      let got := take (length b) got in
      let n := length got in
      if Nat.eqb n 0 && Nat.ltb 0 (length b)
      then mret (0, b, Some EOF)
      else mret (n, got ++ drop n b, None)
  end.

(** [Write] of [os.File] *)
Definition File_Write (f : File) (b : list byte) : M W (nat * option error) :=
  r ← sys (sys_write (fd f) b) (EvWrite (fd f) b);
  match r with
  | inl e => mret (0, Some (sysError "write" (fname f) e))
  | inr n => mret (n, None)
  end.

(** [Close] of [os.File] *)
Definition File_Close (f : File) : M W (option error) :=
  r ← sys (sys_close (fd f)) (EvClose (fd f));
  mret (sysError "close" (fname f) <$> r).

(** [os.Stat] *)
Definition os_Stat (name : string) : M W (option FileInfo * option error) :=
  r ← sys (sys_stat name) (EvStat name);
  match r with
  | inl e => mret (None, Some (sysError "stat" name e))
  | inr info => mret (Some info, None)
  end.

(** [os.Remove] *)
Definition os_Remove (name : string) : M W (option error) :=
  r ← sys (sys_remove name) (EvRemove name);
  mret (sysError "remove" name <$> r).

(** [ioutil.ReadDir]: the entries of a directory, sorted by name. *)
Definition ioutil_ReadDir (name : string) : M W (list FileInfo * option error) :=
  r ← sys (sys_readdir name) (EvReadDir name);
  match r with
  | inl e => mret ([], Some (sysError "open" name e))
  | inr files => mret (files, None)
  end.
End GoOS.

(** ** Paths: [filepath.Clean] and [filepath.Join], with the slash for
    the separator *)

(** The elements of a path: what stands between the separators. *)
Fixpoint filepath_elems (s : string) : list string :=
  match s with
  | EmptyString => [EmptyString]
  | String c s' =>
      if Ascii.eqb c "/"%char then EmptyString :: filepath_elems s'
      else match filepath_elems s' with
           | h :: t => String c h :: t
           | [] => [String c EmptyString]
           end
  end.

(** The scan of [Clean] over the elements, with the elements written so
    far in [kept], the last one first.  An empty element and "." are
    dropped; ".." takes back the element written last, unless nothing
    is written or that is ".." itself: then a rooted path drops it and
    another path keeps it. *)
Fixpoint cleanElems (rooted : bool) (elems kept : list string) : list string :=
  match elems with
  | [] => reverse kept
  | e :: elems =>
      if decide (e = "" ∨ e = ".") then cleanElems rooted elems kept
      else if decide (e = "..") then
        match kept with
        | k :: kept' =>
            if decide (k = "..") then cleanElems rooted elems (e :: kept)
            else cleanElems rooted elems kept'
        | [] =>
            if rooted then cleanElems rooted elems []
            else cleanElems rooted elems [e]
        end
      else cleanElems rooted elems (e :: kept)
  end.

Fixpoint joinElems (elems : list string) : string :=
  match elems with
  | [] => ""
  | [e] => e
  | e :: elems => e +:+ "/" +:+ joinElems elems
  end.

(** [filepath.Clean]: the shortest path that names the same place by
    the text alone.  The empty path becomes "."; so does a path that is
    not rooted and of which nothing is left. *)
Definition filepath_Clean (path : string) : string :=
  match path with
  | EmptyString => "."
  | String c _ =>
      let rooted := Ascii.eqb c "/"%char in
      let kept := cleanElems rooted (filepath_elems path) [] in
      if rooted then "/" +:+ joinElems kept
      else if decide (kept = []) then "." else joinElems kept
  end.

(** [filepath.Join] of two elements: empty elements in front are
    ignored, the rest is joined with a separator and cleaned; of nothing
    but empty elements the result is empty. *)
Definition filepath_Join (root name : string) : string :=
  if decide (root = "") then
    if decide (name = "") then "" else filepath_Clean name
  else filepath_Clean (root +:+ "/" +:+ name).

(** ** helpers/file.go *)

Module helpers.
Section Helpers.
Context {W : Type} `{OS W}.

(** [VisitCreatedFile]: creates the file and applies [w] to it.  The
  deferred function closes the file while the local flag [close] is
  still true, that is when [w] returned an error or panicked; after
  a successful [w] the flag is cleared and the file is closed by the
  final [return f.Close()]. *)
Definition VisitCreatedFile (name : string) (w : File → M W (option error))
  : M W (option error) :=
r ← os_Create name;
match r with
| inl err => mret (Some err)
| inr f =>
    let deferred (close : bool) : M W unit :=
      if close then (_ ← File_Close f; mret tt) else mret tt in
    wr ← attempt (w f);
    match wr with
    | Returned (Some err) => _ ← deferred true; mret (Some err)
    | Returned None => cr ← File_Close f; _ ← deferred false; mret cr
    | Panicked msg => _ ← deferred true; panic msg
    | Exhausted => exhausted
    end
end.

(** [ReadFileMagic]: the buffer of four bytes after one [Read], with a
  carriage return in the last place replaced by a line feed.  The
  count that [Read] returns is dropped, [io.EOF] is not an error, and
  the deferred [Close] runs last with its error ignored.  When the
  file cannot be opened the buffer is nil. *)
Definition ReadFileMagic (name : string) : M W (list byte * option error) :=
r ← os_Open name;
match r with
| inl err => mret ([], Some err)
| inr f =>
    let data := replicate 4 x00 in
    '(_, data, err) ← File_Read f data;
    let err := if err is Some EOF then None else err in
    let data := if decide (data !! 3 = Some x0d) then <[3:=x0a]> data else data in
    _ ← File_Close f;
    mret (data, err)
end.

Definition WalkFunc : Type := string → option FileInfo → option error → M W (option error).

(** The loop of [PostfixWalk] over the listing of [root]: [walk] is the
  recursive call; a non-nil error leaves the loop and the function. *)
Fixpoint walkDirs (walk : string → M W (option error)) (root : string)
  (files : list FileInfo) : M W (option error) :=
match files with
| [] => mret None
| stat :: files =>
    if IsDir stat then
      err ← walk (filepath_Join root (Name stat));
      if err is Some _ then mret err else walkDirs walk root files
    else walkDirs walk root files
end.

(** [PostfixWalk], unfolded at most [fuel] levels deep. *)
Fixpoint PostfixWalk (fuel : nat) (root : string) (walkFn : WalkFunc)
  : M W (option error) :=
match fuel with
| 0 => exhausted
| S fuel =>
    '(files, err) ← ioutil_ReadDir root;
    r ← (if err is None
          then walkDirs (λ dir, PostfixWalk fuel dir walkFn) root files
          else mret None);
    match r with
    | Some err => mret (Some err)
    | None =>
        '(info, err) ← os_Stat root;
        _ ← tell (EvWalkFn root info err);
        walkFn root info err
    end
end.

(** [IsNotEmpty]: the second type assertion has no comma-ok form, so it
  panics when the cause is not a [syscall.Errno]. *)
Definition IsNotEmpty (err : option error) : outcome bool :=
match err with
| Some (EPath pe) =>
    match Err pe with
    | Some (EErrno e) => Returned (N.eqb e ENOTEMPTY)
    | _ => Panicked "interface conversion: error is not syscall.Errno"
    end
| _ => Returned false
end.

(** [NewPathError] *)
Definition NewPathError (op name text : string) : pathError :=
MkPathError op name (Some (EText text)).

(** [PathError]: the result is a [*os.PathError], nil for a nil
  argument.  The operation of a new wrapper is the constant "read". *)
Definition PathError (err : option error) (op name : string) : option pathError :=
match err with
| None => None
| Some (EPath pe) => Some pe
| Some _ => Some (MkPathError "read" name err)
end.

(** The closure [walkFn] of [RemoveEmptyDirectories]. *)
Definition RemoveEmptyDirectories_walkFn : WalkFunc := λ name info err,
if bool_decide (err ≠ None) && IsNotExist err then mret None
else if err is Some _ then mret err
else match info with
     | None => panic "invalid memory address or nil pointer dereference"
     | Some info =>
         if IsDir info then
           err ← os_Remove name;
           if err is None then mret None
           else if IsNotExist err then mret None
           else b ← liftO (IsNotEmpty err);
                if b : bool then mret None else mret err
         else mret None
     end.

(** [RemoveEmptyDirectories] *)
Definition RemoveEmptyDirectories (fuel : nat) (root : string) : M W (option error) :=
PostfixWalk fuel root RemoveEmptyDirectories_walkFn.

End Helpers.
End helpers.

(** ** An in-memory file system

    A tree of files and directories with a table of open descriptors.
    It gives the system calls their usual sequential meaning and serves
    as the world in which statements about concrete files are made. *)

Module memfs.

Inductive node : Type :=
| FileNode (mtime : Z) (data : list byte)
| DirNode (mtime : Z) (listable : bool) (entries : list (string * node)).

Record fs := mkFs {
  tree : node;                        (* the directory that paths start from *)
  fds : list (option (string * nat)); (* open descriptors: path and offset *)
}.

(** The pieces of a path between separators. *)
Fixpoint components (s : string) : list string :=
  match s with
  | EmptyString => [EmptyString]
  | String c s' =>
      if Ascii.eqb c "/"%char then EmptyString :: components s'
      else match components s' with
           | h :: t => String c h :: t
           | [] => [String c EmptyString]
           end
  end.

(** Empty pieces and "." do not move; ".." is not supported. *)
Definition path_of (name : string) : list string :=
  filter (λ c, c ≠ "" ∧ c ≠ ".") (components name).

Fixpoint child (c : string) (es : list (string * node)) : option node :=
  match es with
  | [] => None
  | (k, n) :: es => if decide (k = c) then Some n else child c es
  end.

Fixpoint resolve (p : list string) (n : node) : Errno + node :=
  match p with
  | [] => inr n
  | c :: p =>
      match n with
      | FileNode _ _ => inl ENOTDIR
      | DirNode _ _ es =>
          match child c es with
          | None => inl ENOENT
          | Some n' => resolve p n'
          end
      end
  end.

Definition lookup_path (name : string) (w : fs) : Errno + node :=
  resolve (path_of name) (tree w).

Fixpoint set_child (c : string) (n : option node) (es : list (string * node))
    : list (string * node) :=
  match es with
  | [] => match n with Some n => [(c, n)] | None => [] end
  | (k, m) :: es =>
      if decide (k = c)
      then match n with Some n => (k, n) :: es | None => es end
      else (k, m) :: set_child c n es
  end.

(** Replaces ([Some]) or deletes ([None]) the node at path [p]. *)
Fixpoint update (p : list string) (new : option node) (n : node) : node :=
  match p, n with
  | [], _ => match new with Some n' => n' | None => n end
  | [c], DirNode t l es => DirNode t l (set_child c new es)
  | c :: p, DirNode t l es =>
      match child c es with
      | Some n' => DirNode t l (set_child c (Some (update p new n')) es)
      | None => n
      end
  | _ :: _, FileNode _ _ => n
  end.

Definition info_of (name : string) (n : node) : FileInfo :=
  match n with
  | FileNode t _ => mkFileInfo name false t
  | DirNode t _ _ => mkFileInfo name true t
  end.

Definition base_of (name : string) : string :=
  match reverse (path_of name) with
  | c :: _ => c
  | [] => "/"
  end.

Definition open_fd (name : string) (w : fs) : nat * fs :=
  (length (fds w), mkFs (tree w) (fds w ++ [Some (name, 0)])).

Definition m_open (name : string) (w : fs) : (Errno + nat) * fs :=
  match lookup_path name w with
  | inl e => (inl e, w)
  | inr _ => let '(d, w') := open_fd name w in (inr d, w')
  end.

Definition m_read (d len : nat) (w : fs) : (Errno + list byte) * fs :=
  match fds w !! d with
  | Some (Some (name, pos)) =>
      match lookup_path name w with
      | inr (FileNode _ data) =>
          let got := take len (drop pos data) in
          (inr got, mkFs (tree w) (<[d := Some (name, pos + length got)]> (fds w)))
      | inr (DirNode _ _ _) => (inl EISDIR, w)
      | inl e => (inl EIO, w)
      end
  | _ => (inl EBADF, w)
  end.

Definition m_write (d : nat) (b : list byte) (w : fs) : (Errno + nat) * fs :=
  match fds w !! d with
  | Some (Some (name, pos)) =>
      match lookup_path name w with
      | inr (FileNode t data) =>
          (inr (length b),
           mkFs (update (path_of name) (Some (FileNode t (take pos data ++ b))) (tree w))
                (<[d := Some (name, pos + length b)]> (fds w)))
      | inr (DirNode _ _ _) => (inl EISDIR, w)
      | inl e => (inl EIO, w)
      end
  | _ => (inl EBADF, w)
  end.

Definition m_close (d : nat) (w : fs) : option Errno * fs :=
  match fds w !! d with
  | Some (Some _) => (None, mkFs (tree w) (<[d := None]> (fds w)))
  | _ => (Some EBADF, w)
  end.

Definition m_creat (name : string) (w : fs) : (Errno + nat) * fs :=
  match reverse (path_of name) with
  | [] => (inl EISDIR, w)
  | _ :: rparent =>
      match resolve (reverse rparent) (tree w), lookup_path name w with
      | inl e, _ => (inl e, w)
      | inr (FileNode _ _), _ => (inl ENOTDIR, w)
      | inr (DirNode _ _ _), inr (DirNode _ _ _) => (inl EISDIR, w)
      | inr (DirNode _ _ _), _ =>
          let '(d, w') :=
            open_fd name (mkFs (update (path_of name) (Some (FileNode 0 [])) (tree w))
                               (fds w)) in
          (inr d, w')
      end
  end.

Definition m_readdir (name : string) (w : fs) : (Errno + list FileInfo) * fs :=
  match lookup_path name w with
  | inl e => (inl e, w)
  | inr (FileNode _ _) => (inl ENOTDIR, w)
  | inr (DirNode _ false _) => (inl EACCES, w)
  | inr (DirNode _ true es) => (inr (map (λ e, info_of e.1 e.2) es), w)
  end.

Definition m_stat (name : string) (w : fs) : (Errno + FileInfo) * fs :=
  match lookup_path name w with
  | inl e => (inl e, w)
  | inr n => (inr (info_of (base_of name) n), w)
  end.

Definition m_remove (name : string) (w : fs) : option Errno * fs :=
  match path_of name, lookup_path name w with
  | _, inl e => (Some e, w)
  | [], _ => (Some EACCES, w)
  | _, inr (DirNode _ _ (_ :: _)) => (Some ENOTEMPTY, w)
  | p, inr _ => (None, mkFs (update p None (tree w)) (fds w))
  end.

#[global] Instance memfs_OS : OS fs := {|
  sys_open := m_open; sys_read := m_read; sys_write := m_write;
  sys_close := m_close; sys_creat := m_creat; sys_readdir := m_readdir;
  sys_stat := m_stat; sys_remove := m_remove |}.

End memfs.

(** ** Front matter *)

(** The dynamic types of the values of a [map[string]interface{}]. *)
Inductive value : Type :=
| VNil
| VBool (b : bool)
| VInt (n : Z)
| VString (s : string)
| VTime (t : Z)
| VStrings (l : list string)            (* []string *)
| VList (l : list value)                (* []interface{} *)
| VMap (m : list (string * value)).     (* a nested mapping *)

Module frontmatter.

Abbreviation FrontMatter := (gmap string value).

(** [sort.Strings]: ascending in the byte order of Go's [<] on strings. *)
Definition sort_Strings (l : list string) : list string := merge_sort String.le l.

(** [strings.Fields], for the white space of ASCII. *)
Definition strings_Fields (s : string) : list string := String.words s.

(** Modelled from the spec: the coercion of one element of a sequence of
    arbitrary values to a string is left open by the spec; strings are
    themselves, scalars print as [fmt.Sprint] prints them. *)
Fixpoint coerce (v : value) : string :=
  match v with
  | VNil => "<nil>"
  | VBool b => if b then "true" else "false"
  | VInt n => pretty n
  | VString s => s
  | VTime t => pretty t
  | VStrings l => "[" +:+ String.concat " " l +:+ "]"
  | VList l => "[" +:+ String.concat " " (map coerce l) +:+ "]"
  | VMap _ => "map[]"
  end.

(** Modelled from the spec: [FrontMatter.Bool] is not among the sources;
    spec section 3: the boolean value if present and boolean-typed, else
    the default. *)
Definition Bool (fm : FrontMatter) (key : string) (default : bool) : bool :=
  match fm !! key with
  | Some (VBool b) => b
  | _ => default
  end.

(** Modelled from the spec: [FrontMatter.SortedStringArray] is not among
    the sources (only its test is); spec section 3: a string is split on
    runs of white space, a sequence of strings is taken as it is, a
    sequence of arbitrary values is coerced element by element, anything
    else and an absent key give the empty sequence; the result is sorted
    ascending and keeps duplicates. *)
Definition SortedStringArray (fm : FrontMatter) (key : string) : list string :=
  match fm !! key with
  | Some (VString s) => sort_Strings (strings_Fields s)
  | Some (VStrings l) => sort_Strings l
  | Some (VList l) => sort_Strings (coerce <$> l)
  | _ => []
  end.

End frontmatter.

(** ** page.go *)

Module gojekyll.

Abbreviation VariableMap := (gmap string value).

(** Modelled from the spec: [MergeVariableMaps] is not among the
    sources; spec sections 3 and 4.3: a new map holding the keys of both
    arguments in which the later argument wins a conflict. *)
Definition MergeVariableMaps (a b : VariableMap) : VariableMap := b ∪ a.

Record Site := mkSite { Source : string }.
Record Collection := mkCollection { CollectionName : string }.

Record pageFields := mkPageFields {
  relpath : string;
  permalink : string;
  modTime : Z;
  frontMatter : VariableMap;
  collection : option Collection;
  site : Site;
}.

(** The two implementations of the interface [Page].  Modelled from the
    spec: the type [DynamicPage] is not among the sources; spec section
    3: the shared fields and a body to be rendered. *)
Inductive Page : Type :=
| StaticPage (fields : pageFields)
| DynamicPage (fields : pageFields) (body : list byte).

Definition fieldsOf (p : Page) : pageFields :=
  match p with StaticPage f => f | DynamicPage f _ => f end.

Definition Static (p : Page) : bool :=
  match p with StaticPage _ => true | DynamicPage _ _ => false end.

Definition Path (p : Page) : string := relpath (fieldsOf p).
Definition Permalink (p : Page) : string := permalink (fieldsOf p).
Definition Published (p : Page) : bool :=
  frontmatter.Bool (frontMatter (fieldsOf p)) "published" true.

(** [path.Base] of the Go library: trailing slashes are dropped, the
    text after the last remaining slash is kept; here on the reversed
    text. *)
Fixpoint dropSlashes (r : list ascii) : list ascii :=
  match r with
  | c :: r' => if Ascii.eqb c "/" then dropSlashes r' else r
  | [] => []
  end.

Fixpoint upToSlash (r : list ascii) : list ascii :=
  match r with
  | c :: r' => if Ascii.eqb c "/" then [] else c :: upToSlash r'
  | [] => []
  end.

Definition path_Base (s : string) : string :=
  if decide (s = "") then "."
  else
    let last := upToSlash (dropSlashes (reverse (String.list_ascii_of_string s))) in
    if decide (last = []) then "/" else String.string_of_list_ascii (reverse last).

(** [path.Ext]: from the last dot of the last element on, empty when
    that element has no dot.  [seen] is the text already passed, scanning
    from the end. *)
Fixpoint extFrom (r seen : list ascii) : list ascii :=
  match r with
  | c :: r' =>
      if Ascii.eqb c "/" then []
      else if Ascii.eqb c "." then c :: seen
      else extFrom r' (c :: seen)
  | [] => []
  end.

Definition path_Ext (s : string) : string :=
  String.string_of_list_ascii (extFrom (reverse (String.list_ascii_of_string s)) []).

(** Modelled from the spec: [helpers.PathWithoutExtension] is not among
    the sources; spec section 4.3: the name with its final extension
    stripped. *)
Definition PathWithoutExtension (s : string) : string :=
  String.substring 0 (String.length s - String.length (path_Ext s)) s.

(** [filepath.ToSlash] where the separator is the slash. *)
Definition filepath_ToSlash (s : string) : string := s.

(** [TemplateObject] of [pageFields]. *)
Definition pageFields_TemplateObject (p : pageFields) : VariableMap :=
  let relpath := "/" +:+ filepath_ToSlash (relpath p) in
  let base := path_Base relpath in
  let ext := path_Ext relpath in
  <["path" := VString relpath]>
  (<["modified_time" := VTime (modTime p)]>
  (<["name" := VString base]>
  (<["basename" := VString (PathWithoutExtension base)]>
  (<["extname" := VString ext]> ∅)))).

(** [DebugVariables] of [pageFields]. *)
Definition pageFields_DebugVariables (p : pageFields) : VariableMap :=
  pageFields_TemplateObject p.

(** [Source] of [pageFields]. *)
Definition pageFields_Source (p : pageFields) : string :=
  filepath_Join (Source (site p)) (relpath p).

(** [TemplateObject] of [StaticPage], unfolded at most [fuel] calls
    deep.  The selector [page.TemplateObject] on a [*StaticPage] names
    the method that [StaticPage] declares itself, which hides the one
    promoted from the embedded [pageFields]: the body calls the method
    it belongs to. *)
Fixpoint StaticPage_TemplateObject (fuel : nat) (page : pageFields) : outcome VariableMap :=
  match fuel with
  | 0 => Exhausted
  | S fuel =>
      match StaticPage_TemplateObject fuel page with
      | Returned inner => Returned (MergeVariableMaps (frontMatter page) inner)
      | Panicked msg => Panicked msg
      | Exhausted => Exhausted
      end
  end.

(** What the body of [StaticPage.TemplateObject] would compute if its
    inner call reached [pageFields.TemplateObject]; this is the object
    that spec section 4.3 describes. *)
Definition StaticPage_TemplateObject_promoted (page : pageFields) : VariableMap :=
  MergeVariableMaps (frontMatter page) (pageFields_TemplateObject page).

(** The test [string(magic) == "---\n"] of [ReadPage]. *)
Definition hasFrontMatterMagic (magic : list byte) : bool :=
  bool_decide (magic = [x2d; x2d; x2d; x0a]).

(** The collaborators of [ReadPage] that are not among the sources:
    reading and deserialising the front matter block of a file, and
    computing the permalink of a page. *)
Class Collaborators (W : Type) := {
  readFrontMatter : string → W → (error + VariableMap * list byte) * W;
  computePermalink : Page → W → (error + string) * W;
}.

Section ReadPage.
Context {W : Type} `{OS W} `{Collaborators W}.

(** Modelled from the spec: [NewDynamicPage] is not among the sources;
    spec section 4.3: a Dynamic variant whose metadata is the defaults
    merged with the parsed block, parsed values winning.  A failure of
    the collaborator is returned, as the caller provides for. *)
Definition NewDynamicPage (fields : pageFields) : M W (option Page * option error) :=
  r ← sys (readFrontMatter (pageFields_Source fields))
          (λ _, EvCall "NewDynamicPage" (relpath fields));
  match r with
  | inl err => mret (None, Some err)
  | inr (fm, body) =>
      let fields := mkPageFields (relpath fields) (permalink fields) (modTime fields)
                      (MergeVariableMaps (frontMatter fields) fm)
                      (collection fields) (site fields) in
      mret (Some (DynamicPage fields body), None)
  end.

Definition setPermalink (p : Page) (link : string) : Page :=
  let f := fieldsOf p in
  let f' := mkPageFields (relpath f) link (modTime f) (frontMatter f)
                         (collection f) (site f) in
  match p with
  | StaticPage _ => StaticPage f'
  | DynamicPage _ body => DynamicPage f' body
  end.

(** Modelled from the spec: [initPermalink] is not among the sources;
    spec section 3: it computes the permalink once and caches it in
    the page, or fails.  The page is updated in place, so the caller
    sees the page after the call. *)
Definition initPermalink (p : Page) : M W (Page * option error) :=
  r ← sys (computePermalink p) (λ _, EvCall "initPermalink" (Path p));
  match r with
  | inl err => mret (p, Some err)
  | inr link => mret (setPermalink p link, None)
  end.

(** [ReadPage].  The results are named, and every [return] is bare:
    what comes back is the current value of [p] and of [err]. *)
Definition ReadPage (site : Site) (collection : option Collection)
    (relpath : string) (defaults : VariableMap) : M W (option Page * option error) :=
  let abspath := filepath_Join (Source site) relpath in
  '(magic, err) ← helpers.ReadFileMagic abspath;
  if err is Some _ then mret (None, err) else
  '(info, err) ← os_Stat abspath;
  match info, err with
  | _, Some _ => mret (None, err)
  | None, None => panic "invalid memory address or nil pointer dereference"
  | Some info, None =>
      let fields := mkPageFields relpath "" (ModTime info) defaults collection site in
      '(p, err) ← (if hasFrontMatterMagic magic
                   then NewDynamicPage fields
                   else mret (Some (StaticPage fields), None));
      if err is Some _ then mret (p, err) else
      match p with
      | None => panic "invalid memory address or nil pointer dereference"
      | Some p =>
          '(p, err) ← initPermalink p;
          mret (Some p, err)
      end
  end.
End ReadPage.

End gojekyll.


(** ** Vocabulary of the statements *)

(** The rewriting that the spec describes: a carriage return in the
    fourth place becomes a line feed. *)
Definition cr_to_lf (b : list byte) : list byte :=
  if decide (b !! 3 = Some x0d) then <[3:=x0a]> b else b.

(** The byte counts of the successful [Read] calls of a trace. *)
Definition bytes_read (tr : list Event) : list nat :=
  omap (λ e, match e with EvRead _ _ (inr got) => Some (length got) | _ => None end) tr.

(** How often descriptor [d] is closed in a trace. *)
Definition is_close (d : nat) (e : Event) : bool :=
  match e with EvClose d' _ => Nat.eqb d' d | _ => false end.

Definition closes_of (d : nat) (tr : list Event) : nat :=
  length (filter (λ e, is_close d e = true) tr).

(** How often the callback [fn] is invoked in a trace. *)
Definition is_call (fn : string) (e : Event) : bool :=
  match e with EvCall fn' _ => bool_decide (fn' = fn) | _ => false end.

Definition calls_of (fn : string) (tr : list Event) : nat :=
  length (filter (λ e, is_call fn e = true) tr).

(** A small site used for the concrete runs. *)
Module sample.
Import memfs.

Definition site_dir : node :=
  DirNode 1 true
    [("a.md", FileNode 2 [x2d; x2d; x2d; x0d; x0a; x41]);
     ("ab", FileNode 3 [x61; x62]);
     ("ab00", FileNode 4 [x61; x62; x00; x00]);
     ("b", DirNode 5 true
             [("c", DirNode 6 true []);
              ("d.txt", FileNode 7 [x41; x42])]);
     ("e", DirNode 8 true [])].

Definition site_tree : node := DirNode 0 true [("site", site_dir)].

Definition world : fs := mkFs site_tree [].

(** A write routine that writes one byte and returns the error of the
    write. *)
Definition write_A : File → M fs (option error) :=
  λ f, '(_, err) ← File_Write f [x41]; mret err.

(** A visitor that only looks. *)
Definition looks : @helpers.WalkFunc fs := λ _ _ _, mret None.


(** A write routine that fails without writing. *)
Definition write_fails : File → M fs (option error) :=
  λ _, mret (Some (EText "cannot render")).

(** A directory that cannot be listed, with a file in it. *)
Definition locked : fs :=
  mkFs (DirNode 0 true [("d", DirNode 1 false [("f", FileNode 2 [])])]) [].
End sample.

(** The dynamic types that [SortedStringArray] accepts. *)
Definition string_like (v : value) : bool :=
  match v with VString _ | VStrings _ | VList _ => true | _ => false end.

(** Collaborators for the concrete runs of [ReadPage]. *)
Module sample_pages.
Import memfs gojekyll.

(** The block parses to a title; the permalink is the path. *)
Definition works : Collaborators fs := {|
  readFrontMatter name w := (inr ({[ "title" := VString "T" ]}, [x41]), w);
  computePermalink p w := (inr ("/" +:+ Path p), w) |}.

(** The permalink cannot be computed. *)
Definition no_permalink : Collaborators fs := {|
  readFrontMatter name w := (inr ({[ "title" := VString "T" ]}, [x41]), w);
  computePermalink p w := (inl (EText "no permalink"), w) |}.

(** The block cannot be deserialised. *)
Definition no_front_matter : Collaborators fs := {|
  readFrontMatter name w := (inl (EText "malformed block"), w);
  computePermalink p w := (inr ("/" +:+ Path p), w) |}.
End sample_pages.

(** What [os.Stat] returns for the result of the system call. *)
Definition stat_result (name : string) (r : Errno + FileInfo)
    : option FileInfo * option error :=
  match r with
  | inl e => (None, Some (sysError "stat" name e))
  | inr info => (Some info, None)
  end.

(** What a pruning pass goes on after.  A listing, however it fails:
    the walk takes the directory to have no entries.  A stat that
    succeeds or fails with not-exist.  A removal that succeeds or fails
    with not-exist or not-empty.  The other events are no system calls
    of the pass. *)
Definition tolerated (ev : Event) : Prop :=
  match ev with
  | EvReadDir _ _ => True
  | EvStat _ (inl e) => e = ENOENT
  | EvRemove _ (Some e) => e = ENOENT ∨ e = ENOTEMPTY
  | _ => True
  end.

(** A failed stat or removal that pruning does not tolerate, and the
    error that Go makes of it. *)
Definition fatal (ev : Event) (err : error) : Prop :=
  match ev with
  | EvStat name (inl e) => e ≠ ENOENT ∧ err = sysError "stat" name e
  | EvRemove name (Some e) =>
      e ≠ ENOENT ∧ e ≠ ENOTEMPTY ∧ err = sysError "remove" name e
  | _ => False
  end.

(** The event is an invocation of the visitor, not a system call. *)
Definition is_visit (ev : Event) : Prop :=
  match ev with EvWalkFn _ _ _ => True | _ => False end.


(** Every visit comes right after a stat of the visited path and is
    handed its result; the stat comes after a listing of that path, and
    between the two every entry that the listing reported as a
    directory has been visited; when the listing failed there is
    nothing between the two. *)
Definition children_first (tr : list Event) : Prop :=
  ∀ before d info err after,
    tr = before ++ EvWalkFn d info err :: after →
    ∃ front rd mid st,
      before = front ++ EvReadDir d rd :: mid ++ [EvStat d st] ∧
      (info, err) = stat_result d st ∧
      match rd with
      | inr files =>
          ∀ f, f ∈ files → IsDir f = true →
               ∃ i e, EvWalkFn (filepath_Join d (Name f)) i e ∈ mid
      | inl _ => mid = []
      end.

(** The trace lists [n] directories nested one in another, from [d]
    down: each is listed, and the next is an entry that the listing
    reported as a directory.  A walk runs out of fuel only then. *)
Fixpoint descends (d : string) (n : nat) (tr : list Event) : Prop :=
  match n with
  | 0 => True
  | S n =>
      ∃ before files f after,
        tr = before ++ EvReadDir d (inr files) :: after ∧
        f ∈ files ∧ IsDir f = true ∧
        descends (filepath_Join d (Name f)) n after
  end.

(** Every visit of a directory is followed at once by an attempt to
    remove it. *)
Definition attempts (tr : list Event) : Prop :=
  ∀ before name info after,
    tr = before ++ EvWalkFn name (Some info) None :: after →
    IsDir info = true →
    ∃ r after', after = EvRemove name r :: after'.

(** What a pruning pass may end with, given its trace: with nil, or out
    of fuel, only after tolerated outcomes; with an error only when the
    last system call failed fatally with that error, all earlier
    outcomes being tolerated; never with a panic. *)
Definition pruning_ends (out : outcome (option error)) (tr : list Event) : Prop :=
  match out with
  | Returned None | Exhausted => Forall tolerated tr
  | Returned (Some err) =>
      ∃ before ev after,
        tr = before ++ ev :: after ∧
        Forall tolerated before ∧ fatal ev err ∧ Forall is_visit after
  | Panicked _ => False
  end.

(** The invocations of the visitor in a trace: the path and what was
    handed over. *)
Definition visits (tr : list Event) : list (string * (option FileInfo * option error)) :=
  omap (λ e, match e with EvWalkFn n i r => Some (n, (i, r)) | _ => None end) tr.

Definition visited (tr : list Event) : list string := fst <$> visits tr.

(** Trees of the in-memory file system, as the walk sees them. *)
Module walk_spec.
Import memfs.

(** A name of a directory entry: one piece of a path, and not "..",
    which no listing gives. *)
Definition valid_name (k : string) : Prop := path_of k = [k] ∧ k ≠ "..".

(** A path that does not go up. *)
Definition plain (name : string) : Prop := ".." ∉ path_of name.

(** An element of a path has no separator in it. *)
Definition no_slash (e : string) : Prop := "/"%char ∉ String.list_ascii_of_string e.

(** Entries have distinct valid names, at every level. *)
Inductive wf : node → Prop :=
| wf_file t data : wf (FileNode t data)
| wf_dir t l es :
    NoDup es.*1 →
    Forall (λ e, valid_name e.1 ∧ wf e.2) es →
    wf (DirNode t l es).

Fixpoint height (n : node) : nat :=
  match n with
  | FileNode _ _ => 0
  | DirNode _ _ es =>
      S ((fix entries (es : list (string * node)) : nat :=
            match es with
            | [] => 0
            | e :: es => Nat.max (height e.2) (entries es)
            end) es)
  end.

Definition is_dir (n : node) : bool :=
  match n with DirNode _ _ _ => true | FileNode _ _ => false end.

(** The paths of the directories below and including [root], every
    directory after the directories below it.  The entries of a
    directory that cannot be listed are not looked at; a root that is a
    file stands for itself. *)
Fixpoint dirs_postorder (root : string) (n : node) : list string :=
  match n with
  | DirNode _ true es =>
      (fix entries (es : list (string * node)) : list string :=
         match es with
         | [] => []
         | e :: es =>
             (if is_dir e.2 then dirs_postorder (filepath_Join root e.1) e.2 else [])
             ++ entries es
         end) es ++ [root]
  | _ => [root]
  end.

(** [reaches root n p m]: from the node [n] at path [root], the node
    [m] at path [p] is reached through directories that can be
    listed. *)
Inductive reaches : string → node → string → node → Prop :=
| reaches_here root n : reaches root n root n
| reaches_down root t es k c p m :
    (k, c) ∈ es →
    reaches (filepath_Join root k) c p m →
    reaches root (DirNode t true es) p m.

(** What the visitor is handed for a path: the result of a stat. *)
Definition handed (w : fs) (p : string) : string * (option FileInfo * option error) :=
  (p, stat_result p (m_stat p w).1).

(** A visitor that returns nil, leaves the file system as it is and
    does not walk itself. *)
Definition observes (v : @helpers.WalkFunc fs) : Prop :=
  ∀ name info err w, ∃ tr, v name info err w = (Returned None, w, tr) ∧ visits tr = [].

(** With [fuel] levels the walk of every tree lower than [fuel] ends
    with nil, leaves the file system as it is and visits the
    directories in postorder. *)
Definition walks (v : @helpers.WalkFunc fs) (fuel : nat) (w : fs) : Prop :=
  ∀ root n, wf n → plain root → lookup_path root w = inr n → height n < fuel →
    ∃ tr, helpers.PostfixWalk fuel root v w = (Returned None, w, tr) ∧
          visits tr = handed w <$> dirs_postorder root n.
End walk_spec.

(** ** Further vocabulary *)


(** Every removal in the trace comes right after a stat of the same path
    that reported a directory, and the visit that was handed it. *)
Definition guarded_removals (tr : list Event) : Prop :=
  ∀ before name r after,
    tr = before ++ EvRemove name r :: after →
    ∃ before' info,
      before = before' ++ [EvStat name (inr info); EvWalkFn name (Some info) None] ∧
      IsDir info = true.

(** What pruning makes of a tree of the in-memory file system. *)
Module prune_spec.
Import memfs walk_spec.

(** The tree after pruning, [None] when the node itself is removed.
    Directories are pruned from the leaves up; a directory goes when
    nothing is left in it.  Files stay.  The entries of a directory that
    cannot be listed are not walked, so such a directory goes only when
    it is empty. *)
Fixpoint prune (n : node) : option node :=
  match n with
  | FileNode _ _ => Some n
  | DirNode t false es =>
      match es with [] => None | _ :: _ => Some n end
  | DirNode t true es =>
      match (fix entries (es : list (string * node)) : list (string * node) :=
               match es with
               | [] => []
               | e :: es =>
                   (if is_dir e.2
                    then match prune e.2 with Some c => [(e.1, c)] | None => [] end
                    else [e])
                   ++ entries es
               end) es with
      | [] => None
      | es' => Some (DirNode t true es')
      end
  end.

(** A directory with nothing but hollow directories in it: no file, and
    no directory that cannot be listed unless that is empty. *)
Fixpoint hollow (n : node) : bool :=
  match n with
  | FileNode _ _ => false
  | DirNode _ false es => match es with [] => true | _ :: _ => false end
  | DirNode _ true es =>
      (fix entries (es : list (string * node)) : bool :=
         match es with
         | [] => true
         | e :: es => hollow e.2 && entries es
         end) es
  end.

(** The entries of a directory after pruning. *)
Definition prune_entries (es : list (string * node)) : list (string * node) :=
  es ≫= λ e,
    if is_dir e.2
    then match prune e.2 with Some c => [(e.1, c)] | None => [] end
    else [e].

(** With [fuel] levels, pruning below a path that does not go up and
    is not the top of the tree ends with nil and leaves the pruned tree, for every tree lower
    than [fuel]. *)
Definition prunes (fuel : nat) : Prop :=
  ∀ root n (w : fs),
    lookup_path root w = inr n → wf n → plain root → path_of root ≠ [] →
    height n < fuel →
    ∃ tr, helpers.RemoveEmptyDirectories fuel root w
          = (Returned None,
             mkFs (update (path_of root) (prune n) (tree w)) (fds w), tr).
End prune_spec.

(** ** More of helpers/file.go and page.go *)

(** Further calls of the Go library, taken whole: [os.MkdirAll],
    [io.Copy] between two open files, and [ioutil.ReadFile]. *)
Class OSMore (W : Type) := {
  sys_mkdirall : string → W → option error * W;
  sys_copy : nat → nat → W → option error * W;
  sys_readfile : string → W → (error + list byte) * W;
}.

Module more.
Section More.
Context {W : Type} `{OS W} `{OSMore W}.

(** [filepath.Dir], of which the code only hands the result on. *)
Variable filepath_Dir : string → string.

(** [CopyFileContents].  The deferred [in.Close()] runs on every return
    after the source was opened; [out] is closed only by the final
    [return out.Close()].  The argument [perm] is not used. *)
Definition CopyFileContents (dst src : string) (perm : N) : M W (option error) :=
  r ← sys (sys_mkdirall (filepath_Dir dst)) (λ _, EvCall "os.MkdirAll" (filepath_Dir dst));
  match r with
  | Some err => mret (Some err)
  | None =>
      r ← os_Open src;
      match r with
      | inl err => mret (Some err)
      | inr in_ =>
          r ← os_Create dst;
          match r with
          | inl err => _ ← File_Close in_; mret (Some err)
          | inr out =>
              cerr ← sys (sys_copy (fd out) (fd in_)) (λ _, EvCall "io.Copy" dst);
              match cerr with
              | Some err =>
                  _ ← os_Remove dst;
                  _ ← File_Close in_;
                  mret (Some err)
              | None =>
                  cr ← File_Close out;
                  _ ← File_Close in_;
                  mret cr
              end
          end
      end
  end.

(** [Write] of [StaticPage]: the writer [w] is the method [Write] of the
    [io.Writer]; the count it returns is dropped. *)
Definition StaticPage_Write (page : gojekyll.pageFields)
    (w : list byte → M W (nat * option error)) : M W (option error) :=
  let source := gojekyll.pageFields_Source page in
  r ← sys (sys_readfile source) (λ _, EvCall "ioutil.ReadFile" source);
  match r with
  | inl err => mret (Some err)
  | inr source => '(_, err) ← w source; mret err
  end.

End More.
End more.

(** ** The commands (the unnamed source file of package main) *)

(** [site.Build], taken whole: the number of files written, or an error. *)
Class SiteOps (W : Type) := {
  site_Build : W → (error + nat) * W;
}.

Module cmd.

(** What a command prints: a labelled setting, through the helper
    [printSetting] that is not among the sources, or a line of text. *)
Inductive output : Type :=
| Setting (label value : string)
| Text (line : string).

(** The line [fmt.Printf("  %s -> %s\n", u, path)]. *)
Definition routeLine (u path : string) : string :=
  "  " +:+ u +:+ " -> " +:+ path +:+ String "010" "".

(** The second loop of [routesCommand]: [site.Paths[u].Path()] for each
    URL; the index of a missing key is a nil page, whose method call
    panics. *)
Fixpoint printRoutes (Paths : gmap string gojekyll.Page) (urls : list string)
    : outcome (list output) :=
  match urls with
  | [] => Returned []
  | u :: urls =>
      match Paths !! u with
      | None => Panicked "invalid memory address or nil pointer dereference"
      | Some p =>
          match printRoutes Paths urls with
          | Returned out => Returned (Text (routeLine u (gojekyll.Path p)) :: out)
          | Panicked msg => Panicked msg
          | Exhausted => Exhausted
          end
      end
  end.

(** [routesCommand].  [order] is the order in which [range] yields the
    entries of [site.Paths], which Go leaves open; [dynamic] is the flag
    [c.Bool("dynamic")]. *)
Definition routesCommand (dynamic : bool) (Paths : gmap string gojekyll.Page)
    (order : list (string * gojekyll.Page)) : outcome (list output * option error) :=
  let urls :=
    omap (λ '(u, p), if negb (dynamic && gojekyll.Static p) then Some u else None) order in
  let urls := frontmatter.sort_Strings urls in
  match printRoutes Paths urls with
  | Returned out => Returned (Setting "Routes:" "" :: out, None)
  | Panicked msg => Panicked msg
  | Exhausted => Exhausted
  end.

(** [strings.HasPrefix(arg, "/")] *)
Definition hasSlashPrefix (arg : string) : bool :=
  match arg with
  | String c _ => Ascii.eqb c "/"
  | EmptyString => false
  end.

(** [cliPage].  [args] are the arguments of the command line;
    [PageForURL] and [FindPageByFilePath] are the lookups of the site,
    which are not among the sources. *)
Definition cliPage (args : list string)
    (PageForURL FindPageByFilePath : string → option gojekyll.Page)
    : option gojekyll.Page * option error :=
  let arg := match args with a :: _ => a | [] => "/" end in
  if hasSlashPrefix arg then
    match PageForURL arg with
    | Some page => (Some page, None)
    | None =>
        (None, Some (EPath (helpers.NewPathError "render" arg
                              "the site does not include a file with this URL path")))
    end
  else
    match FindPageByFilePath arg with
    | Some page => (Some page, None)
    | None => (None, Some (EPath (helpers.NewPathError "render" arg "no such file")))
    end.

(** [renderCommand].  [Write] is the method of the page, with the
    standard output for its writer; a method of a nil page panics. *)
Definition renderCommand {W : Type} (site : gojekyll.Site) (args : list string)
    (PageForURL FindPageByFilePath : string → option gojekyll.Page)
    (Write : gojekyll.Page → M W (option error)) : M W (option error) :=
  let '(page, err) := cliPage args PageForURL FindPageByFilePath in
  match err with
  | Some err => mret (Some err)
  | None =>
      match page with
      | None => panic "invalid memory address or nil pointer dereference"
      | Some page =>
          _ ← tell (EvCall "printPathSetting"
                      ("Render:" +:+ filepath_Join (gojekyll.Source site) (gojekyll.Path page)));
          _ ← tell (EvCall "printSetting" ("URL:" +:+ gojekyll.Permalink page));
          _ ← tell (EvCall "printSetting" "Content:");
          Write page
      end
  end.

(** The dynamic types of a site variable that [dataCommand] tells apart:
    the pages of a collection, of type [[]gojekyll.VariableMap], and
    every other. *)
Inductive siteValue : Type :=
| PageData (items : list gojekyll.VariableMap)
| OtherValue (v : value).

(** [fmt.Sprintf("<elided page data for %d items>", n)] *)
Definition elided (n : nat) : string :=
  "<elided page data for " +:+ pretty n +:+ " items>".

(** The loop of [dataCommand] over [site.Collections], of which [names]
    are the names in order.  [siteData] is [site.Variables] itself, not
    a copy; the type assertion has the form that panics. *)
Fixpoint elideCollections (names : list string) (siteData : gmap string siteValue)
    : outcome (gmap string siteValue) :=
  match names with
  | [] => Returned siteData
  | c :: names =>
      match siteData !! c with
      | Some (PageData items) =>
          elideCollections names
            (<[c := OtherValue (VString (elided (length items)))]> siteData)
      | _ => Panicked "interface conversion: interface {} is not []gojekyll.VariableMap"
      end
  end.

(** [dataCommand]: what it prints, the site variables it leaves, and its
    result.  [DebugVariables] is the method of the page and [marshal] is
    [yaml.Marshal], whose error is dropped.  What was printed before a
    panic is not kept. *)
Definition dataCommand (args : list string)
    (PageForURL FindPageByFilePath : string → option gojekyll.Page)
    (names : list string) (Variables : gmap string siteValue)
    (DebugVariables : gojekyll.Page → gojekyll.VariableMap)
    (marshal : gojekyll.VariableMap → string)
    : outcome (list output * gmap string siteValue * option error) :=
  let '(p, err) := cliPage args PageForURL FindPageByFilePath in
  match err with
  | Some err => Returned ([], Variables, Some err)
  | None =>
      match elideCollections names Variables with
      | Returned siteData =>
          match p with
          | None => Panicked "invalid memory address or nil pointer dereference"
          | Some p =>
              Returned ([Setting "Variables:" "";
                         Text (marshal (DebugVariables p) +:+ String "010" "")],
                        siteData, None)
          end
      | Panicked msg => Panicked msg
      | Exhausted => Exhausted
      end
  end.

Section Benchmark.
Context {W : Type} `{SiteOps W}.

(** The loop [for i := 0; i < 10; i++] of [benchmarkCommand], with
    [left] iterations to go.  A call of [printSetting] is recorded with
    its label and its value joined. *)
Fixpoint benchmarkLoop (left : nat) : M W (option error) :=
  match left with
  | 0 => mret None
  | S left' =>
      _ ← tell (EvCall "printSetting" (pretty (10 - left' : nat)));
      r ← sys site_Build (λ _, EvCall "site.Build" "");
      match r with
      | inl err => mret (Some err)
      | inr _ => benchmarkLoop left'
      end
  end.

(** The world after [k] builds in a row that all succeed. *)
Fixpoint after_builds (k : nat) (w : W) : option W :=
  match k with
  | 0 => Some w
  | S k =>
      match site_Build w with
      | (inr _, w1) => after_builds k w1
      | (inl _, _) => None
      end
  end.

(** [benchmarkCommand] *)
Definition benchmarkCommand : M W (option error) :=
  _ ← tell (EvCall "printSetting" "Generating...");
  benchmarkLoop 10.
End Benchmark.

End cmd.

(** The further calls on the in-memory file system. *)
Module memfs_more.
Import memfs.

(** The tree with the directories of the path [p] made where they are
    missing. *)
Fixpoint mkdirs (p : list string) (n : node) : Errno + node :=
  match p, n with
  | _, FileNode _ _ => inl ENOTDIR
  | [], DirNode _ _ _ => inr n
  | c :: p', DirNode t l es =>
      match mkdirs p' (match child c es with
                       | Some n' => n'
                       | None => DirNode 0 true []
                       end) with
      | inl e => inl e
      | inr n'' => inr (DirNode t l (set_child c (Some n'') es))
      end
  end.

Definition m_mkdirall (name : string) (w : fs) : option error * fs :=
  match mkdirs (path_of name) (tree w) with
  | inl e => (Some (sysError "mkdir" name e), w)
  | inr T => (None, mkFs T (fds w))
  end.

(** Everything from the offset of [din] to the end of its file is
    written through [dout]. *)
Definition m_copy (dout din : nat) (w : fs) : option error * fs :=
  match fds w !! din with
  | Some (Some (src, pos)) =>
      match lookup_path src w with
      | inr (FileNode _ data) =>
          let rest := drop pos data in
          let w1 := mkFs (tree w) (<[din := Some (src, pos + length rest)]> (fds w)) in
          match fds w1 !! dout, m_write dout rest w1 with
          | Some (Some (dst, _)), (inl e, w2) => (Some (sysError "write" dst e), w2)
          | _, (inl e, w2) => (Some (sysError "write" "" e), w2)
          | _, (inr _, w2) => (None, w2)
          end
      | inr (DirNode _ _ _) => (Some (sysError "read" src EISDIR), w)
      | inl e => (Some (sysError "read" src EIO), w)
      end
  | _ => (Some (sysError "read" "" EBADF), w)
  end.

Definition m_readfile (name : string) (w : fs) : (error + list byte) * fs :=
  match lookup_path name w with
  | inl e => (inl (sysError "open" name e), w)
  | inr (DirNode _ _ _) => (inl (sysError "read" name EISDIR), w)
  | inr (FileNode _ data) => (inr data, w)
  end.

#[global] Instance memfs_OSMore : OSMore fs := {|
  sys_mkdirall := m_mkdirall; sys_copy := m_copy; sys_readfile := m_readfile |}.

(** The part of a path before its last separator: what [filepath.Dir]
    gives for a relative path that has a separator and is clean. *)
Fixpoint dirname (s : string) : string :=
  match s with
  | EmptyString => EmptyString
  | String c s' =>
      if bool_decide ("/"%char ∈ String.list_ascii_of_string s')
      then String c (dirname s')
      else EmptyString
  end.
End memfs_more.

(** A world in which every call succeeds with fixed answers, except the
    copy, which gives what the world holds. *)
Module stub.
Definition world : Type := option error.

#[global] Instance stub_OS : OS world := {|
  sys_open name w := (inr 3, w);
  sys_read d len w := (inr [], w);
  sys_write d b w := (inr (length b), w);
  sys_close d w := (None, w);
  sys_creat name w := (inr 4, w);
  sys_readdir name w := (inl ENOENT, w);
  sys_stat name w := (inl ENOENT, w);
  sys_remove name w := (None, w) |}.

#[global] Instance stub_OSMore : OSMore world := {|
  sys_mkdirall name w := (None, w);
  sys_copy dout din w := (w, w);
  sys_readfile name w := (inr [], w) |}.

(** Ten builds, of which the one with [left] builds to go fails when the
    counter says so. *)
Definition builds : Type := nat.
#[global] Instance stub_SiteOps : SiteOps builds := {|
  site_Build w :=
    match w with
    | 0 => (inl (EText "build failed"), 0)
    | S w' => (inr 7, w')
    end |}.

(** A site of two pages. *)
Definition fields_a : gojekyll.pageFields :=
  gojekyll.mkPageFields "b/d.txt" "/b/d.txt" 7 ∅ None (gojekyll.mkSite "site").
Definition page_a : gojekyll.Page := gojekyll.StaticPage fields_a.
Definition page_b : gojekyll.Page :=
  gojekyll.DynamicPage
    (gojekyll.mkPageFields "a.md" "/a.html" 2 ∅ None (gojekyll.mkSite "site"))
    [x41].
Definition paths : gmap string gojekyll.Page :=
  {[ "/b/d.txt" := page_a; "/a.html" := page_b ]}.
Definition PageForURL (u : string) : option gojekyll.Page := paths !! u.
Definition FindPageByFilePath (f : string) : option gojekyll.Page :=
  if decide (f = "a.md") then Some page_b
  else if decide (f = "b/d.txt") then Some page_a else None.

(** The variables of a site with one collection of two pages. *)
Definition variables : gmap string cmd.siteValue :=
  {[ "posts" := cmd.PageData [∅; ∅]; "title" := cmd.OtherValue (VString "T") ]}.
End stub.

(** * Paths *)

(** The cases of the documentation of [filepath.Clean], and some at the
    edges. *)
Example filepath_Clean_cases :
  filepath_Clean <$>
    ["a/c"; "a//c"; "a/c/."; "a/c/b/.."; "/../a/c"; "/../a/b/../././/c"; "";
     "../a"; "../../a/.."; "/"; "."; "a/"; "abc/def/../../.."; "//"; "./b"]
  = ["a/c"; "a/c"; "a/c"; "a/c"; "/a/c"; "/a/c"; ".";
     "../a"; "../.."; "/"; "."; "a"; ".."; "/"; "b"].
Proof. reflexivity. Qed.

(** [filepath.Join] cleans what it joins. *)
Example filepath_Join_cases :
  filepath_Join "." "b" = "b" ∧
  filepath_Join "/" "b" = "/b" ∧
  filepath_Join "dir/" "b" = "dir/b" ∧
  filepath_Join "" "b" = "b" ∧
  filepath_Join "a" "" = "a" ∧
  filepath_Join "" "" = "" ∧
  filepath_Join "site" "b/d.txt" = "site/b/d.txt" ∧
  filepath_Join "a/b" "../c" = "a/c".
Proof. by split_and!. Qed.
(** * Properties *)

(** ** Structured path errors *)

Section PathErrors.
Import helpers.

Lemma PathError_nil (op name : string) : PathError None op name = None.
Proof. reflexivity. Qed.

(** C7: wrapping with [PathError] is idempotent.  An error that already is
    a structured path error comes back unchanged; any other non-nil error
    comes back as a structured path error that carries an operation (the
    constant "read"), the given path, and the error as its cause; and
    wrapping the result again, under any operation and path, changes
    nothing. *)
Theorem PathError_idempotent (op name : string) (e : error) :
  (∀ pe, e = EPath pe → PathError (Some e) op name = Some pe) ∧
  ((∀ pe, e ≠ EPath pe) →
     PathError (Some e) op name = Some (MkPathError "read" name (Some e))) ∧
  (∃ pe, PathError (Some e) op name = Some pe ∧
     ∀ op' name', PathError (Some (EPath pe)) op' name' = Some pe).
Proof.
  split; [|split].
  - by intros pe ->.
  - intros Hne. destruct e; try done. by destruct (Hne pe).
  - destruct e; simpl; eauto.
Qed.

Lemma PathError_idempotent_witness :
  PathError (Some (EText "no such file")) "render" "/x"
    = Some (MkPathError "read" "/x" (Some (EText "no such file"))).
Proof.
  apply (PathError_idempotent "render" "/x" (EText "no such file")).
  intros pe. discriminate.
Defined.
End PathErrors.

(** ** Classification of directory-not-empty *)

Section NotEmpty.
Import helpers.

Lemma IsNotEmpty_errno (op name : string) (e : Errno) :
  IsNotEmpty (Some (sysError op name e)) = Returned (N.eqb e ENOTEMPTY).
Proof. reflexivity. Qed.

Lemma IsNotEmpty_not_path (err : option error) :
  (∀ pe, err ≠ Some (EPath pe)) → IsNotEmpty err = Returned false.
Proof.
  intros Hne. destruct err as [[]|]; try done. by destruct (Hne pe).
Qed.

(** C10: [IsNotEmpty] is not total.  On the structured path error that
    [NewPathError] builds, whose cause is a text error and not an errno,
    the unchecked type assertion panics instead of returning false. *)
Theorem IsNotEmpty_panics_on_text_cause :
  IsNotEmpty (Some (EPath (NewPathError "render" "/x" "no such file")))
    = Panicked "interface conversion: error is not syscall.Errno".
Proof. reflexivity. Qed.
End NotEmpty.

(** ** Running the wrappers of the Go library *)

Section Runs.
Context {W : Type} `{OS W}.

Lemma bind_run {A B} (m : M W A) (k : A → M W B) (w : W) :
  (m ≫= k) w =
    match m w with
    | (Returned a, w1, t1) => let '(r, w2, t2) := k a w1 in (r, w2, t1 ++ t2)
    | (Panicked msg, w1, t1) => (Panicked msg, w1, t1)
    | (Exhausted, w1, t1) => (Exhausted, w1, t1)
    end.
Proof. reflexivity. Qed.

Lemma ret_run {A} (a : A) (w : W) : (mret a : M W A) w = (Returned a, w, []).
Proof. reflexivity. Qed.

Lemma os_Open_run (name : string) (w : W) :
  os_Open name w =
    let '(r, w1) := sys_open name w in
    (Returned (match r with
               | inl e => inl (sysError "open" name e)
               | inr d => inr (mkFile d name)
               end), w1, [EvOpen name r]).
Proof.
  unfold os_Open, sys. rewrite bind_run.
  by destruct (sys_open name w) as [[e|d] w1].
Qed.

Lemma os_Create_run (name : string) (w : W) :
  os_Create name w =
    let '(r, w1) := sys_creat name w in
    (Returned (match r with
               | inl e => inl (sysError "open" name e)
               | inr d => inr (mkFile d name)
               end), w1, [EvCreate name r]).
Proof.
  unfold os_Create, sys. rewrite bind_run.
  by destruct (sys_creat name w) as [[e|d] w1].
Qed.

Lemma File_Close_run (f : File) (w : W) :
  File_Close f w =
    let '(r, w1) := sys_close (fd f) w in
    (Returned (sysError "close" (fname f) <$> r), w1, [EvClose (fd f) r]).
Proof.
  unfold File_Close, sys. rewrite bind_run.
  by destruct (sys_close (fd f) w) as [r w1].
Qed.

Lemma os_Stat_run (name : string) (w : W) :
  os_Stat name w =
    let '(r, w1) := sys_stat name w in
    (Returned (match r with
               | inl e => (None, Some (sysError "stat" name e))
               | inr info => (Some info, None)
               end), w1, [EvStat name r]).
Proof.
  unfold os_Stat, sys. rewrite bind_run.
  by destruct (sys_stat name w) as [[e|info] w1].
Qed.

Lemma os_Remove_run (name : string) (w : W) :
  os_Remove name w =
    let '(r, w1) := sys_remove name w in
    (Returned (sysError "remove" name <$> r), w1, [EvRemove name r]).
Proof.
  unfold os_Remove, sys. rewrite bind_run.
  by destruct (sys_remove name w) as [r w1].
Qed.

Lemma ioutil_ReadDir_run (name : string) (w : W) :
  ioutil_ReadDir name w =
    let '(r, w1) := sys_readdir name w in
    (Returned (match r with
               | inl e => ([], Some (sysError "open" name e))
               | inr files => (files, None)
               end), w1, [EvReadDir name r]).
Proof.
  unfold ioutil_ReadDir, sys. rewrite bind_run.
  by destruct (sys_readdir name w) as [[e|files] w1].
Qed.

Lemma File_Read_run (f : File) (b : list byte) (w : W) :
  File_Read f b w =
    let '(r, w1) := sys_read (fd f) (length b) w in
    (Returned (match r with
               | inl e => (0, b, Some (sysError "read" (fname f) e))
               | inr got =>
                   let got := take (length b) got in
                   if Nat.eqb (length got) 0 && Nat.ltb 0 (length b)
                   then (0, b, Some EOF)
                   else (length got, got ++ drop (length got) b, None)
               end), w1, [EvRead (fd f) (length b) r]).
Proof.
  unfold File_Read, sys. rewrite bind_run.
  destruct (sys_read (fd f) (length b) w) as [[e|got] w1]; [done|].
  cbv beta iota zeta.
  by destruct (_ && _).
Qed.

(** [ReadFileMagic] in terms of the three system calls it makes.  It
    always returns; the buffer has the bytes that were read in front of
    the zero bytes that [make] put there. *)
Lemma ReadFileMagic_run (name : string) (w : W) :
  helpers.ReadFileMagic name w =
    match sys_open name w with
    | (inl e, w1) =>
        (Returned ([], Some (sysError "open" name e)), w1, [EvOpen name (inl e)])
    | (inr d, w1) =>
        let '(rr, w2) := sys_read d 4 w1 in
        let '(cr, w3) := sys_close d w2 in
        (Returned (match rr with
                   | inl e => (replicate 4 x00, Some (sysError "read" name e))
                   | inr got =>
                       (cr_to_lf (take 4 got ++ replicate (4 - length (take 4 got)) x00),
                        None)
                   end), w3, [EvOpen name (inr d); EvRead d 4 rr; EvClose d cr])
    end.
Proof.
  unfold helpers.ReadFileMagic. rewrite bind_run, os_Open_run.
  destruct (sys_open name w) as [[e|d] w1]; [done|].
  cbv beta iota zeta. rewrite bind_run, File_Read_run.
  cbn [fd fname length replicate].
  destruct (sys_read d 4 w1) as [[e|got] w2].
  - rewrite bind_run, File_Close_run. cbn. by destruct (sys_close d w2).
  - destruct got as [|a [|b [|c [|x got]]]]; cbn -[mbind M_bind];
      rewrite bind_run, File_Close_run; cbn; by destruct (sys_close d w2).
Qed.
End Runs.

(** ** Magic sniffing on files of the in-memory file system *)

Section Magic.
Import helpers memfs gojekyll.

Lemma fds_lookup_new {A} (l : list A) (x : A) : (l ++ [x]) !! length l = Some x.
Proof. by rewrite list_lookup_middle. Qed.

Lemma fds_insert_new {A} (l : list A) (x y : A) :
  <[length l := y]> (l ++ [x]) = l ++ [y].
Proof. rewrite insert_app_r_alt by lia. by rewrite Nat.sub_diag. Qed.

(** Sniffing a file that exists: one [Read] that gets the first four
    bytes, or all of a shorter file; no error; the tree is untouched. *)
Lemma ReadFileMagic_file (w : fs) (name : string) (t : Z) (data : list byte) :
  lookup_path name w = inr (FileNode t data) →
  ReadFileMagic name w =
    (Returned (cr_to_lf (take 4 data ++ replicate (4 - length (take 4 data)) x00), None),
     mkFs (tree w) (fds w ++ [None]),
     [EvOpen name (inr (length (fds w)));
      EvRead (length (fds w)) 4 (inr (take 4 data));
      EvClose (length (fds w)) None]).
Proof.
  intros Hfile. rewrite ReadFileMagic_run.
  cbn [sys_open sys_read sys_close memfs_OS].
  unfold m_open, open_fd. rewrite Hfile.
  unfold m_read. cbn [fds tree]. rewrite fds_lookup_new.
  unfold lookup_path in *. cbn [tree]. rewrite Hfile.
  unfold m_close. cbn [fds tree]. rewrite fds_insert_new, fds_lookup_new, fds_insert_new.
  rewrite drop_0, take_take, Nat.min_id. reflexivity.
Qed.

Lemma magic_of_prefix (data : list byte) :
  hasFrontMatterMagic (cr_to_lf (take 4 data ++ replicate (4 - length (take 4 data)) x00))
    = true
  ↔ cr_to_lf (take 4 data) = [x2d; x2d; x2d; x0a].
Proof.
  unfold hasFrontMatterMagic. rewrite bool_decide_eq_true.
  destruct data as [|a [|b [|c [|d rest]]]]; cbn; try (split; discriminate).
  by rewrite app_nil_r.
Qed.

(** C2: for every file that can be read, front matter is detected exactly
    when the first four bytes of the file, with a carriage return in the
    fourth place rewritten to a line feed, are the marker followed by a
    line feed; and every file with the same first four bytes sniffs to
    the same magic, whatever follows them. *)
Theorem detection_by_first_four_bytes
    (w : fs) (name : string) (t : Z) (data : list byte) :
  lookup_path name w = inr (FileNode t data) →
  ∃ magic w' tr,
    ReadFileMagic name w = (Returned (magic, None), w', tr) ∧
    (hasFrontMatterMagic magic = true ↔ cr_to_lf (take 4 data) = [x2d; x2d; x2d; x0a]) ∧
    ∀ w2 name2 t2 data2,
      lookup_path name2 w2 = inr (FileNode t2 data2) →
      take 4 data2 = take 4 data →
      ∃ w2' tr2, ReadFileMagic name2 w2 = (Returned (magic, None), w2', tr2).
Proof.
  intros Hfile. rewrite (ReadFileMagic_file _ _ _ _ Hfile).
  eexists _, _, _. split; [reflexivity|]. split; [apply magic_of_prefix|].
  intros w2 name2 t2 data2 Hfile2 Hsame.
  rewrite (ReadFileMagic_file _ _ _ _ Hfile2), Hsame. eauto.
Qed.

(** C3 (as amended): for every file shorter than four bytes
    [ReadFileMagic] succeeds, the end of the input inside the first four
    bytes not being an error, and returns a buffer of four bytes: the
    bytes of the file followed by zero bytes.  The number of bytes read
    is not part of the result. *)
Theorem ReadFileMagic_short_file
    (w : fs) (name : string) (t : Z) (data : list byte) :
  lookup_path name w = inr (FileNode t data) →
  length data < 4 →
  ∃ w' tr,
    ReadFileMagic name w
      = (Returned (data ++ replicate (4 - length data) x00, None), w', tr) ∧
    tree w' = tree w.
Proof.
  intros Hfile Hshort. rewrite (ReadFileMagic_file _ _ _ _ Hfile).
  rewrite take_ge by lia.
  assert (cr_to_lf (data ++ replicate (4 - length data) x00)
          = data ++ replicate (4 - length data) x00) as ->.
  { unfold cr_to_lf. case_decide as Hcr; [|reflexivity].
    destruct data as [|a [|b [|c [|d rest]]]]; cbn in *; try discriminate; lia. }
  eexists _, _. split; reflexivity.
Qed.

Lemma detection_by_first_four_bytes_witness :
  ∃ magic w' tr,
    ReadFileMagic "site/a.md" sample.world = (Returned (magic, None), w', tr) ∧
    (hasFrontMatterMagic magic = true
     ↔ cr_to_lf (take 4 [x2d; x2d; x2d; x0d; x0a; x41]) = [x2d; x2d; x2d; x0a]) ∧
    ∀ w2 name2 t2 data2,
      lookup_path name2 w2 = inr (FileNode t2 data2) →
      take 4 data2 = take 4 [x2d; x2d; x2d; x0d; x0a; x41] →
      ∃ w2' tr2, ReadFileMagic name2 w2 = (Returned (magic, None), w2', tr2).
Proof.
  apply (detection_by_first_four_bytes sample.world "site/a.md" 2).
  reflexivity.
Defined.

Lemma ReadFileMagic_short_file_witness :
  ∃ w' tr,
    ReadFileMagic "site/ab" sample.world
      = (Returned ([x61; x62] ++ replicate (4 - 2) x00, None), w', tr) ∧
    tree w' = tree sample.world.
Proof.
  apply (ReadFileMagic_short_file sample.world "site/ab" 3 [x61; x62]).
  - reflexivity.
  - simpl. lia.
Defined.

(** C3 (as stated) fails: a file of two bytes and a file of four bytes
    whose last two are zero give the same result, a buffer of length
    four, although two bytes were read from the one and four from the
    other.  The count of bytes read cannot be told from the result. *)
Lemma ReadFileMagic_count_not_preserved :
  (ReadFileMagic "site/ab" sample.world).1.1
    = Returned ([x61; x62; x00; x00], None) ∧
  (ReadFileMagic "site/ab00" sample.world).1.1
    = Returned ([x61; x62; x00; x00], None) ∧
  bytes_read (ReadFileMagic "site/ab" sample.world).2 = [2] ∧
  bytes_read (ReadFileMagic "site/ab00" sample.world).2 = [4].
Proof. repeat split; vm_compute; reflexivity. Qed.
End Magic.

(** ** Scoped file creation *)

Section Create.
Context {W : Type} `{OS W}.
Import helpers.

Lemma closes_of_app (d : nat) (t1 t2 : list Event) :
  closes_of d (t1 ++ t2) = closes_of d t1 + closes_of d t2.
Proof. unfold closes_of. by rewrite filter_app, length_app. Qed.

(** When the file cannot be created, the error is returned and nothing
    is closed. *)
Lemma VisitCreatedFile_create_fails (name : string) (w : File → M W (option error))
    (w0 w1 : W) (e : Errno) :
  sys_creat name w0 = (inl e, w1) →
  VisitCreatedFile name w w0
    = (Returned (Some (sysError "open" name e)), w1, [EvCreate name (inl e)]).
Proof.
  intros Hc. unfold VisitCreatedFile. by rewrite bind_run, os_Create_run, Hc.
Qed.

(** C4: when the file is created, [VisitCreatedFile] closes it exactly
    once whatever the write routine does: the trace is the creation, the
    events of the write routine, and one close of the new descriptor.
    An error of the write routine is returned as it is, whatever the
    close returns; after a successful write routine the result is the
    result of the close; a panic of the write routine goes on after the
    close. *)
Theorem VisitCreatedFile_closes_once (name : string) (w : File → M W (option error))
    (w0 w1 w2 : W) (d : nat) (wr : outcome (option error)) (trw : list Event) :
  sys_creat name w0 = (inr d, w1) →
  w (mkFile d name) w1 = (wr, w2, trw) →
  wr ≠ Exhausted →
  ∃ cr w3 tr,
    sys_close d w2 = (cr, w3) ∧
    VisitCreatedFile name w w0
      = (match wr with
         | Returned (Some err) => Returned (Some err)
         | Returned None => Returned (sysError "close" name <$> cr)
         | Panicked msg => Panicked msg
         | Exhausted => Exhausted
         end, w3, tr) ∧
    tr = EvCreate name (inr d) :: trw ++ [EvClose d cr] ∧
    closes_of d tr = closes_of d trw + 1.
Proof.
  intros Hc Hw Hne.
  destruct (sys_close d w2) as [cr w3] eqn:Hclose.
  exists cr, w3, (EvCreate name (inr d) :: trw ++ [EvClose d cr]).
  split; [done|]. split; [|split; [done|]].
  - unfold VisitCreatedFile. rewrite bind_run, os_Create_run, Hc.
    cbv beta iota zeta. rewrite bind_run. unfold attempt. rewrite Hw.
    destruct wr as [[err|]|msg|]; [| | |done]; cbv beta iota zeta;
      rewrite !bind_run, File_Close_run; cbn [fd fname]; rewrite Hclose;
      cbn; by rewrite ?app_nil_r.
  - change (EvCreate name (inr d) :: trw ++ [EvClose d cr])
      with ([EvCreate name (inr d)] ++ trw ++ [EvClose d cr]).
    rewrite !closes_of_app. unfold closes_of at 1 3. cbn.
    rewrite Nat.eqb_refl, decide_False, decide_True by done. cbn. lia.
Qed.
End Create.

Section CreateWitness.
Import helpers memfs.

Lemma VisitCreatedFile_closes_once_witness :
  ∃ cr w3 tr,
    sys_close 0 (sample.write_fails (mkFile 0 "site/new.txt")
                   (sys_creat "site/new.txt" sample.world).2).1.2 = (cr, w3) ∧
    VisitCreatedFile "site/new.txt" sample.write_fails sample.world
      = (Returned (Some (EText "cannot render")), w3, tr) ∧
    tr = EvCreate "site/new.txt" (inr 0) :: [] ++ [EvClose 0 cr] ∧
    closes_of 0 tr = closes_of 0 [] + 1.
Proof.
  eapply (VisitCreatedFile_closes_once "site/new.txt" sample.write_fails sample.world
            _ _ 0 (Returned (Some (EText "cannot render"))) []).
  - reflexivity.
  - reflexivity.
  - discriminate.
Defined.
End CreateWitness.

(** ** Sorted string arrays *)

Section SortedStrings.
Import frontmatter.

Lemma sort_Strings_sorted (l : list string) : Sorted String.le (sort_Strings l).
Proof. apply Sorted_merge_sort, _. Qed.

Lemma sort_Strings_perm (l : list string) : sort_Strings l ≡ₚ l.
Proof. apply merge_sort_Permutation. Qed.

(** Sorting a sorted sequence changes nothing. *)
Lemma sort_Strings_fixed (l : list string) :
  Sorted String.le l → sort_Strings l = l.
Proof.
  intros Hl. apply (Sorted_unique String.le); auto using sort_Strings_sorted, sort_Strings_perm.
Qed.

Lemma SortedStringArray_sorted (fm : FrontMatter) (key : string) :
  Sorted String.le (SortedStringArray fm key).
Proof.
  unfold SortedStringArray.
  destruct (fm !! key) as [[]|]; auto using sort_Strings_sorted.
Qed.

Lemma coerce_strings (l : list string) : coerce <$> (VString <$> l) = l.
Proof. induction l as [|s l IH]; cbn; [done|]. by f_equal. Qed.

(** The cases of the test [TestFrontMatter_SortedStringArray], and a
    string with runs of white space. *)
Example sorted_of_string :
  SortedStringArray {[ "categories" := VString "b a" ]} "categories" = ["a"; "b"].
Proof. reflexivity. Qed.

Example sorted_of_values :
  SortedStringArray {[ "categories" := VList [VString "b"; VString "a"] ]} "categories"
    = ["a"; "b"].
Proof. reflexivity. Qed.

Example sorted_of_strings :
  SortedStringArray {[ "categories" := VStrings ["b"; "a"] ]} "categories" = ["a"; "b"].
Proof. reflexivity. Qed.

Example sorted_of_number :
  SortedStringArray {[ "categories" := VInt 3 ]} "categories" = [].
Proof. reflexivity. Qed.

Example sorted_of_runs :
  SortedStringArray {[ "tags" := VString "  go   Jekyll go " ]} "tags"
    = ["Jekyll"; "go"; "go"].
Proof. reflexivity. Qed.

(** C8: for every front matter map and key the result of
    [SortedStringArray] is sorted ascending in the byte order of strings;
    it is a rearrangement of the fields of a string value, of the
    elements of a sequence of strings, or of the coerced elements of a
    sequence of arbitrary values; it is empty for an absent key and for
    a value of any other type; and applied to its own output, as a
    sequence of strings or of values, it gives that output again. *)
Theorem SortedStringArray_spec (fm : FrontMatter) (key : string) :
  Sorted String.le (SortedStringArray fm key) ∧
  (∀ s, fm !! key = Some (VString s) →
        SortedStringArray fm key ≡ₚ strings_Fields s) ∧
  (∀ l, fm !! key = Some (VStrings l) → SortedStringArray fm key ≡ₚ l) ∧
  (∀ l, fm !! key = Some (VList l) → SortedStringArray fm key ≡ₚ coerce <$> l) ∧
  (fm !! key = None → SortedStringArray fm key = []) ∧
  (∀ v, fm !! key = Some v → string_like v = false → SortedStringArray fm key = []) ∧
  SortedStringArray (<[key := VStrings (SortedStringArray fm key)]> fm) key
    = SortedStringArray fm key ∧
  SortedStringArray (<[key := VList (VString <$> SortedStringArray fm key)]> fm) key
    = SortedStringArray fm key.
Proof.
  split; [apply SortedStringArray_sorted|].
  unfold SortedStringArray at 1 2 3 4 5.
  repeat split.
  - intros s ->. apply sort_Strings_perm.
  - intros l ->. apply sort_Strings_perm.
  - intros l ->. apply sort_Strings_perm.
  - by intros ->.
  - intros v -> Hv. by destruct v.
  - unfold SortedStringArray at 1. rewrite lookup_insert_eq.
    apply sort_Strings_fixed, SortedStringArray_sorted.
  - unfold SortedStringArray at 1. rewrite lookup_insert_eq, coerce_strings.
    apply sort_Strings_fixed, SortedStringArray_sorted.
Qed.

Lemma SortedStringArray_spec_witness :
  SortedStringArray {[ "categories" := VString "b a" ]} "categories"
    ≡ₚ strings_Fields "b a".
Proof.
  destruct (SortedStringArray_spec {[ "categories" := VString "b a" ]} "categories")
    as (_ & Hstring & _).
  apply Hstring. reflexivity.
Defined.
End SortedStrings.

(** ** The template object of a static page *)

Section TemplateObject.
Import gojekyll.

(** C9: [TemplateObject] of [StaticPage] does not return.  Its inner
    call [page.TemplateObject()] is a call of itself, so every bounded
    unfolding is exhausted, for every page: the merge of the metadata
    with the structural keys is never computed. *)
Theorem StaticPage_TemplateObject_never_returns (fuel : nat) (page : pageFields) :
  StaticPage_TemplateObject fuel page = Exhausted.
Proof. induction fuel as [|fuel IH]; cbn; [done|]. by rewrite IH. Qed.

(** Had the inner call reached the method of [pageFields], the
    structural keys would have won every conflict with the metadata,
    and the other metadata keys would have been kept. *)
Lemma promoted_structural_keys_win (page : pageFields) (k : string) (v : value) :
  pageFields_TemplateObject page !! k = Some v →
  StaticPage_TemplateObject_promoted page !! k = Some v.
Proof.
  intros Hk. unfold StaticPage_TemplateObject_promoted, MergeVariableMaps.
  by apply lookup_union_Some_l.
Qed.

Lemma promoted_keeps_metadata (page : pageFields) (k : string) :
  pageFields_TemplateObject page !! k = None →
  StaticPage_TemplateObject_promoted page !! k = frontMatter page !! k.
Proof.
  intros Hk. unfold StaticPage_TemplateObject_promoted, MergeVariableMaps.
  by rewrite lookup_union_r.
Qed.
End TemplateObject.

(** ** Reading a page *)

Section ReadPage.
Context {W : Type} `{OS W} `{gojekyll.Collaborators W}.
Import gojekyll.

Lemma calls_of_app (fn : string) (t1 t2 : list Event) :
  calls_of fn (t1 ++ t2) = calls_of fn t1 + calls_of fn t2.
Proof. unfold calls_of. by rewrite filter_app, length_app. Qed.

(** Sniffing always returns, and invokes no callback. *)
Lemma ReadFileMagic_returns (name : string) (w : W) :
  ∃ magic err w1 t1,
    helpers.ReadFileMagic name w = (Returned (magic, err), w1, t1) ∧
    ∀ fn, calls_of fn t1 = 0.
Proof.
  rewrite ReadFileMagic_run.
  destruct (sys_open name w) as [[e|d] w1].
  { eexists _, _, _, _. split; [reflexivity|]. intros fn. reflexivity. }
  destruct (sys_read d 4 w1) as [[e|got] w2], (sys_close d w2) as [cr w3];
    (eexists _, _, _, _; split; [reflexivity|]; intros fn; reflexivity).
Qed.

Lemma NewDynamicPage_run (fields : pageFields) (w : W) :
  NewDynamicPage fields w =
    let '(r, w1) := readFrontMatter (pageFields_Source fields) w in
    (Returned (match r with
               | inl err => (None, Some err)
               | inr (fm, body) =>
                   (Some (DynamicPage
                            (mkPageFields (relpath fields) (permalink fields)
                               (modTime fields)
                               (MergeVariableMaps (frontMatter fields) fm)
                               (collection fields) (site fields)) body), None)
               end), w1, [EvCall "NewDynamicPage" (relpath fields)]).
Proof.
  unfold NewDynamicPage, sys. rewrite bind_run.
  by destruct (readFrontMatter _ w) as [[e|[fm body]] w1].
Qed.

Lemma initPermalink_run (p : Page) (w : W) :
  initPermalink p w =
    let '(r, w1) := computePermalink p w in
    (Returned (match r with
               | inl err => (p, Some err)
               | inr link => (setPermalink p link, None)
               end), w1, [EvCall "initPermalink" (Path p)]).
Proof.
  unfold initPermalink, sys. rewrite bind_run.
  by destruct (computePermalink p w) as [[e|link] w1].
Qed.

Lemma merged_lookup (defaults fm : VariableMap) (k : string) :
  MergeVariableMaps defaults fm !! k
    = match fm !! k with Some v => Some v | None => defaults !! k end.
Proof.
  unfold MergeVariableMaps. rewrite lookup_union.
  by destruct (fm !! k), (defaults !! k).
Qed.

Variables (site : Site) (coll : option Collection) (relpath : string)
          (defaults : VariableMap).

Let abspath : string := filepath_Join (Source site) relpath.

(** [ReadPage] after a sniff that failed. *)
Lemma ReadPage_sniff_fails (w w1 : W) magic e t1 :
  helpers.ReadFileMagic abspath w = (Returned (magic, Some e), w1, t1) →
  ReadPage site coll relpath defaults w = (Returned (None, Some e), w1, t1).
Proof.
  intros Hs. unfold ReadPage. fold abspath. rewrite bind_run, Hs.
  cbn. by rewrite app_nil_r.
Qed.

(** [ReadPage] after a sniff that succeeded: the stat and the rest. *)
Lemma ReadPage_sniffed (w w1 : W) magic t1 :
  helpers.ReadFileMagic abspath w = (Returned (magic, None), w1, t1) →
  ReadPage site coll relpath defaults w =
    match sys_stat abspath w1 with
    | (inl e, w2) =>
        (Returned (None, Some (sysError "stat" abspath e)), w2,
         t1 ++ [EvStat abspath (inl e)])
    | (inr info, w2) =>
        let fields := mkPageFields relpath "" (ModTime info) defaults coll site in
        let '(r, w3, t3) :=
          (if hasFrontMatterMagic magic
           then NewDynamicPage fields
           else mret (Some (StaticPage fields), None)) w2 in
        match r with
        | Returned (Some p, None) =>
            let '(r4, w4, t4) := initPermalink p w3 in
            (match r4 with
             | Returned (p', err) => Returned (Some p', err)
             | Panicked msg => Panicked msg
             | Exhausted => Exhausted
             end, w4, t1 ++ [EvStat abspath (inr info)] ++ t3 ++ t4)
        | Returned (None, None) =>
            (Panicked "invalid memory address or nil pointer dereference", w3,
             t1 ++ [EvStat abspath (inr info)] ++ t3)
        | Returned (p, Some e) =>
            (Returned (p, Some e), w3, t1 ++ [EvStat abspath (inr info)] ++ t3)
        | Panicked msg => (Panicked msg, w3, t1 ++ [EvStat abspath (inr info)] ++ t3)
        | Exhausted => (Exhausted, w3, t1 ++ [EvStat abspath (inr info)] ++ t3)
        end
    end.
Proof.
  intros Hs. unfold ReadPage. fold abspath. rewrite bind_run, Hs.
  cbv beta iota zeta. rewrite bind_run, os_Stat_run.
  destruct (sys_stat abspath w1) as [[e|info] w2]; [by cbn|].
  cbv beta iota zeta. rewrite bind_run.
  set (fields := mkPageFields _ _ _ _ _ _).
  destruct ((if hasFrontMatterMagic magic then NewDynamicPage fields
             else mret (Some (StaticPage fields), None)) w2)
    as [[[[[p|] [e|]]|msg|] w3] t3]; try (cbn; by rewrite ?app_nil_r).
  cbv beta iota zeta. rewrite bind_run.
  destruct (initPermalink p w3) as [[[[p' err]|msg|] w4] t4];
    cbn; by rewrite ?app_nil_r.
Qed.
End ReadPage.

Section ReadPageClaims.
Context {W : Type} `{OS W} `{gojekyll.Collaborators W}.
Import gojekyll.

(** C1 (as amended): [ReadPage] sniffs the file and, if that succeeds,
    stats it; an error of either is returned with no page and without
    invoking [initPermalink].  Otherwise the magic decides the variant.
    When it is the marker, [NewDynamicPage] is called; its error is
    returned without invoking [initPermalink]; on success the page is
    Dynamic and its metadata is the parsed block merged over the
    defaults, parsed values winning.  When it is not the marker the
    page is Static and its metadata is exactly the defaults.  Then
    [initPermalink] is invoked exactly once, as the last step, on the
    page just made; the variant and the metadata stay as they are; an
    error of [initPermalink] is the error of [ReadPage], and the page
    comes back with it. *)
Theorem ReadPage_construction (site : Site) (coll : option Collection)
    (relpath : string) (defaults : VariableMap) (w : W) :
  let abspath := filepath_Join (Source site) relpath in
  let run := ReadPage site coll relpath defaults w in
  let finish (p : Page) (w3 : W) (before : list Event) : Prop :=
    let '(pr, w4) := computePermalink p w3 in
    ∃ p' err tr,
      run = (Returned (Some p', err), w4, tr) ∧
      Static p' = Static p ∧
      frontMatter (fieldsOf p') = frontMatter (fieldsOf p) ∧
      err = match pr with inl e => Some e | inr _ => None end ∧
      tr = before ++ [EvCall "initPermalink" relpath] ∧
      calls_of "initPermalink" tr = 1 in
  ∃ magic serr w1 t1,
    helpers.ReadFileMagic abspath w = (Returned (magic, serr), w1, t1) ∧
    match serr, sys_stat abspath w1 with
    | Some e, _ =>
        run = (Returned (None, Some e), w1, t1) ∧
        calls_of "initPermalink" t1 = 0
    | None, (inl e, w2) =>
        run = (Returned (None, Some (sysError "stat" abspath e)), w2,
               t1 ++ [EvStat abspath (inl e)]) ∧
        calls_of "initPermalink" (t1 ++ [EvStat abspath (inl e)]) = 0
    | None, (inr info, w2) =>
        let fields := mkPageFields relpath "" (ModTime info) defaults coll site in
        let stat := t1 ++ [EvStat abspath (inr info)] in
        if hasFrontMatterMagic magic then
          match readFrontMatter abspath w2 with
          | (inl e, w3) =>
              run = (Returned (None, Some e), w3,
                     stat ++ [EvCall "NewDynamicPage" relpath]) ∧
              calls_of "initPermalink" (stat ++ [EvCall "NewDynamicPage" relpath]) = 0
          | (inr (fm, body), w3) =>
              ∃ p, Static p = false ∧
                   (∀ k, frontMatter (fieldsOf p) !! k
                         = match fm !! k with
                           | Some v => Some v
                           | None => defaults !! k
                           end) ∧
                   finish p w3 (stat ++ [EvCall "NewDynamicPage" relpath])
          end
        else
          ∃ p, Static p = true ∧ frontMatter (fieldsOf p) = defaults ∧
               finish p w2 stat
    end.
Proof.
  intros abspath run finish.
  destruct (ReadFileMagic_returns abspath w) as (magic & serr & w1 & t1 & Hs & Hcalls).
  exists magic, serr, w1, t1. split; [done|].
  destruct serr as [e|].
  { split; [|done]. by eapply ReadPage_sniff_fails. }
  pose proof (ReadPage_sniffed site coll relpath defaults w w1 magic t1 Hs) as Hrun.
  fold run abspath in Hrun.
  destruct (sys_stat abspath w1) as [[e|info] w2].
  { split; [done|]. by rewrite calls_of_app, Hcalls. }
  cbv zeta in Hrun. cbv zeta.
  assert (Hfinish : ∀ p w3 t3,
    run = (let '(r4, w4, t4) := initPermalink p w3 in
           (match r4 with
            | Returned (p', err) => Returned (Some p', err)
            | Panicked msg => Panicked msg
            | Exhausted => Exhausted
            end, w4, t1 ++ [EvStat abspath (inr info)] ++ t3 ++ t4)) →
    Path p = relpath →
    calls_of "initPermalink" t3 = 0 →
    finish p w3 ((t1 ++ [EvStat abspath (inr info)]) ++ t3)).
  { intros p w3 t3 Hr Hpath Ht3. unfold finish.
    rewrite initPermalink_run, Hpath in Hr.
    destruct (computePermalink p w3) as [pr w4].
    destruct pr as [e|link];
      (eexists _, _, _; split; [exact Hr|]; split_and!;
       [by destruct p | by destruct p | done | by rewrite <- ?app_assoc
       | rewrite !calls_of_app, Hcalls, Ht3; reflexivity]). }
  destruct (hasFrontMatterMagic magic).
  - rewrite NewDynamicPage_run in Hrun. unfold pageFields_Source in Hrun.
    cbn [gojekyll.site gojekyll.relpath] in Hrun.
    fold abspath in Hrun.
    destruct (readFrontMatter abspath w2) as [[e|[fm body]] w3].
    + split; [by rewrite Hrun, <- app_assoc|].
      by rewrite !calls_of_app, Hcalls.
    + eexists. split; [|split; [|apply Hfinish; [rewrite Hrun; reflexivity|done|done]]].
      * done.
      * intros k. cbn. apply merged_lookup.
  - eexists. split; [|split; [|rewrite <- (app_nil_r (_ ++ [_])); apply Hfinish;
                               [rewrite Hrun; reflexivity|done|done]]]; done.
Qed.
End ReadPageClaims.

Section ReadPageRuns.
Import memfs gojekyll.

(** C1 (as stated) fails on two counts.  When [initPermalink] fails for
    a static file, [ReadPage] returns the page together with the error,
    not an error and no page.  And when the magic is the marker but the
    block cannot be read, no Dynamic page is constructed and
    [initPermalink] is not invoked at all. *)
Lemma ReadPage_page_with_error :
  (@ReadPage fs _ sample_pages.no_permalink (mkSite "site") None "ab" ∅ sample.world).1.1
    = Returned (Some (StaticPage (mkPageFields "ab" "" 3 ∅ None (mkSite "site"))),
                Some (EText "no permalink")) ∧
  (helpers.ReadFileMagic "site/a.md" sample.world).1.1
    = Returned ([x2d; x2d; x2d; x0a], None) ∧
  (@ReadPage fs _ sample_pages.no_front_matter (mkSite "site") None "a.md" ∅
     sample.world).1.1
    = Returned (None, Some (EText "malformed block")) ∧
  calls_of "initPermalink"
    (@ReadPage fs _ sample_pages.no_front_matter (mkSite "site") None "a.md" ∅
       sample.world).2 = 0.
Proof. repeat split; vm_compute; reflexivity. Qed.

(** A run in which everything succeeds. *)
Example ReadPage_dynamic_run :
  ∃ f body w' tr,
    @ReadPage fs _ sample_pages.works (mkSite "site") None "a.md"
      {[ "layout" := VString "default" ]} sample.world
      = (Returned (Some (DynamicPage f body), None), w', tr) ∧
    frontMatter f !! "title" = Some (VString "T") ∧
    frontMatter f !! "layout" = Some (VString "default") ∧
    permalink f = "/a.md" ∧
    calls_of "initPermalink" tr = 1.
Proof. eexists _, _, _, _. split; [reflexivity|]. repeat split; vm_compute; reflexivity. Qed.
End ReadPageRuns.

(** ** The bottom-up walk *)

Section Walk.
Context {W : Type} `{OS W}.
Import helpers.

Lemma walkDirs_nil (walk : string → M W (option error)) (root : string) (w : W) :
  walkDirs walk root [] w = (Returned None, w, []).
Proof. reflexivity. Qed.

Lemma walkDirs_cons (walk : string → M W (option error)) (root : string)
    (stat : FileInfo) (files : list FileInfo) (w : W) :
  walkDirs walk root (stat :: files) w =
    if IsDir stat then
      let '(r, w1, t1) := walk (filepath_Join root (Name stat)) w in
      match r with
      | Returned None =>
          let '(r2, w2, t2) := walkDirs walk root files w1 in (r2, w2, t1 ++ t2)
      | Returned (Some err) => (Returned (Some err), w1, t1)
      | Panicked msg => (Panicked msg, w1, t1)
      | Exhausted => (Exhausted, w1, t1)
      end
    else walkDirs walk root files w.
Proof.
  cbn [walkDirs]. destruct (IsDir stat); [|done].
  rewrite bind_run.
  destruct (walk _ w) as [[[[err|]|msg|] w1] t1]; try done.
  cbn. by rewrite app_nil_r.
Qed.

(** One level of [PostfixWalk]: the listing, the walks of the
    subdirectories, and, unless one of those failed, the stat of the
    root and the visit. *)
Lemma PostfixWalk_S (fuel : nat) (root : string) (walkFn : WalkFunc) (w : W) :
  PostfixWalk (S fuel) root walkFn w =
    let '(rd, w1) := sys_readdir root w in
    let '(r, w2, t2) :=
      match rd with
      | inr files => walkDirs (λ dir, PostfixWalk fuel dir walkFn) root files w1
      | inl _ => (Returned None, w1, [])
      end in
    match r with
    | Returned None =>
        let '(st, w3) := sys_stat root w2 in
        let '(r4, w4, t4) :=
          walkFn root (stat_result root st).1 (stat_result root st).2 w3 in
        (r4, w4,
         EvReadDir root rd :: t2 ++
         [EvStat root st;
          EvWalkFn root (stat_result root st).1 (stat_result root st).2] ++ t4)
    | Returned (Some err) => (Returned (Some err), w2, EvReadDir root rd :: t2)
    | Panicked msg => (Panicked msg, w2, EvReadDir root rd :: t2)
    | Exhausted => (Exhausted, w2, EvReadDir root rd :: t2)
    end.
Proof.
  cbn [PostfixWalk]. rewrite bind_run, ioutil_ReadDir_run.
  destruct (sys_readdir root w) as [rd w1].
  assert (∀ (m : M W (option error)),
    (let '(r, w2, t2) :=
       (r ← m;
        match r with
        | Some err => mret (Some err)
        | None =>
            '(info, err) ← os_Stat root;
            _ ← tell (EvWalkFn root info err);
            walkFn root info err
        end) w1 in (r, w2, [EvReadDir root rd] ++ t2)) =
    (let '(r, w2, t2) := m w1 in
     match r with
     | Returned None =>
         let '(st, w3) := sys_stat root w2 in
         let '(r4, w4, t4) :=
           walkFn root (stat_result root st).1 (stat_result root st).2 w3 in
         (r4, w4,
          EvReadDir root rd :: t2 ++
          [EvStat root st;
           EvWalkFn root (stat_result root st).1 (stat_result root st).2] ++ t4)
     | Returned (Some err) => (Returned (Some err), w2, EvReadDir root rd :: t2)
     | Panicked msg => (Panicked msg, w2, EvReadDir root rd :: t2)
     | Exhausted => (Exhausted, w2, EvReadDir root rd :: t2)
     end)) as Hrest.
  { intros m. rewrite bind_run.
    destruct (m w1) as [[[[err|]|msg|] w2] t2]; try done.
    - cbn. by rewrite app_nil_r.
    - rewrite bind_run, os_Stat_run.
      destruct (sys_stat root w2) as [[e|info] w3]; cbn [stat_result fst snd];
        cbv beta iota zeta; rewrite !bind_run; unfold tell; cbv beta iota zeta.
      + by destruct (walkFn root None _ w3) as [[r4 w4] t4].
      + by destruct (walkFn root (Some info) None w3) as [[r4 w4] t4]. }
  destruct rd as [e|files]; cbn [fst snd].
  - exact (Hrest (mret None)).
  - exact (Hrest (walkDirs (λ dir, PostfixWalk fuel dir walkFn) root files)).
Qed.
End Walk.

(** ** The order of the visits *)

Ltac no_visits :=
  repeat (apply Forall_cons_2; [cbn; tauto|]); apply Forall_nil_2.

Section Order.
Context {W : Type} `{OS W}.
Import helpers.

Lemma children_first_none (t : list Event) :
  Forall (λ ev, ¬ is_visit ev) t → children_first t.
Proof.
  intros Hall before d info err after ->.
  apply Forall_app in Hall as [_ Hall]. apply Forall_cons in Hall as [Hev _].
  by destruct Hev.
Qed.

Lemma children_first_app (t1 t2 : list Event) :
  children_first t1 → children_first t2 → children_first (t1 ++ t2).
Proof.
  intros H1 H2 before d info err after Heq.
  apply app_eq_inv in Heq as [(k & -> & Heq)|(k & -> & ->)].
  - destruct k as [|ev k]; cbn in Heq.
    + subst t2. destruct (H2 [] d info err after) as (front & ? & ? & ? & Hb & _);
        [done|]. by destruct front.
    + simplify_eq. by eapply H1.
  - destruct (H2 k d info err after) as (front & rd & mid & st & -> & Hrest); [done|].
    exists (t1 ++ front), rd, mid, st. by rewrite <- app_assoc.
Qed.

(** A visit after its listing, the visits of the entries and its
    stat. *)
Lemma children_first_visit (t tv : list Event) (d : string)
    (rd : Errno + list FileInfo) (mid : list Event) (st : Errno + FileInfo) :
  children_first t → children_first mid →
  Forall (λ ev, ¬ is_visit ev) tv →
  match rd with
  | inr files =>
      ∀ f, f ∈ files → IsDir f = true →
           ∃ i e, EvWalkFn (filepath_Join d (Name f)) i e ∈ mid
  | inl _ => mid = []
  end →
  children_first
    (t ++ EvReadDir d rd :: mid ++
     [EvStat d st; EvWalkFn d (stat_result d st).1 (stat_result d st).2] ++ tv).
Proof.
  intros Ht Hmid Htv Hrd.
  set (A := t ++ EvReadDir d rd :: mid ++ [EvStat d st]).
  assert (children_first A) as HA.
  { apply children_first_app; [done|].
    apply (children_first_app [_]); [apply children_first_none; no_visits|].
    apply children_first_app; [done|].
    apply children_first_none. no_visits. }
  assert (t ++ EvReadDir d rd :: mid ++
          [EvStat d st; EvWalkFn d (stat_result d st).1 (stat_result d st).2] ++ tv
          = A ++ EvWalkFn d (stat_result d st).1 (stat_result d st).2 :: tv) as ->.
  { unfold A. rewrite <- !app_assoc. cbn. by rewrite <- !app_assoc. }
  intros before d' info err after Heq.
  assert (before = A → d' = d → (info, err) = stat_result d st →
          ∃ front rd0 mid0 st0,
            before = front ++ EvReadDir d' rd0 :: mid0 ++ [EvStat d' st0] ∧
            (info, err) = stat_result d' st0 ∧
            match rd0 with
            | inr files =>
                ∀ f, f ∈ files → IsDir f = true →
                     ∃ i e, EvWalkFn (filepath_Join d' (Name f)) i e ∈ mid0
            | inl _ => mid0 = []
            end) as Hhere.
  { intros -> -> Hst. by exists t, rd, mid, st. }
  apply app_eq_inv in Heq as [(k & Hk & Heq)|(k & Hk & Heq)].
  - destruct k as [|ev k]; cbn in Heq.
    + rewrite app_nil_r in Hk. simplify_eq. apply Hhere; [done..|].
      by destruct (stat_result _ st).
    + simplify_eq. by eapply HA.
  - destruct k as [|ev k]; cbn in Heq.
    + rewrite app_nil_r in Hk. simplify_eq. apply Hhere; [done..|].
      by destruct (stat_result _ st).
    + simplify_eq. apply Forall_app in Htv as [_ Htv].
      apply Forall_cons in Htv as [Hev _]. by destruct Hev.
Qed.

Lemma walkDirs_children_first (walk : string → M W (option error)) (root : string) :
  (∀ dir w, children_first (walk dir w).2) →
  ∀ files w, children_first (walkDirs walk root files w).2.
Proof.
  intros Hwalk files. induction files as [|stat files IH]; intros w.
  { apply children_first_none. no_visits. }
  rewrite walkDirs_cons. destruct (IsDir stat); [|apply IH].
  specialize (Hwalk (filepath_Join root (Name stat)) w).
  destruct (walk _ w) as [[[[err|]|msg|] w1] t1]; cbn in Hwalk |- *; try done.
  pose proof (IH w1) as IH1.
  destruct (walkDirs walk root files w1) as [[r2 w2] t2]. cbn in IH1 |- *.
  by apply children_first_app.
Qed.

(** A loop that ends with nil has walked every directory of the
    listing. *)
Lemma walkDirs_visits (walk : string → M W (option error)) (root : string) :
  (∀ dir w, (walk dir w).1.1 = Returned None →
            ∃ i e, EvWalkFn dir i e ∈ (walk dir w).2) →
  ∀ files w,
    (walkDirs walk root files w).1.1 = Returned None →
    ∀ f, f ∈ files → IsDir f = true →
         ∃ i e, EvWalkFn (filepath_Join root (Name f)) i e
                  ∈ (walkDirs walk root files w).2.
Proof.
  intros Hwalk files. induction files as [|stat files IH]; intros w Hnil f Hf Hdir.
  { by apply elem_of_nil in Hf. }
  rewrite walkDirs_cons in Hnil |- *.
  apply elem_of_cons in Hf as [->|Hf].
  - rewrite Hdir in Hnil |- *.
    specialize (Hwalk (filepath_Join root (Name stat)) w).
    destruct (walk _ w) as [[[[err|]|msg|] w1] t1]; cbn in Hwalk, Hnil |- *; try done.
    destruct (Hwalk eq_refl) as (i & e & Hin).
    destruct (walkDirs walk root files w1) as [[r2 w2] t2]. cbn.
    exists i, e. apply elem_of_app. by left.
  - destruct (IsDir stat); [|by apply IH].
    destruct (walk _ w) as [[[[err|]|msg|] w1] t1]; cbn in Hnil |- *; try done.
    specialize (IH w1).
    destruct (walkDirs walk root files w1) as [[r2 w2] t2]. cbn in IH, Hnil |- *.
    destruct (IH Hnil f Hf Hdir) as (i & e & Hin).
    exists i, e. apply elem_of_app. by right.
Qed.

(** A walk that ends with nil has visited its root. *)
Lemma PostfixWalk_visits_root (fuel : nat) (root : string) (v : WalkFunc) (w : W) :
  (PostfixWalk fuel root v w).1.1 = Returned None →
  ∃ i e, EvWalkFn root i e ∈ (PostfixWalk fuel root v w).2.
Proof.
  destruct fuel as [|fuel]; [done|]. rewrite PostfixWalk_S.
  destruct (sys_readdir root w) as [rd w1].
  destruct (match rd with inr _ => _ | inl _ => _ end) as [[[[err|]|msg|] w2] t2];
    [done| |done..].
  destruct (sys_stat root w2) as [st w3].
  destruct (v root _ _ w3) as [[r4 w4] t4]. cbn. intros _.
  eexists _, _. right. apply elem_of_app. right. right. by left.
Qed.

(** The visits of a walk are in order, for a visitor that records no
    visit of its own on what a stat gives. *)
Lemma PostfixWalk_in_order (v : WalkFunc) :
  (∀ name st w,
     Forall (λ ev, ¬ is_visit ev)
       (v name (stat_result name st).1 (stat_result name st).2 w).2) →
  ∀ fuel root w, children_first (PostfixWalk fuel root v w).2.
Proof.
  intros Hv fuel. induction fuel as [|fuel IH]; intros root w.
  { apply children_first_none. no_visits. }
  rewrite PostfixWalk_S. destruct (sys_readdir root w) as [rd w1].
  set (loop := match rd with
               | inr files => walkDirs (λ dir, PostfixWalk fuel dir v) root files w1
               | inl _ => (Returned None, w1, [])
               end).
  assert (children_first loop.2) as Hloop.
  { unfold loop. destruct rd as [e|files]; [apply children_first_none; no_visits|].
    by apply walkDirs_children_first. }
  assert (loop.1.1 = Returned None →
          match rd with
          | inr files =>
              ∀ f, f ∈ files → IsDir f = true →
                   ∃ i e, EvWalkFn (filepath_Join root (Name f)) i e ∈ loop.2
          | inl _ => loop.2 = []
          end) as Hall.
  { unfold loop. destruct rd as [e|files]; [done|]. intros Hnil.
    apply (walkDirs_visits (λ dir, PostfixWalk fuel dir v)); [|done].
    intros dir w'. apply PostfixWalk_visits_root. }
  destruct loop as [[r w2] t2]. cbn [fst snd] in Hloop, Hall.
  assert (children_first (EvReadDir root rd :: t2)) as Hstop.
  { apply (children_first_app [_]); [|done].
    apply children_first_none. no_visits. }
  destruct r as [[err|]|msg|]; [done| |done..].
  destruct (sys_stat root w2) as [st w3].
  pose proof (Hv root st w3) as Hquiet.
  destruct (v root _ _ w3) as [[r4 w4] t4]. cbn [fst snd] in Hquiet |- *.
  apply (children_first_visit [] t4 root rd t2 st); [|done..|by apply Hall].
  apply children_first_none. no_visits.
Qed.



Lemma descends_prefix (d : string) (n : nat) (pre tr : list Event) :
  descends d n tr → descends d n (pre ++ tr).
Proof.
  destruct n as [|n]; [done|]. cbn.
  intros (before & files & f & after & -> & Hf & Hdir & Hrest).
  exists (pre ++ before), files, f, after. by rewrite <- app_assoc.
Qed.

(** A loop that does not end with nil ends with the walk of one of the
    directories of the listing, which gave the result. *)
Lemma walkDirs_stops (walk : string → M W (option error)) (root : string)
    (files : list FileInfo) (w : W) :
  match (walkDirs walk root files w).1.1 with
  | Returned None => True
  | out =>
      ∃ f pre w0,
        f ∈ files ∧ IsDir f = true ∧
        (walk (filepath_Join root (Name f)) w0).1
          = (out, (walkDirs walk root files w).1.2) ∧
        (walkDirs walk root files w).2
          = pre ++ (walk (filepath_Join root (Name f)) w0).2
  end.
Proof.
  revert w. induction files as [|stat files IH]; intros w; [done|].
  rewrite walkDirs_cons. destruct (IsDir stat) eqn:Hdir.
  - destruct (walk (filepath_Join root (Name stat)) w) as [[r1 w1] t1] eqn:Hrun.
    assert (∃ f pre w0,
              f ∈ stat :: files ∧ IsDir f = true ∧
              (walk (filepath_Join root (Name f)) w0).1 = (r1, w1) ∧
              t1 = pre ++ (walk (filepath_Join root (Name f)) w0).2) as Hhere.
    { exists stat, [], w. rewrite Hrun. split_and!; [by left|done..]. }
    destruct r1 as [[err|]|msg|]; cbn [fst snd]; [done| |done..].
    specialize (IH w1).
    destruct (walkDirs walk root files w1) as [[r2 w2] t2]. cbn [fst snd] in IH |- *.
    destruct r2 as [[err|]|msg|]; [|done|..];
      destruct IH as (f & pre & w0 & Hf & Hfd & Hres & ->);
      exists f, (t1 ++ pre), w0; rewrite <- app_assoc; split_and!; try done; by right.
  - specialize (IH w).
    destruct (walkDirs walk root files w) as [[r2 w2] t2]. cbn [fst snd] in IH |- *.
    destruct r2 as [[err|]|msg|]; [|done|..];
      destruct IH as (f & pre & w0 & Hf & Hfd & Hres & ->);
      exists f, pre, w0; split_and!; try done; by right.
Qed.

(** How a walk ends: with the visit that gave the result, which is the
    visit of the root when the result is nil; or out of fuel, after it
    went down as many levels as it had fuel. *)
Lemma PostfixWalk_ends (u : WalkFunc) (fuel : nat) (root : string) (w : W) :
  let '(out, w', tr) := PostfixWalk fuel root u w in
  (∃ front p info err w3 tv,
     tr = front ++ EvWalkFn p info err :: tv ∧
     u p info err w3 = (out, w', tv) ∧
     (out = Returned None → p = root)) ∨
  (out = Exhausted ∧ descends root fuel tr).
Proof.
  revert root w. induction fuel as [|fuel IH]; intros root w.
  { right. by split. }
  rewrite PostfixWalk_S. destruct (sys_readdir root w) as [rd w1].
  set (loop := match rd with
               | inr files => walkDirs (λ dir, PostfixWalk fuel dir u) root files w1
               | inl _ => (Returned None, w1, [])
               end).
  assert (match loop.1.1 with
          | Returned None => True
          | out =>
              ∃ files f pre w0,
                rd = inr files ∧ f ∈ files ∧ IsDir f = true ∧
                (PostfixWalk fuel (filepath_Join root (Name f)) u w0).1
                  = (out, loop.1.2) ∧
                loop.2 = pre ++ (PostfixWalk fuel (filepath_Join root (Name f)) u w0).2
          end) as Hloop.
  { unfold loop. destruct rd as [e|files]; [done|].
    pose proof (walkDirs_stops (λ dir, PostfixWalk fuel dir u) root files w1) as Hs.
    destruct (walkDirs _ root files w1) as [[[[err|]|msg|] w2] t2];
      cbn [fst snd] in Hs |- *; [|done|..];
      destruct Hs as (f & pre & w0 & Hf & Hfd & Hres & ->);
      by exists files, f, pre, w0. }
  destruct loop as [[r w2] t2]. cbn [fst snd] in Hloop.
  assert (r ≠ Returned None →
          (∃ files f pre w0,
             rd = inr files ∧ f ∈ files ∧ IsDir f = true ∧
             (PostfixWalk fuel (filepath_Join root (Name f)) u w0).1 = (r, w2) ∧
             t2 = pre ++ (PostfixWalk fuel (filepath_Join root (Name f)) u w0).2) →
          (∃ front p info err w3 tv,
             EvReadDir root rd :: t2 = front ++ EvWalkFn p info err :: tv ∧
             u p info err w3 = (r, w2, tv) ∧
             (r = Returned None → p = root)) ∨
          (r = Exhausted ∧ descends root (S fuel) (EvReadDir root rd :: t2))) as Hstop.
  { intros Hr (files & f & pre & w0 & -> & Hf & Hfd & Hres & ->).
    specialize (IH (filepath_Join root (Name f)) w0).
    destruct (PostfixWalk fuel (filepath_Join root (Name f)) u w0) as [[out' w'] tc].
    cbn [fst snd] in Hres |- *. simplify_eq.
    destruct IH as [(front & p & info & err & w3 & tv & -> & Hu & _)|[-> Hdown]].
    - left. exists (EvReadDir root (inr files) :: pre ++ front), p, info, err, w3, tv.
      split_and!; [|done..]. cbn. by rewrite <- app_assoc.
    - right. split; [done|]. exists [], files, f, (pre ++ tc).
      split_and!; [done..|]. by apply descends_prefix. }
  destruct r as [[err|]|msg|]; [by apply Hstop| |by apply Hstop..].
  destruct (sys_stat root w2) as [st w3].
  destruct (u root (stat_result root st).1 (stat_result root st).2 w3)
    as [[r4 w4] t4] eqn:Hrun.
  left. exists (EvReadDir root rd :: t2 ++ [EvStat root st]), root,
               (stat_result root st).1, (stat_result root st).2, w3, t4.
  split_and!; [|done..]. cbn. by rewrite <- app_assoc.
Qed.

End Order.

(** ** Pruning empty directories *)

Section Prune.
Context {W : Type} `{OS W}.
Import helpers.

(** The visitor of [RemoveEmptyDirectories] on the result of a stat: a
    path that does not exist is passed over, another stat error is
    returned; a directory is removed, where success, not-exist and
    not-empty count as success and another error is returned; a file is
    passed over.  It never panics on what [os.Stat] returns. *)
Lemma walkFn_run (name : string) (st : Errno + FileInfo) (w : W) :
  RemoveEmptyDirectories_walkFn name (stat_result name st).1 (stat_result name st).2 w =
    match st with
    | inl e =>
        (Returned (if N.eqb e ENOENT then None else Some (sysError "stat" name e)), w, [])
    | inr info =>
        if IsDir info then
          let '(r, w1) := sys_remove name w in
          (Returned (match r with
                     | None => None
                     | Some en =>
                         if N.eqb en ENOENT || N.eqb en ENOTEMPTY then None
                         else Some (sysError "remove" name en)
                     end), w1, [EvRemove name r])
        else (Returned None, w, [])
    end.
Proof.
  unfold RemoveEmptyDirectories_walkFn.
  destruct st as [e|info]; cbn [stat_result fst snd].
  - cbn. by destruct (N.eqb e ENOENT).
  - cbn. destruct (IsDir info); [|done].
    rewrite bind_run, os_Remove_run.
    destruct (sys_remove name w) as [[en|] w1]; [|done].
    cbn. destruct (N.eqb en ENOENT); [done|].
    cbn. by destruct (N.eqb en ENOTEMPTY).
Qed.

Lemma pruning_ends_prefix (out : outcome (option error)) (t1 t2 : list Event) :
  Forall tolerated t1 → pruning_ends out t2 → pruning_ends out (t1 ++ t2).
Proof.
  intros Ht1. destruct out as [[err|]|msg|]; cbn; [|by apply Forall_app_2|done|by apply Forall_app_2].
  intros (before & ev & after & -> & Hbefore & Hfatal & Hafter).
  exists (t1 ++ before), ev, after. rewrite <- app_assoc.
  split_and!; [done|by apply Forall_app_2|done|done].
Qed.

Lemma walkDirs_prunes (walk : string → M W (option error)) (root : string) :
  (∀ dir w, pruning_ends (walk dir w).1.1 (walk dir w).2) →
  ∀ files w,
    pruning_ends (walkDirs walk root files w).1.1 (walkDirs walk root files w).2.
Proof.
  intros Hwalk files. induction files as [|stat files IH]; intros w.
  { by cbn. }
  rewrite walkDirs_cons. destruct (IsDir stat); [|apply IH].
  specialize (Hwalk (filepath_Join root (Name stat)) w).
  destruct (walk _ w) as [[[[err|]|msg|] w1] t1]; cbn in Hwalk |- *; try done.
  pose proof (IH w1) as IH1.
  destruct (walkDirs walk root files w1) as [[r2 w2] t2] eqn:Hrest.
  by apply pruning_ends_prefix.
Qed.

Lemma RemoveEmptyDirectories_prunes (fuel : nat) (root : string) (w : W) :
  pruning_ends (RemoveEmptyDirectories fuel root w).1.1
               (RemoveEmptyDirectories fuel root w).2.
Proof.
  unfold RemoveEmptyDirectories. revert root w.
  induction fuel as [|fuel IH]; intros root w; [by cbn|].
  rewrite PostfixWalk_S.
  destruct (sys_readdir root w) as [rd w1].
  assert (pruning_ends
            (match rd with
             | inr files =>
                 walkDirs (λ dir, PostfixWalk fuel dir RemoveEmptyDirectories_walkFn)
                   root files w1
             | inl _ => (Returned None, w1, [])
             end).1.1
            (match rd with
             | inr files =>
                 walkDirs (λ dir, PostfixWalk fuel dir RemoveEmptyDirectories_walkFn)
                   root files w1
             | inl _ => (Returned None, w1, [])
             end).2) as Hloop.
  { destruct rd as [e|files]; [by cbn|]. by apply walkDirs_prunes. }
  destruct (match rd with inr _ => _ | inl _ => _ end) as [[r w2] t2].
  cbn [fst snd] in Hloop.
  assert (Hrd : Forall tolerated [EvReadDir root rd]) by by constructor.
  destruct r as [[err|]|msg|]; cbn [fst snd];
    try (by apply (pruning_ends_prefix _ [_] _ Hrd)).
  destruct (sys_stat root w2) as [st w3]. rewrite walkFn_run.
  change (EvReadDir root rd :: t2 ++ ?rest) with ([EvReadDir root rd] ++ t2 ++ rest).
  destruct st as [e|info].
  - cbn [fst snd stat_result]. apply pruning_ends_prefix; [done|].
    apply pruning_ends_prefix; [done|].
    destruct (N.eqb_spec e ENOENT) as [->|Hne]; cbn.
    + by repeat constructor.
    + exists [], (EvStat root (inl e)), [EvWalkFn root None (Some (sysError "stat" root e))].
      split_and!; [done|done|done|by repeat constructor].
  - cbn [stat_result fst snd]. destruct (IsDir info).
    + destruct (sys_remove root w3) as [[en|] w4]; cbn [fst snd];
        (apply pruning_ends_prefix; [done|]); (apply pruning_ends_prefix; [done|]).
      * destruct (N.eqb_spec en ENOENT) as [->|Hne1]; cbn.
        { repeat (constructor; [cbn; auto|]). constructor. }
        destruct (N.eqb_spec en ENOTEMPTY) as [->|Hne2]; cbn.
        { repeat (constructor; [cbn; auto|]). constructor. }
        exists [EvStat root (inr info); EvWalkFn root (Some info) None],
               (EvRemove root (Some en)), [].
        split_and!; [done|by repeat constructor|done|done].
      * cbn. by repeat constructor.
    + cbn [fst snd]. apply pruning_ends_prefix; [done|].
      apply pruning_ends_prefix; [done|]. cbn. by repeat constructor.
Qed.

Lemma attempts_none (t : list Event) :
  Forall (λ ev, ¬ is_visit ev) t → attempts t.
Proof.
  intros Hall before name info after -> _.
  apply Forall_app in Hall as [_ Hall]. apply Forall_cons in Hall as [Hev _].
  by destruct Hev.
Qed.

Lemma attempts_app (t1 t2 : list Event) :
  attempts t1 → attempts t2 → attempts (t1 ++ t2).
Proof.
  intros H1 H2 before name info after Heq Hdir.
  apply app_eq_inv in Heq as [(k & -> & Heq)|(k & -> & ->)].
  - destruct k as [|ev k]; cbn in Heq.
    + subst t2. by apply (H2 [] name info after).
    + simplify_eq.
      destruct (H1 before name info k eq_refl Hdir) as (r & after' & ->).
      by exists r, (after' ++ t2).
  - by apply (H2 k name info after).
Qed.

Lemma walkDirs_attempts (walk : string → M W (option error)) (root : string) :
  (∀ dir w, attempts (walk dir w).2) →
  ∀ files w, attempts (walkDirs walk root files w).2.
Proof.
  intros Hwalk files. induction files as [|stat files IH]; intros w.
  { apply attempts_none. no_visits. }
  rewrite walkDirs_cons. destruct (IsDir stat); [|apply IH].
  specialize (Hwalk (filepath_Join root (Name stat)) w).
  destruct (walk _ w) as [[[[err|]|msg|] w1] t1]; cbn in Hwalk |- *; try done.
  pose proof (IH w1) as IH1.
  destruct (walkDirs walk root files w1) as [[r2 w2] t2]. cbn in IH1 |- *.
  by apply attempts_app.
Qed.

(** The pruning visitor records nothing but its removal. *)
Lemma walkFn_quiet (name : string) (st : Errno + FileInfo) (w : W) :
  Forall (λ ev, ¬ is_visit ev)
    (RemoveEmptyDirectories_walkFn name (stat_result name st).1 (stat_result name st).2 w).2.
Proof.
  rewrite walkFn_run. destruct st as [e|info]; [no_visits|].
  destruct (IsDir info); [|no_visits].
  destruct (sys_remove name w) as [r w1]. no_visits.
Qed.

Lemma walkFn_attempts (name : string) (st : Errno + FileInfo) (w : W) :
  attempts
    (EvWalkFn name (stat_result name st).1 (stat_result name st).2 ::
     (RemoveEmptyDirectories_walkFn name (stat_result name st).1 (stat_result name st).2 w).2).
Proof.
  pose proof (walkFn_quiet name st w) as Hquiet. revert Hquiet.
  rewrite walkFn_run. intros Hquiet before name' info after Heq Hdir.
  destruct before as [|ev before]; cbn in Heq.
  - destruct st as [e|info0]; cbn [stat_result fst snd] in Heq; [done|].
    simplify_eq. rewrite Hdir. destruct (sys_remove name' w) as [r w1].
    by exists r, [].
  - injection Heq as _ Heq. rewrite Heq in Hquiet.
    apply Forall_app in Hquiet as [_ Hquiet].
    apply Forall_cons in Hquiet as [Hev _]. by destruct Hev.
Qed.

(** The pruning visitor does not run out of fuel: it has no loop. *)
Lemma walkFn_returns (name : string) (info : option FileInfo) (err : option error)
    (w : W) :
  (RemoveEmptyDirectories_walkFn name info err w).1.1 ≠ Exhausted.
Proof.
  unfold RemoveEmptyDirectories_walkFn.
  destruct (bool_decide (err ≠ None) && IsNotExist err); [done|].
  destruct err as [err|]; [done|]. destruct info as [info|]; [|done].
  destruct (IsDir info); [|done].
  rewrite bind_run, os_Remove_run.
  destruct (sys_remove name w) as [[en|] w1]; [|done].
  cbn. destruct (N.eqb en ENOENT); [done|].
  cbn. by destruct (N.eqb en ENOTEMPTY).
Qed.

Lemma RemoveEmptyDirectories_attempts (fuel : nat) (root : string) (w : W) :
  attempts (RemoveEmptyDirectories fuel root w).2.
Proof.
  unfold RemoveEmptyDirectories. revert root w.
  induction fuel as [|fuel IH]; intros root w.
  { apply attempts_none. no_visits. }
  rewrite PostfixWalk_S. destruct (sys_readdir root w) as [rd w1].
  assert (attempts
            (match rd with
             | inr files =>
                 walkDirs (λ dir, PostfixWalk fuel dir RemoveEmptyDirectories_walkFn)
                   root files w1
             | inl _ => (Returned None, w1, [])
             end).2) as Hloop.
  { destruct rd as [e|files]; [apply attempts_none; no_visits|].
    by apply walkDirs_attempts. }
  destruct (match rd with inr _ => _ | inl _ => _ end) as [[r w2] t2].
  cbn [fst snd] in Hloop.
  assert (attempts (EvReadDir root rd :: t2)) as Hstop.
  { apply (attempts_app [_]); [|done]. apply attempts_none. no_visits. }
  destruct r as [[err|]|msg|]; [done| |done..].
  destruct (sys_stat root w2) as [st w3].
  pose proof (walkFn_attempts root st w3) as Hvisit.
  destruct (RemoveEmptyDirectories_walkFn root _ _ w3) as [[r4 w4] t4].
  cbn [fst snd] in Hvisit |- *.
  change (EvReadDir root rd :: t2 ++ [EvStat root st; ?x] ++ t4)
    with ((EvReadDir root rd :: t2) ++ [EvStat root st] ++ (x :: t4)).
  apply attempts_app; [done|]. apply attempts_app; [|done].
  apply attempts_none. no_visits.
Qed.

(** C6 (as amended): in every pruning pass, whatever the file system
    answers.  Every visit of a directory is followed at once by an
    attempt to remove it.  The pass goes on after a removal that
    succeeds or fails with not-exist or not-empty and after a stat that
    fails with not-exist: the directories that a listing reports are
    each visited before the directory that lists them, and a pass that
    returns nil has visited its root.  A listing that fails, in whatever
    way, is passed over as well: the error is not returned.  The pass
    returns an error only when a stat or a removal failed in another
    way; it returns the error of that call and makes no further system
    call after it.  The pass never panics, and it runs out of fuel only
    where directories are nested as deep as there is fuel. *)
Theorem RemoveEmptyDirectories_tolerates (fuel : nat) (root : string) (w : W) :
  let '(out, _, tr) := RemoveEmptyDirectories fuel root w in
  attempts tr ∧
  children_first tr ∧
  match out with
  | Returned None => Forall tolerated tr ∧ ∃ i e, EvWalkFn root i e ∈ tr
  | Exhausted => Forall tolerated tr ∧ descends root fuel tr
  | Returned (Some err) =>
      ∃ before ev after,
        tr = before ++ ev :: after ∧
        Forall tolerated before ∧ fatal ev err ∧ Forall is_visit after
  | Panicked _ => False
  end.
Proof.
  pose proof (RemoveEmptyDirectories_prunes fuel root w) as Hp.
  pose proof (PostfixWalk_ends RemoveEmptyDirectories_walkFn fuel root w) as He.
  fold (RemoveEmptyDirectories fuel root w) in He.
  pose proof (RemoveEmptyDirectories_attempts fuel root w) as Ha.
  assert (children_first (RemoveEmptyDirectories fuel root w).2) as Hc.
  { apply PostfixWalk_in_order. apply walkFn_quiet. }
  pose proof (PostfixWalk_visits_root fuel root RemoveEmptyDirectories_walkFn w) as Hr.
  fold (RemoveEmptyDirectories fuel root w) in Hr.
  destruct (RemoveEmptyDirectories fuel root w) as [[out w'] tr].
  cbn [fst snd] in *. split_and!; [done..|].
  destruct out as [[err|]|msg|]; [done| |done|].
  - split; [done|]. by apply Hr.
  - split; [done|].
    destruct He as [(front & p & info & err & w3 & tv & _ & Hu & _)|[_ Hdown]];
      [|done].
    pose proof (walkFn_returns p info err w3) as Hret. by rewrite Hu in Hret.
Qed.
End Prune.

Section PruneListing.
Import helpers memfs.

(** C6 (as stated) fails: the directory [d] cannot be listed, which is
    an error other than not-exist and not-empty, and the pass does not
    return it.  The directory is taken to have no entries, its removal
    fails with not-empty, and the pass returns nil. *)
Lemma RemoveEmptyDirectories_passes_listing_error :
  RemoveEmptyDirectories 1 "d" sample.locked
    = (Returned None, sample.locked,
       [EvReadDir "d" (inl EACCES);
        EvStat "d" (inr (mkFileInfo "d" true 1));
        EvWalkFn "d" (Some (mkFileInfo "d" true 1)) None;
        EvRemove "d" (Some ENOTEMPTY)]) ∧
  EACCES ≠ ENOENT ∧ EACCES ≠ ENOTEMPTY.
Proof. split_and!; [vm_compute; reflexivity|done..]. Qed.
End PruneListing.

(** ** The walk over a tree of the in-memory file system *)

Section Paths.
Import memfs walk_spec.

Lemma components_nonempty (s : string) : components s ≠ [].
Proof. destruct s as [|c s]; cbn; [done|]. by repeat case_match. Qed.

Lemma components_app (a b : string) :
  components (a +:+ String "/" b) = components a ++ components b.
Proof.
  induction a as [|c a IH]; [done|].
  change (String c a +:+ String "/" b) with (String c (a +:+ String "/" b)).
  cbn [components].
  destruct (Ascii.eqb c "/"); [by rewrite IH|].
  rewrite IH. pose proof (components_nonempty a).
  by destruct (components a).
Qed.

Lemma path_of_empty : path_of "" = [].
Proof. reflexivity. Qed.

Lemma components_elems (s : string) : components s = filepath_elems s.
Proof. reflexivity. Qed.

Lemma elems_no_slash (s : string) : Forall no_slash (filepath_elems s).
Proof.
  induction s as [|c s IH]; cbn.
  { constructor; [|done]. unfold no_slash. cbn. apply not_elem_of_nil. }
  destruct (Ascii.eqb_spec c "/") as [->|Hc].
  { constructor; [|done]. unfold no_slash. cbn. apply not_elem_of_nil. }
  destruct (filepath_elems s) as [|h t].
  - constructor; [|done]. unfold no_slash. cbn.
    by intros [?|?%elem_of_nil]%elem_of_cons.
  - apply Forall_cons in IH as [Hh Ht]. constructor; [|done].
    unfold no_slash in *. cbn. by intros [?|?]%elem_of_cons.
Qed.

Lemma elems_single (e : string) : no_slash e → filepath_elems e = [e].
Proof.
  unfold no_slash. induction e as [|c e IH]; cbn; [done|].
  intros [Hc He]%not_elem_of_cons.
  destruct (Ascii.eqb_spec c "/") as [->|_]; [done|]. by rewrite IH.
Qed.

Lemma elems_join (kept : list string) :
  kept ≠ [] → Forall no_slash kept → filepath_elems (joinElems kept) = kept.
Proof.
  induction kept as [|e kept IH]; [done|]. intros _ [He Hkept]%Forall_cons.
  destruct kept as [|e' kept]; [by apply elems_single|].
  change (joinElems (e :: e' :: kept))
    with (e +:+ String "/" (joinElems (e' :: kept))).
  change filepath_elems with components. rewrite components_app.
  change components with filepath_elems.
  by rewrite (elems_single e), IH.
Qed.

(** Without "..", cleaning keeps the elements that are not empty and
    not ".". *)
Lemma cleanElems_plain (rooted : bool) (elems kept : list string) :
  ".." ∉ elems →
  cleanElems rooted elems kept
    = reverse kept ++ filter (λ c, c ≠ "" ∧ c ≠ ".") elems.
Proof.
  revert kept. induction elems as [|e elems IH]; intros kept Hup; cbn [cleanElems].
  { by rewrite app_nil_r. }
  apply not_elem_of_cons in Hup as [He Hup].
  destruct (decide (e = "" ∨ e = ".")) as [Hdrop|Hkeep].
  - rewrite filter_cons_False by (intros [? ?]; by destruct Hdrop). by apply IH.
  - rewrite decide_False by done.
    rewrite filter_cons_True by (split; intros ->; apply Hkeep; auto).
    rewrite IH by done. by rewrite reverse_cons, <- app_assoc.
Qed.

Lemma filter_path_of (s : string) :
  filter (λ c, c ≠ "" ∧ c ≠ ".") (path_of s) = path_of s.
Proof.
  unfold path_of. induction (components s) as [|c l IH]; [done|].
  destruct (decide (c ≠ "" ∧ c ≠ ".")) as [Hc|Hc].
  - rewrite !filter_cons_True by done. by f_equal.
  - by rewrite !filter_cons_False by done.
Qed.

(** Cleaning a path that does not go up leaves the place it names. *)
Lemma path_of_Clean (s : string) :
  ".." ∉ components s → path_of (filepath_Clean s) = path_of s.
Proof.
  intros Hup. destruct s as [|c s]; [done|].
  assert (cleanElems (Ascii.eqb c "/") (filepath_elems (String c s)) []
          = path_of (String c s)) as Hkept.
  { by rewrite cleanElems_plain. }
  assert (Forall no_slash (path_of (String c s))) as Hno.
  { apply Forall_forall. intros e [_ He]%list_elem_of_filter.
    pose proof (elems_no_slash (String c s)) as Hall.
    rewrite Forall_forall in Hall. by apply Hall. }
  unfold filepath_Clean. rewrite Hkept.
  set (kept := path_of (String c s)) in *.
  assert (filter (λ c, c ≠ "" ∧ c ≠ ".") kept = kept) as Hfix
    by apply filter_path_of.
  destruct (Ascii.eqb c "/").
  - change ("/" +:+ joinElems kept) with (String "/" (joinElems kept)).
    unfold path_of at 1. cbn [components Ascii.eqb Bool.eqb].
    rewrite filter_cons_False by (by intros [? _]).
    destruct (decide (kept = [])) as [->|Hne]; [done|].
    change components with filepath_elems. by rewrite elems_join.
  - destruct (decide (kept = [])) as [->|Hne]; [done|].
    unfold path_of at 1. change components with filepath_elems.
    by rewrite elems_join.
Qed.

Lemma valid_name_elems (k : string) : valid_name k → components k = [k].
Proof.
  intros [Hk _]. apply elems_single.
  assert (k ∈ path_of k) as Hin by (rewrite Hk; by left).
  unfold path_of in Hin. apply list_elem_of_filter in Hin as [_ Hin].
  pose proof (elems_no_slash k) as Hall. rewrite Forall_forall in Hall. by apply Hall.
Qed.

Lemma plain_components (root : string) : plain root ↔ ".." ∉ components root.
Proof.
  unfold plain, path_of. rewrite list_elem_of_filter. split.
  - intros Hup Hin. apply Hup. by split.
  - intros Hup [_ Hin]. by apply Hup.
Qed.

(** Joining a directory and an entry name adds one piece to the path. *)
Lemma path_of_join (root k : string) :
  valid_name k → plain root → path_of (filepath_Join root k) = path_of root ++ [k].
Proof.
  intros Hk Hroot. pose proof (valid_name_elems k Hk) as Helems.
  destruct Hk as [Hk Hup]. unfold filepath_Join.
  destruct (decide (root = "")) as [->|Hne].
  - rewrite decide_False by (intros ->; done).
    rewrite path_of_Clean; [done|]. rewrite Helems.
    by intros ?%list_elem_of_singleton.
  - change ("/" +:+ k) with (String "/" k).
    rewrite path_of_Clean.
    + unfold path_of in *. rewrite components_app, filter_app. by f_equal.
    + rewrite components_app, Helems, elem_of_app.
      intros [Hin|Hin%list_elem_of_singleton]; [|done].
      by apply plain_components in Hin.
Qed.

Lemma plain_join (root k : string) :
  valid_name k → plain root → plain (filepath_Join root k).
Proof.
  intros Hk Hroot. unfold plain. rewrite path_of_join by done.
  rewrite elem_of_app. intros [Hin|Hin%list_elem_of_singleton]; [done|].
  by destruct Hk as [_ Hk].
Qed.

Lemma base_of_join (root k : string) :
  valid_name k → plain root → base_of (filepath_Join root k) = k.
Proof.
  intros Hk Hroot. unfold base_of. by rewrite path_of_join, reverse_snoc.
Qed.

Lemma resolve_app (p q : list string) (n : node) :
  resolve (p ++ q) n =
    match resolve p n with inl e => inl e | inr n' => resolve q n' end.
Proof.
  revert n. induction p as [|c p IH]; intros n; cbn; [done|].
  destruct n as [|t l es]; [done|]. by destruct (child c es).
Qed.

Lemma child_elem (k : string) (c : node) (es : list (string * node)) :
  NoDup es.*1 → (k, c) ∈ es → child k es = Some c.
Proof.
  induction es as [|[k' c'] es IH]; cbn; intros Hnd Hin.
  { by apply elem_of_nil in Hin. }
  apply NoDup_cons in Hnd as [Hk' Hnd].
  apply elem_of_cons in Hin as [Heq|Hin].
  - simplify_eq. by rewrite decide_True.
  - rewrite decide_False; [by apply IH|].
    intros ->. apply Hk'. by apply (list_elem_of_fmap_2 fst _ (k, c)).
Qed.

(** The entry [k] of the directory at [root] is found at the joined
    path. *)
Lemma lookup_child (w : fs) (root k : string) t l es (c : node) :
  lookup_path root w = inr (DirNode t l es) → plain root →
  NoDup es.*1 → valid_name k → (k, c) ∈ es →
  lookup_path (filepath_Join root k) w = inr c.
Proof.
  unfold lookup_path. intros Hroot Hplain Hnd Hk Hin.
  rewrite path_of_join, resolve_app, Hroot by done.
  cbn. by rewrite (child_elem k c es).
Qed.

Lemma height_child (k : string) (c : node) t l (es : list (string * node)) :
  (k, c) ∈ es → height c < height (DirNode t l es).
Proof.
  cbn. induction es as [|e es IH]; intros Hin.
  { by apply elem_of_nil in Hin. }
  apply elem_of_cons in Hin as [<-|Hin]; cbn; [lia|].
  specialize (IH Hin). lia.
Qed.
End Paths.

Section MemWalk.
Import memfs walk_spec helpers.

Variable v : @WalkFunc fs.
Hypothesis Hv : observes v.

Lemma visits_app (t1 t2 : list Event) : visits (t1 ++ t2) = visits t1 ++ visits t2.
Proof. apply omap_app. Qed.

Lemma dirs_postorder_dir (root : string) t (es : list (string * node)) :
  dirs_postorder root (DirNode t true es) =
    (es ≫= λ e, if is_dir e.2 then dirs_postorder (filepath_Join root e.1) e.2 else [])
    ++ [root].
Proof.
  reflexivity.
Qed.

Lemma info_of_IsDir (k : string) (c : node) : IsDir (info_of k c) = is_dir c.
Proof. by destruct c. Qed.

Lemma info_of_Name (k : string) (c : node) : Name (info_of k c) = k.
Proof. by destruct c. Qed.

Lemma m_stat_world (name : string) (w : fs) : (m_stat name w).2 = w.
Proof. unfold m_stat. by destruct (lookup_path name w). Qed.

(** The end of a level: the stat of the root and the visit. *)
Lemma walk_level (fuel : nat) (root : string) (w : fs)
    (rd : Errno + list FileInfo) (t2 : list Event) :
  m_readdir root w = (rd, w) →
  match rd with
  | inr files => walkDirs (λ dir, PostfixWalk fuel dir v) root files w
  | inl _ => (Returned None, w, [])
  end = (Returned None, w, t2) →
  ∃ tr, PostfixWalk (S fuel) root v w = (Returned None, w, tr) ∧
        visits tr = visits t2 ++ [handed w root].
Proof.
  intros Hrd Hloop. rewrite PostfixWalk_S.
  cbn [sys_readdir sys_stat memfs_OS]. rewrite Hrd, Hloop.
  pose proof (m_stat_world root w) as Hw.
  destruct (m_stat root w) as [st w3] eqn:Hst. cbn in Hw. subst w3.
  destruct (Hv root (stat_result root st).1 (stat_result root st).2 w)
    as (tv & -> & Htv).
  eexists. split; [done|].
  change (EvReadDir root rd :: t2 ++ ?r) with ([EvReadDir root rd] ++ t2 ++ r).
  rewrite !visits_app, Htv, app_nil_r. cbn. unfold handed. rewrite Hst. cbn.
  by destruct (stat_result root st).
Qed.

Lemma walk_entries (fuel : nat) (w : fs) (root : string) t l all :
  walks v fuel w →
  lookup_path root w = inr (DirNode t l all) →
  plain root →
  wf (DirNode t l all) →
  height (DirNode t l all) < S fuel →
  ∀ es, es ⊆ all →
    ∃ tr,
      walkDirs (λ dir, PostfixWalk fuel dir v) root ((λ e, info_of e.1 e.2) <$> es) w
        = (Returned None, w, tr) ∧
      visits tr = handed w <$>
        (es ≫= λ e, if is_dir e.2 then dirs_postorder (filepath_Join root e.1) e.2 else []).
Proof.
  intros IH Hroot Hplain Hwf Hheight es.
  inversion Hwf as [|? ? ? Hnd Hall]; subst.
  induction es as [|[k c] es IHes]; intros Hsub.
  { by exists []. }
  assert (Hin : (k, c) ∈ all) by (apply Hsub; left).
  destruct IHes as (tr2 & Hrest & Hvis2).
  { intros e He. apply Hsub. by right. }
  rewrite fmap_cons, walkDirs_cons, info_of_IsDir, info_of_Name.
  cbn [fst snd]. destruct (is_dir c) eqn:Hdir.
  - rewrite Forall_forall in Hall. destruct (Hall _ Hin) as [Hk Hwfc].
    destruct (IH (filepath_Join root k) c) as (tr1 & -> & Hvis1).
    + done.
    + by apply plain_join.
    + by eapply lookup_child.
    + pose proof (height_child k c t l all Hin). lia.
    + rewrite Hrest. eexists. split; [done|].
      rewrite visits_app, Hvis1, Hvis2. cbn. rewrite Hdir. by rewrite fmap_app.
  - exists tr2. split; [done|]. rewrite Hvis2. cbn. by rewrite Hdir.
Qed.

Lemma walk_tree (fuel : nat) (w : fs) : walks v fuel w.
Proof.
  induction fuel as [|fuel IH]; intros root n Hwf Hplain Hroot Hheight; [lia|].
  destruct n as [t data|t [] es].
  - destruct (walk_level fuel root w (inl ENOTDIR) []) as (tr & -> & Hvis).
    + unfold m_readdir. by rewrite Hroot.
    + done.
    + by exists tr.
  - destruct (walk_entries fuel w root t true es IH Hroot Hplain Hwf Hheight es)
      as (t2 & Hloop & Hvis2); [done|].
    destruct (walk_level fuel root w
                (inr ((λ e, info_of e.1 e.2) <$> es)) t2) as (tr & -> & Hvis).
    + unfold m_readdir. by rewrite Hroot.
    + done.
    + exists tr. split; [done|].
      by rewrite Hvis, Hvis2, dirs_postorder_dir, fmap_app.
  - destruct (walk_level fuel root w (inl EACCES) []) as (tr & -> & Hvis).
    + unfold m_readdir. by rewrite Hroot.
    + done.
    + by exists tr.
Qed.

(** A root that cannot be resolved: the listing fails, which is passed
    over, and the visitor is handed the error of the stat. *)
Lemma walk_missing (fuel : nat) (w : fs) (root : string) (e : Errno) :
  lookup_path root w = inl e →
  ∃ tr, PostfixWalk (S fuel) root v w = (Returned None, w, tr) ∧
        visits tr = [(root, (None, Some (sysError "stat" root e)))].
Proof.
  intros Hroot.
  destruct (walk_level fuel root w (inl e) []) as (tr & -> & Hvis).
  - unfold m_readdir. by rewrite Hroot.
  - done.
  - exists tr. split; [done|]. rewrite Hvis. cbn. unfold handed, m_stat.
    by rewrite Hroot.
Qed.
End MemWalk.

Section Postorder.
Import memfs walk_spec helpers.

Lemma node_induction (P : node → Prop) :
  (∀ t data, P (FileNode t data)) →
  (∀ t l es, Forall (λ e, P e.2) es → P (DirNode t l es)) →
  ∀ n, P n.
Proof.
  intros Hfile Hdir. fix IH 1. intros [t data|t l es]; [apply Hfile|].
  apply Hdir. induction es as [|e es IHes]; constructor; [apply IH|apply IHes].
Qed.

Lemma dirs_postorder_snoc (root : string) (n : node) :
  ∃ front, dirs_postorder root n = front ++ [root].
Proof.
  destruct n as [t data|t [] es].
  - by exists [].
  - rewrite dirs_postorder_dir. by eexists.
  - by exists [].
Qed.

Lemma dirs_postorder_last (root : string) (n : node) :
  last (dirs_postorder root n) = Some root.
Proof. destruct (dirs_postorder_snoc root n) as [front ->]. apply last_snoc. Qed.

Lemma dirs_postorder_root (root : string) (n : node) : root ∈ dirs_postorder root n.
Proof.
  destruct (dirs_postorder_snoc root n) as [front ->].
  apply elem_of_app. right. by left.
Qed.

(** Only directories that are reached are visited, and the root. *)
Lemma dirs_postorder_reached (n : node) :
  ∀ root p, p ∈ dirs_postorder root n →
    p = root ∨ ∃ t l es, reaches root n p (DirNode t l es).
Proof.
  induction n as [t data|t l es IH] using node_induction; intros root p Hp.
  { left. by apply list_elem_of_singleton in Hp. }
  destruct l; [|left; by apply list_elem_of_singleton in Hp].
  rewrite dirs_postorder_dir in Hp.
  apply elem_of_app in Hp as [Hp|Hp]; [|left; by apply list_elem_of_singleton in Hp].
  right. apply list_elem_of_bind in Hp as ([k c] & Hp & Hin). cbn [fst snd] in Hp.
  rewrite Forall_forall in IH. specialize (IH _ Hin). cbn [snd] in IH.
  destruct c as [t' data|t' l' es']; [by apply elem_of_nil in Hp|].
  cbn [is_dir] in Hp.
  destruct (IH _ _ Hp) as [->|(t2 & l2 & es2 & Hreach)].
  - exists t', l', es'. eapply reaches_down; [done|constructor].
  - exists t2, l2, es2. by eapply reaches_down.
Qed.

(** The walk of a directory that is reached is a block of the walk of
    the root. *)
Lemma dirs_postorder_block (root : string) (n : node) (p : string) (m : node) :
  reaches root n p m → is_dir m = true →
  ∃ l1 l3, dirs_postorder root n = l1 ++ dirs_postorder p m ++ l3.
Proof.
  induction 1 as [root n|root t es k c p m Hin Hreach IH]; intros Hm.
  { exists [], []. by rewrite app_nil_r. }
  destruct (IH Hm) as (l1 & l3 & Hblock).
  assert (is_dir c = true) as Hc.
  { destruct c; [|done]. inversion Hreach; by subst. }
  apply list_elem_of_split in Hin as (a & b & ->).
  rewrite dirs_postorder_dir, bind_app, bind_cons. cbn [fst snd].
  rewrite Hc, Hblock.
  set (f := λ e : string * node,
         if is_dir e.2 then dirs_postorder (filepath_Join root e.1) e.2 else []).
  exists ((a ≫= f) ++ l1), (l3 ++ (b ≫= f) ++ [root]).
  by rewrite <- ?app_assoc.
Qed.

(** Every directory that is reached is visited. *)
Lemma dirs_postorder_complete (root : string) (n : node) (p : string) (m : node) :
  reaches root n p m → is_dir m = true → p ∈ dirs_postorder root n.
Proof.
  intros Hreach Hm.
  destruct (dirs_postorder_block root n p m Hreach Hm) as (l1 & l3 & ->).
  apply elem_of_app. right. apply elem_of_app. left. apply dirs_postorder_root.
Qed.

(** A subdirectory is visited before the directory that lists it. *)
Lemma dirs_postorder_child_first (root : string) (n : node) (p : string) t es
    (k : string) (c : node) :
  reaches root n p (DirNode t true es) → (k, c) ∈ es → is_dir c = true →
  ∃ l1 l2 l3, dirs_postorder root n = l1 ++ filepath_Join p k :: l2 ++ p :: l3.
Proof.
  intros Hreach Hin Hc.
  destruct (dirs_postorder_block root n p _ Hreach eq_refl) as (l1 & l3 & ->).
  apply list_elem_of_split in Hin as (a & b & ->).
  rewrite dirs_postorder_dir, bind_app, bind_cons. cbn [fst snd]. rewrite Hc.
  destruct (dirs_postorder_snoc (filepath_Join p k) c) as [front ->].
  set (f := λ e : string * node,
         if is_dir e.2 then dirs_postorder (filepath_Join p e.1) e.2 else []).
  exists (l1 ++ (a ≫= f) ++ front), (b ≫= f), l3.
  rewrite <- ?app_assoc. reflexivity.
Qed.
End Postorder.

Section WalkClaims.
Import memfs walk_spec helpers.

Lemma visited_handed (w : fs) (l : list string) : fst <$> (handed w <$> l) = l.
Proof. induction l as [|p l IH]; cbn; [done|]. by f_equal. Qed.

(** On the in-memory file system, for a well-formed tree and a visitor
    that returns nil and leaves the file system as it is, [PostfixWalk]
    returns nil, leaves the file system as it is, and invokes the
    visitor on the root and on every directory reached from the root
    through directories that can be listed, and on nothing else.  A
    subdirectory is visited before the directory that lists it, and the
    root is visited last.  A directory whose listing fails is visited as
    if it had no entries.  Each visit is handed the result of a stat of
    the visited path; for a root that cannot be resolved that is the
    error of the stat. *)
Theorem PostfixWalk_observer_postorder (v : @WalkFunc fs) (w : fs) (root : string) :
  observes v → plain root →
  match lookup_path root w with
  | inl e =>
      ∃ tr, PostfixWalk 1 root v w = (Returned None, w, tr) ∧
            visits tr = [(root, (None, Some (sysError "stat" root e)))]
  | inr n =>
      wf n →
      ∀ fuel, height n < fuel →
      ∃ tr, PostfixWalk fuel root v w = (Returned None, w, tr) ∧
            visits tr = handed w <$> visited tr ∧
            last (visited tr) = Some root ∧
            (∀ p, p ∈ visited tr ↔
                  p = root ∨ ∃ t l es, reaches root n p (DirNode t l es)) ∧
            (∀ p t es k c,
               reaches root n p (DirNode t true es) → (k, c) ∈ es → is_dir c = true →
               ∃ l1 l2 l3, visited tr = l1 ++ filepath_Join p k :: l2 ++ p :: l3)
  end.
Proof.
  intros Hv Hplain. destruct (lookup_path root w) as [e|n] eqn:Hroot.
  { by apply walk_missing. }
  intros Hwf fuel Hfuel.
  destruct (walk_tree v Hv fuel w root n Hwf Hplain Hroot Hfuel) as (tr & Hrun & Hvis).
  exists tr. split; [done|].
  assert (visited tr = dirs_postorder root n) as Hvisited.
  { unfold visited. by rewrite Hvis, visited_handed. }
  rewrite Hvisited. split_and!.
  - done.
  - apply dirs_postorder_last.
  - intros p. split.
    + apply dirs_postorder_reached.
    + intros [->|(t & l & es & Hreach)].
      * apply dirs_postorder_root.
      * by eapply dirs_postorder_complete.
  - intros p t es k c. apply dirs_postorder_child_first.
Qed.

Lemma looks_observes : observes sample.looks.
Proof. intros name info err w. by exists []. Qed.

Lemma sample_wf : wf sample.site_dir.
Proof.
  assert (∀ l : list string, bool_decide (NoDup l) = true → NoDup l) as Hnd.
  { intros l. apply bool_decide_eq_true_1. }
  repeat first
    [ apply wf_file
    | apply wf_dir; [apply Hnd; vm_compute; reflexivity|]
    | apply Forall_nil_2
    | apply Forall_cons_2; [split; [split; [reflexivity|done]|]|] ].
Qed.

Lemma sample_plain : plain "site".
Proof.
  unfold plain. change (path_of "site") with ["site"].
  by intros [?|?%elem_of_nil]%elem_of_cons.
Qed.

Lemma PostfixWalk_observer_postorder_witness :
  ∃ tr,
    PostfixWalk 4 "site" sample.looks sample.world
      = (Returned None, sample.world, tr) ∧
    visits tr = handed sample.world <$> visited tr ∧
    last (visited tr) = Some "site" ∧
    (∀ p, p ∈ visited tr ↔
          p = "site" ∨ ∃ t l es, reaches "site" sample.site_dir p (DirNode t l es)) ∧
    (∀ p t es k c,
       reaches "site" sample.site_dir p (DirNode t true es) →
       (k, c) ∈ es → is_dir c = true →
       ∃ l1 l2 l3, visited tr = l1 ++ filepath_Join p k :: l2 ++ p :: l3).
Proof.
  pose proof (PostfixWalk_observer_postorder sample.looks sample.world "site"
                looks_observes sample_plain) as Hwalk.
  change (lookup_path "site" sample.world) with (@inr Errno node sample.site_dir) in Hwalk.
  apply Hwalk; [apply sample_wf|]. cbn. lia.
Defined.

End WalkClaims.

(** * Further properties of helpers/file.go *)

Section MoreHelpers.
Context {W : Type} `{OS W}.
Import helpers.

Lemma cr_to_lf_length (b : list byte) : length (cr_to_lf b) = length b.
Proof. unfold cr_to_lf. case_decide; [apply length_insert|done]. Qed.

Lemma closes_of_single (d d' : nat) (r : option Errno) :
  closes_of d [EvClose d' r] = if decide (d' = d) then 1 else 0.
Proof.
  unfold closes_of. cbn.
  destruct (Nat.eqb_spec d' d) as [->|Hne].
  - by rewrite !decide_True.
  - by rewrite !decide_False.
Qed.

(** [ReadFileMagic] always returns.  When the file cannot be opened the
    buffer is nil, the error is the error of the open, and nothing is
    closed.  When it can, the buffer has exactly four bytes whatever was
    read, the error is nil or the error of the read, and the descriptor
    that was opened is closed exactly once, and no other is. *)
Theorem ReadFileMagic_buffer_and_close (name : string) (w : W) :
  let '(out, _, tr) := ReadFileMagic name w in
  ∃ magic err,
    out = Returned (magic, err) ∧
    match sys_open name w with
    | (inl e, _) =>
        magic = [] ∧ err = Some (sysError "open" name e) ∧
        ∀ d, closes_of d tr = 0
    | (inr d, _) =>
        length magic = 4 ∧
        (err = None ∨ ∃ e, err = Some (sysError "read" name e)) ∧
        closes_of d tr = 1 ∧
        ∀ d', d' ≠ d → closes_of d' tr = 0
    end.
Proof.
  rewrite ReadFileMagic_run.
  destruct (sys_open name w) as [[e|d] w1].
  { eexists _, _. split_and!; [done..|]. intros d. reflexivity. }
  destruct (sys_read d 4 w1) as [rr w2], (sys_close d w2) as [cr w3].
  assert (∀ d', closes_of d' [EvOpen name (inr d); EvRead d 4 rr; EvClose d cr]
                = if decide (d = d') then 1 else 0) as Hcloses.
  { intros d'. change [EvOpen name (inr d); EvRead d 4 rr; EvClose d cr]
      with ([EvOpen name (inr d); EvRead d 4 rr] ++ [EvClose d cr]).
    rewrite closes_of_app, closes_of_single. reflexivity. }
  destruct rr as [e|got]; eexists _, _; (split; [reflexivity|]); split_and!.
  - done.
  - right. by eexists.
  - rewrite Hcloses. by rewrite decide_True.
  - intros d' Hd'. rewrite Hcloses. by rewrite decide_False.
  - rewrite cr_to_lf_length, length_app, length_replicate, length_take. lia.
  - by left.
  - rewrite Hcloses. by rewrite decide_True.
  - intros d' Hd'. rewrite Hcloses. by rewrite decide_False.
Qed.

(** [IsNotEmpty] by cases: it returns true exactly for a path error whose
    cause is the errno ENOTEMPTY, and it panics exactly for a path error
    whose cause is not an errno; for nil and for every other error it
    returns false. *)
Theorem IsNotEmpty_cases (err : option error) :
  (IsNotEmpty err = Returned true
   ↔ ∃ op path, err = Some (sysError op path ENOTEMPTY)) ∧
  ((∃ msg, IsNotEmpty err = Panicked msg)
   ↔ ∃ pe, err = Some (EPath pe) ∧ ∀ e, Err pe ≠ Some (EErrno e)) ∧
  IsNotEmpty err ≠ Exhausted.
Proof.
  split_and!.
  - split.
    + destruct err as [[| | | |[op path [[e| | | | | |]|]]| |]|]; cbn; try done.
      intros [= ->%N.eqb_eq]. by exists op, path.
    + by intros (op & path & ->).
  - split.
    + destruct err as [[| | | |[op path cause]| |]|]; cbn; intros [msg Hp]; try done.
      eexists. split; [done|]. intros e. cbn. intros ->. done.
    + intros ([op path cause] & -> & Hcause). cbn in *.
      destruct cause as [[e| | | | | |]|]; eauto. by destruct (Hcause e).
  - by destruct err as [[| | | |[op path [[e| | | | | |]|]]| |]|].
Qed.

(** Wrapping keeps what [os.IsNotExist] says of an error, unless the
    error is a link error or a syscall error: the wrapper is unwrapped
    one level only, so the cause of those is no longer looked at. *)
Theorem PathError_keeps_IsNotExist (e : error) (op name : string) (pe : pathError) :
  PathError (Some e) op name = Some pe →
  IsNotExist (Some (EPath pe)) =
    match e with
    | ELink _ _ _ _ | ESyscall _ _ => false
    | _ => IsNotExist (Some e)
    end.
Proof. destruct e; cbn; intros [= <-]; try done. Qed.

Lemma PathError_keeps_IsNotExist_witness :
  IsNotExist (Some (EPath (MkPathError "read" "/x" (Some (ESyscall "rmdir" (Some (EErrno ENOENT)))))))
    = false ∧
  IsNotExist (Some (ESyscall "rmdir" (Some (EErrno ENOENT)))) = true.
Proof.
  split; [|reflexivity].
  apply (PathError_keeps_IsNotExist (ESyscall "rmdir" (Some (EErrno ENOENT))) "stat" "/x").
  reflexivity.
Defined.
End MoreHelpers.

(** * Further properties of the walk and of pruning *)

Section MoreWalk.
Context {W : Type} `{OS W}.
Import helpers.




Lemma guarded_removals_none (tr : list Event) :
  Forall (λ ev, ∀ name r, ev ≠ EvRemove name r) tr → guarded_removals tr.
Proof.
  intros Hall before name r after ->.
  apply Forall_app in Hall as [_ Hall]. apply Forall_cons in Hall as [Hev _].
  by destruct (Hev name r).
Qed.

Lemma guarded_removals_app (t1 t2 : list Event) :
  guarded_removals t1 → guarded_removals t2 → guarded_removals (t1 ++ t2).
Proof.
  intros H1 H2 before name r after Heq.
  apply app_eq_inv in Heq as [(k & -> & Heq)|(k & -> & ->)].
  - destruct k as [|ev k]; cbn in Heq.
    + subst t2. destruct (H2 [] name r after) as (before' & info & Hb & _); [done|].
      by destruct before'.
    + simplify_eq. by eapply H1.
  - destruct (H2 k name r after) as (before' & info & -> & Hdir); [done|].
    exists (t1 ++ before'), info. by rewrite <- app_assoc.
Qed.
End MoreWalk.

Section MorePrune.
Context {W : Type} `{OS W}.
Import helpers.

Lemma walkDirs_guarded (walk : string → M W (option error)) (root : string) :
  (∀ dir w, guarded_removals (walk dir w).2) →
  ∀ files w, guarded_removals (walkDirs walk root files w).2.
Proof.
  intros Hwalk files. induction files as [|stat files IH]; intros w.
  { by apply guarded_removals_none. }
  rewrite walkDirs_cons. destruct (IsDir stat); [|apply IH].
  specialize (Hwalk (filepath_Join root (Name stat)) w).
  destruct (walk _ w) as [[[[err|]|msg|] w1] t1]; cbn in Hwalk |- *; try done.
  pose proof (IH w1) as IH1.
  destruct (walkDirs walk root files w1) as [[r2 w2] t2].
  by apply guarded_removals_app.
Qed.

Lemma guarded_removals_visit (root : string) (info : FileInfo) (r : option Errno) :
  IsDir info = true →
  guarded_removals
    [EvStat root (inr info); EvWalkFn root (Some info) None; EvRemove root r].
Proof.
  intros Hdir before name r' after Heq.
  destruct before as [|e1 [|e2 [|e3 before]]]; simplify_eq/=;
    try (by destruct before).
  by exists [], info.
Qed.

(** Pruning removes nothing but directories: in every pass, whatever the
    world answers, each removal is of a path whose stat, made just
    before, reported a directory. *)
Theorem RemoveEmptyDirectories_removes_directories_only
    (fuel : nat) (root : string) (w : W) :
  guarded_removals (RemoveEmptyDirectories fuel root w).2.
Proof.
  unfold RemoveEmptyDirectories. revert root w.
  induction fuel as [|fuel IH]; intros root w.
  { by apply guarded_removals_none. }
  rewrite PostfixWalk_S. destruct (sys_readdir root w) as [rd w1].
  assert (guarded_removals
            (match rd with
             | inr files =>
                 walkDirs (λ dir, PostfixWalk fuel dir RemoveEmptyDirectories_walkFn)
                   root files w1
             | inl _ => (Returned None, w1, [])
             end).2) as Hloop.
  { destruct rd as [e|files]; [by apply guarded_removals_none|].
    by apply walkDirs_guarded. }
  destruct (match rd with inr _ => _ | inl _ => _ end) as [[r w2] t2].
  cbn [snd] in Hloop.
  assert (Hrd : guarded_removals [EvReadDir root rd]).
  { apply guarded_removals_none. by repeat constructor. }
  destruct r as [[err|]|msg|]; cbn [snd];
    try (by apply (guarded_removals_app [_] _ Hrd)).
  destruct (sys_stat root w2) as [st w3]. rewrite walkFn_run.
  change (EvReadDir root rd :: t2 ++ ?rest) with ([EvReadDir root rd] ++ t2 ++ rest).
  destruct st as [e|info]; cbn [stat_result fst snd].
  - apply guarded_removals_app; [done|]. apply guarded_removals_app; [done|].
    apply guarded_removals_none. by repeat constructor.
  - destruct (IsDir info) eqn:Hdir.
    + destruct (sys_remove root w3) as [r w4]. cbn [snd].
      apply guarded_removals_app; [done|]. apply guarded_removals_app; [done|].
      by apply guarded_removals_visit.
    + cbn [snd]. apply guarded_removals_app; [done|].
      apply guarded_removals_app; [done|].
      apply guarded_removals_none. by repeat constructor.
Qed.

(** Pruning a root that does not exist is not an error: when the listing
    fails and the stat reports not-exist, the pass returns nil and
    attempts no removal. *)
Theorem RemoveEmptyDirectories_missing_root (fuel : nat) (root : string)
    (w w1 w2 : W) (e : Errno) :
  sys_readdir root w = (inl e, w1) →
  sys_stat root w1 = (inl ENOENT, w2) →
  RemoveEmptyDirectories (S fuel) root w
    = (Returned None, w2,
       [EvReadDir root (inl e); EvStat root (inl ENOENT);
        EvWalkFn root None (Some (sysError "stat" root ENOENT))]).
Proof.
  intros Hrd Hst. unfold RemoveEmptyDirectories.
  rewrite PostfixWalk_S, Hrd, Hst, (walkFn_run root (inl ENOENT)). reflexivity.
Qed.
End MorePrune.

Section MorePruneRuns.
Import helpers memfs.

Lemma RemoveEmptyDirectories_missing_root_witness :
  RemoveEmptyDirectories 1 "site/gone" sample.world
    = (Returned None, sample.world,
       [EvReadDir "site/gone" (inl ENOENT); EvStat "site/gone" (inl ENOENT);
        EvWalkFn "site/gone" None (Some (sysError "stat" "site/gone" ENOENT))]).
Proof.
  apply (RemoveEmptyDirectories_missing_root 0 "site/gone" sample.world sample.world);
    reflexivity.
Defined.
End MorePruneRuns.

(** * Pruning on the in-memory file system *)

Section Updates.
Import memfs walk_spec.

Lemma child_set_child_eq (k : string) (y : node) (es : list (string * node)) :
  child k (set_child k (Some y) es) = Some y.
Proof.
  induction es as [|[k' c] es IH]; cbn.
  - by rewrite decide_True.
  - destruct (decide (k' = k)) as [->|Hne]; cbn.
    + by rewrite decide_True.
    + by rewrite decide_False.
Qed.

Lemma set_child_set_child (k : string) (x : node) (y : option node)
    (es : list (string * node)) :
  set_child k y (set_child k (Some x) es) = set_child k y es.
Proof.
  induction es as [|[k' c] es IH]; cbn.
  - by rewrite decide_True.
  - destruct (decide (k' = k)) as [->|Hne]; cbn.
    + by rewrite decide_True.
    + rewrite decide_False by done. by rewrite IH.
Qed.

Lemma set_child_same (k : string) (c : node) (es : list (string * node)) :
  child k es = Some c → set_child k (Some c) es = es.
Proof.
  induction es as [|[k' c'] es IH]; cbn; [done|].
  destruct (decide (k' = k)) as [->|Hne]; [by intros [= ->]|].
  intros Hc. by rewrite IH.
Qed.

Lemma update_cons (c : string) (p : list string) (new : option node) t l es :
  update (c :: p) new (DirNode t l es) =
    match p with
    | [] => DirNode t l (set_child c new es)
    | _ :: _ =>
        match child c es with
        | Some n' => DirNode t l (set_child c (Some (update p new n')) es)
        | None => DirNode t l es
        end
    end.
Proof. by destruct p. Qed.

(** Looking up what was just put there. *)
Lemma resolve_update (p : list string) (x : node) (n m : node) :
  resolve p n = inr m → resolve p (update p (Some x) n) = inr x.
Proof.
  revert n. induction p as [|c p IH]; intros n Hres; [done|].
  destruct n as [|t l es]; [done|]. cbn in Hres.
  destruct (child c es) as [n'|] eqn:Hc; [|done].
  rewrite update_cons. destruct p as [|c' p].
  - cbn. by rewrite child_set_child_eq.
  - rewrite Hc. cbn [resolve]. rewrite child_set_child_eq. by apply IH.
Qed.

(** A second update at the same place overrides the first. *)
Lemma update_update (p : list string) (x : node) (y : option node) (n m : node) :
  p ≠ [] → resolve p n = inr m →
  update p y (update p (Some x) n) = update p y n.
Proof.
  revert n. induction p as [|c p IH]; intros n Hp Hres; [done|].
  destruct n as [|t l es]; [done|]. cbn in Hres.
  destruct (child c es) as [n'|] eqn:Hc; [|done].
  destruct p as [|c' p].
  - rewrite !update_cons. by rewrite set_child_set_child.
  - rewrite (update_cons c (c' :: p) (Some x)), (update_cons c (c' :: p) y), Hc.
    rewrite update_cons, child_set_child_eq, set_child_set_child.
    by rewrite (IH n').
Qed.

(** An update below [p] is an update of the node at [p]. *)
Lemma update_app (p q : list string) (y : option node) (n m : node) :
  q ≠ [] → resolve p n = inr m →
  update (p ++ q) y n = update p (Some (update q y m)) n.
Proof.
  intros Hq. revert n. induction p as [|c p IH]; intros n Hres.
  { cbn in *. by simplify_eq. }
  destruct n as [|t l es]; [done|]. cbn in Hres.
  destruct (child c es) as [n'|] eqn:Hc; [|done].
  cbn [app]. rewrite !update_cons, Hc.
  destruct (p ++ q) as [|c' pq] eqn:Hpq.
  { by destruct p, q. }
  rewrite (IH n') by done.
  destruct p as [|c'' p]; [|done].
  cbn in Hres. by simplify_eq.
Qed.

(** Putting back what is there changes nothing. *)
Lemma update_same (p : list string) (n m : node) :
  resolve p n = inr m → update p (Some m) n = n.
Proof.
  revert n. induction p as [|c p IH]; intros n Hres.
  { cbn in *. by simplify_eq. }
  destruct n as [|t l es]; [done|]. cbn in Hres.
  destruct (child c es) as [n'|] eqn:Hc; [|done].
  rewrite update_cons. destruct p as [|c' p].
  - cbn in Hres. simplify_eq. by rewrite set_child_same.
  - rewrite Hc, IH by done. by rewrite set_child_same.
Qed.
End Updates.

Section PruneRun.
Import memfs walk_spec prune_spec helpers.

Lemma prune_dir t (es : list (string * node)) :
  prune (DirNode t true es) =
    match prune_entries es with
    | [] => None
    | es' => Some (DirNode t true es')
    end.
Proof. reflexivity. Qed.

Lemma prune_entries_app (A B : list (string * node)) :
  prune_entries (A ++ B) = prune_entries A ++ prune_entries B.
Proof. apply bind_app. Qed.

Lemma prune_entries_keys (A : list (string * node)) (k : string) :
  k ∈ (prune_entries A).*1 → k ∈ A.*1.
Proof.
  induction A as [|[k' c] A IH]; [done|].
  change ((k', c) :: A) with ([(k', c)] ++ A).
  rewrite prune_entries_app, !fmap_app, !elem_of_app.
  intros [Hk|Hk]; [left|right; by apply IH].
  unfold prune_entries in Hk. cbn in Hk. rewrite app_nil_r in Hk.
  destruct (is_dir c); [destruct (prune c)|]; cbn in Hk |- *; try done.
  by apply elem_of_nil in Hk.
Qed.

Lemma child_middle (k : string) (c : node) (A B : list (string * node)) :
  k ∉ A.*1 → child k (A ++ (k, c) :: B) = Some c.
Proof.
  induction A as [|[k' c'] A IH]; cbn; intros Hk.
  - by rewrite decide_True.
  - apply not_elem_of_cons in Hk as [Hne Hk].
    rewrite decide_False by done. by apply IH.
Qed.

Lemma set_child_middle (k : string) (y : option node) (c : node)
    (A B : list (string * node)) :
  k ∉ A.*1 →
  set_child k y (A ++ (k, c) :: B)
    = A ++ match y with Some c' => [(k, c')] | None => [] end ++ B.
Proof.
  induction A as [|[k' c'] A IH]; cbn; intros Hk.
  - rewrite decide_True by done. by destruct y.
  - apply not_elem_of_cons in Hk as [Hne Hk].
    rewrite decide_False by done. by rewrite IH.
Qed.

Lemma m_readdir_world (root : string) (w : fs) : (m_readdir root w).2 = w.
Proof.
  unfold m_readdir. destruct (lookup_path root w) as [|[|? [] ?]]; done.
Qed.

(** The end of a level of a pruning pass: the stat of the root and, for
    a directory, the attempt to remove it, which succeeds exactly when
    the directory is empty by then. *)
Lemma prune_level (fuel : nat) (root : string) (w : fs)
    (rd : Errno + list FileInfo) (T2 : node) (t2 : list Event) (N' : node) :
  m_readdir root w = (rd, w) →
  match rd with
  | inr files =>
      walkDirs (λ dir, PostfixWalk fuel dir RemoveEmptyDirectories_walkFn) root files w
  | inl _ => (Returned None, w, [])
  end = (Returned None, mkFs T2 (fds w), t2) →
  resolve (path_of root) T2 = inr N' →
  path_of root ≠ [] →
  ∃ tr, RemoveEmptyDirectories (S fuel) root w
        = (Returned None,
           mkFs match N' with
                | DirNode _ _ [] => update (path_of root) None T2
                | _ => T2
                end (fds w), tr).
Proof.
  intros Hrd Hloop Hres Hp. unfold RemoveEmptyDirectories.
  rewrite PostfixWalk_S. cbn [sys_readdir sys_stat memfs_OS]. rewrite Hrd, Hloop.
  unfold m_stat at 1, lookup_path. cbn [tree]. rewrite Hres.
  rewrite (walkFn_run root (inr _)). rewrite info_of_IsDir.
  destruct N' as [t data|t l es]; cbn [is_dir]; [by eexists|].
  cbn [sys_remove memfs_OS]. unfold m_remove, lookup_path. cbn [tree fds].
  rewrite Hres. destruct (path_of root) as [|c p] eqn:Hpath; [done|].
  destruct es as [|e es]; by eexists.
Qed.

(** The loop of a level: the subdirectories are pruned one after the
    other, each in the tree that the ones before it left. *)
Lemma prune_loop (fuel : nat) (root : string) (T0 : node) (F : list (option (string * nat)))
    (m : node) t (es : list (string * node)) :
  prunes fuel →
  resolve (path_of root) T0 = inr m →
  plain root →
  path_of root ≠ [] →
  wf (DirNode t true es) →
  height (DirNode t true es) < S fuel →
  ∀ B A, es = A ++ B →
    ∃ tr,
      walkDirs (λ dir, PostfixWalk fuel dir RemoveEmptyDirectories_walkFn) root
        ((λ e, info_of e.1 e.2) <$> B)
        (mkFs (update (path_of root) (Some (DirNode t true (prune_entries A ++ B))) T0) F)
      = (Returned None,
         mkFs (update (path_of root)
                 (Some (DirNode t true (prune_entries (A ++ B)))) T0) F, tr).
Proof.
  intros IH Hroot Hplain Hp Hwf Hheight.
  inversion Hwf as [|? ? ? Hnd Hall]; subst.
  induction B as [|[k c] B IHB]; intros A Hes.
  { exists []. cbn. by rewrite !app_nil_r. }
  assert (Hin : (k, c) ∈ es).
  { rewrite Hes. apply elem_of_app. right. by left. }
  rewrite Forall_forall in Hall. destruct (Hall _ Hin) as [Hk Hwfc].
  cbn [fst snd] in Hk, Hwfc.
  assert (Hfresh : k ∉ (prune_entries A).*1).
  { intros Hin'. apply prune_entries_keys in Hin'.
    rewrite Hes, fmap_app in Hnd. apply NoDup_app in Hnd as (_ & Hdisj & _).
    apply (Hdisj k Hin'). cbn. by left. }
  destruct (IHB (A ++ [(k, c)])) as (tr2 & Hrest).
  { by rewrite <- app_assoc. }
  rewrite <- (app_assoc A [(k, c)] B) in Hrest. cbn [app] in Hrest.
  rewrite fmap_cons, walkDirs_cons, info_of_IsDir, info_of_Name. cbn [fst snd].
  rewrite prune_entries_app in Hrest.
  destruct (is_dir c) eqn:Hdir.
  - set (Ni := DirNode t true (prune_entries A ++ (k, c) :: B)).
    set (wi := mkFs (update (path_of root) (Some Ni) T0) F).
    assert (Hresi : resolve (path_of root) (tree wi) = inr Ni).
    { by eapply resolve_update. }
    destruct (IH (filepath_Join root k) c wi) as (tr1 & Hcall).
    + unfold lookup_path. rewrite path_of_join, resolve_app, Hresi by done.
      cbn. by rewrite child_middle.
    + done.
    + by apply plain_join.
    + rewrite path_of_join by done. by destruct (path_of root).
    + pose proof (height_child k c t true es Hin). lia.
    + unfold RemoveEmptyDirectories in Hcall. rewrite Hcall.
      rewrite path_of_join by done.
      rewrite (update_app _ [k] _ _ Ni) by done.
      subst wi. cbn [tree fds].
      rewrite (update_update _ _ _ _ m) by done.
      unfold Ni at 1. rewrite update_cons, set_child_middle by done.
      unfold prune_entries at 3 in Hrest. cbn in Hrest.
      rewrite Hdir, app_nil_r in Hrest.
      rewrite <- app_assoc in Hrest.
      destruct (prune c) as [c'|]; cbn [app] in Hrest |- *;
        rewrite Hrest; by eexists.
  - unfold prune_entries at 3 in Hrest. cbn in Hrest.
    rewrite Hdir, app_nil_r in Hrest.
    rewrite <- app_assoc in Hrest. cbn [app] in Hrest.
    rewrite Hrest. by eexists.
Qed.

Lemma prune_tree (fuel : nat) : prunes fuel.
Proof.
  induction fuel as [|fuel IH]; intros root n w Hroot Hwf Hplain Hp Hheight; [lia|].
  unfold lookup_path in Hroot.
  destruct n as [t data|t [] es].
  - destruct (prune_level fuel root w (inl ENOTDIR) (tree w) [] (FileNode t data))
      as (tr & ->); try done.
    { unfold m_readdir, lookup_path. by rewrite Hroot. }
    { by destruct w. }
    exists tr. cbn [prune]. by rewrite (update_same _ _ _ Hroot).
  - destruct (prune_loop fuel root (tree w) (fds w) _ t es IH Hroot Hplain Hp Hwf
                Hheight es [])
      as (t2 & Hloop); [done|].
    cbn [app prune_entries] in Hloop.
    change (prune_entries [] ++ es) with es in Hloop.
    rewrite (update_same _ _ _ Hroot) in Hloop.
    destruct (prune_level fuel root w (inr ((λ e, info_of e.1 e.2) <$> es))
                (update (path_of root) (Some (DirNode t true (prune_entries es))) (tree w))
                t2 (DirNode t true (prune_entries es))) as (tr & ->); try done.
    { unfold m_readdir, lookup_path. by rewrite Hroot. }
    { rewrite <- Hloop. by destruct w. }
    { by eapply resolve_update. }
    exists tr. rewrite prune_dir.
    destruct (prune_entries es); [|done].
    by rewrite (update_update _ _ _ _ _ Hp Hroot).
  - destruct (prune_level fuel root w (inl EACCES) (tree w) [] (DirNode t false es))
      as (tr & ->); try done.
    { unfold m_readdir, lookup_path. by rewrite Hroot. }
    { by destruct w. }
    exists tr. cbn [prune]. destruct es; [done|].
    by rewrite (update_same _ _ _ Hroot).
Qed.
End PruneRun.

Section PruneMeaning.
Import memfs walk_spec prune_spec helpers.

Lemma child_Some_elem (k : string) (c : node) (es : list (string * node)) :
  child k es = Some c → (k, c) ∈ es.
Proof.
  induction es as [|[k' c'] es IH]; cbn; [done|].
  destruct (decide (k' = k)) as [->|Hne].
  - intros [= ->]. by left.
  - intros Hc. right. by apply IH.
Qed.

Lemma wf_child (k : string) (c : node) t l (es : list (string * node)) :
  wf (DirNode t l es) → (k, c) ∈ es → valid_name k ∧ wf c.
Proof.
  inversion 1 as [|? ? ? Hnd Hall]; subst. rewrite Forall_forall in Hall.
  intros Hin. apply (Hall _ Hin).
Qed.

(** In a well-formed tree no path that resolves goes up. *)
Lemma wf_resolve_plain (root : string) (n m : node) :
  wf n → resolve (path_of root) n = inr m → plain root.
Proof.
  unfold plain. generalize (path_of root). intros p. revert n.
  induction p as [|c p IH]; intros n Hwf Hres; [apply not_elem_of_nil|].
  destruct n as [|t l es]; [done|]. cbn in Hres.
  destruct (child c es) as [n'|] eqn:Hc; [|done].
  destruct (wf_child c n' t l es Hwf) as [[_ Hc'] Hwf']; [by apply child_Some_elem|].
  apply not_elem_of_cons. split; [by intros <-|]. by eapply IH.
Qed.

Lemma wf_resolve (p : list string) (n m : node) :
  wf n → resolve p n = inr m → wf m.
Proof.
  revert n. induction p as [|c p IH]; intros n Hwf Hres.
  { cbn in Hres. by simplify_eq. }
  destruct n as [|t l es]; [done|]. cbn in Hres.
  destruct (child c es) as [n'|] eqn:Hc; [|done].
  apply (IH n'); [|done]. by eapply wf_child, child_Some_elem.
Qed.

Lemma child_set_child_None (k : string) (es : list (string * node)) :
  NoDup es.*1 → child k (set_child k None es) = None.
Proof.
  induction es as [|[k' c] es IH]; cbn; [done|]. intros Hnd.
  apply NoDup_cons in Hnd as [Hk' Hnd].
  destruct (decide (k' = k)) as [->|Hne]; cbn.
  - destruct (child k es) as [c'|] eqn:Hc; [|done].
    destruct Hk'. apply (list_elem_of_fmap_2 fst _ (k, c')). by apply child_Some_elem.
  - rewrite decide_False by done. by apply IH.
Qed.

(** What was removed is not found any more. *)
Lemma resolve_removed (p : list string) (n m : node) :
  wf n → p ≠ [] → resolve p n = inr m →
  resolve p (update p None n) = inl ENOENT.
Proof.
  revert n. induction p as [|c p IH]; intros n Hwf Hp Hres; [done|].
  destruct n as [|t l es]; [done|]. cbn in Hres.
  destruct (child c es) as [n'|] eqn:Hc; [|done].
  rewrite update_cons. destruct p as [|c' p].
  - cbn. rewrite child_set_child_None; [done|]. by inversion Hwf.
  - rewrite Hc. cbn [resolve]. rewrite child_set_child_eq.
    apply IH; [|done|done]. by eapply wf_child, child_Some_elem.
Qed.

Lemma child_prune_entries (k : string) (c : node) (es : list (string * node)) :
  NoDup es.*1 → (k, c) ∈ es →
  child k (prune_entries es) = if is_dir c then prune c else Some c.
Proof.
  intros Hnd Hin. apply list_elem_of_split in Hin as (A & B & ->).
  rewrite fmap_app in Hnd. apply NoDup_app in Hnd as (_ & Hdisj & HndB).
  cbn in HndB. apply NoDup_cons in HndB as [HkB _].
  assert (k ∉ A.*1) as HkA.
  { intros Hk. apply (Hdisj k Hk). by left. }
  assert (k ∉ (prune_entries A).*1) as HkA'.
  { intros Hk. by apply HkA, prune_entries_keys. }
  assert (child k (prune_entries B) = None) as HB.
  { destruct (child k (prune_entries B)) as [c'|] eqn:Hc; [|done].
    destruct HkB. apply prune_entries_keys.
    apply (list_elem_of_fmap_2 fst _ (k, c')). by apply child_Some_elem. }
  change ((k, c) :: B) with ([(k, c)] ++ B).
  rewrite !prune_entries_app. unfold prune_entries at 2. cbn. rewrite app_nil_r.
  assert (∀ X Y, k ∉ X.*1 → child k (X ++ Y) = child k Y) as Hskip.
  { intros X Y. induction X as [|[k' c'] X IHX]; cbn; [done|]. intros Hk.
    apply not_elem_of_cons in Hk as [Hne Hk].
    rewrite decide_False by done. by apply IHX. }
  rewrite Hskip by done.
  destruct (is_dir c); [destruct (prune c) as [c'|]|]; cbn;
    rewrite ?decide_True by done; done.
Qed.

(** Along a path through directories that can be listed, pruning turns
    each node into its pruned form, or into nothing. *)
Lemma prune_reaches (root : string) (n : node) (p : string) (m : node) :
  reaches root n p m → wf n → plain root →
  ∃ q, path_of p = path_of root ++ q ∧
       (∀ n', prune n = Some n' →
          resolve q n' = match prune m with Some m' => inr m' | None => inl ENOENT end) ∧
       (prune n = None → prune m = None).
Proof.
  induction 1 as [root n|root t es k c p m Hin Hreach IH]; intros Hwf Hplain.
  { exists []. rewrite app_nil_r. split_and!; [done| |done].
    intros n' ->. done. }
  destruct (wf_child k c t true es Hwf Hin) as [Hk Hwfc].
  destruct (IH Hwfc) as (q & Hq & Hsome & Hnone); [by apply plain_join|].
  exists (k :: q). rewrite Hq, path_of_join by done. rewrite <- app_assoc.
  assert (Hnd : NoDup es.*1) by by inversion Hwf.
  pose proof (child_prune_entries k c es Hnd Hin) as Hchild.
  rewrite prune_dir. split_and!; [done| |].
  - intros n' Hn'. destruct (prune_entries es) as [|e es'] eqn:Hes; [done|].
    simplify_eq. cbn [resolve]. rewrite Hchild.
    destruct (is_dir c) eqn:Hdir.
    + destruct (prune c) as [c'|]; [by apply Hsome|]. by rewrite Hnone.
    + apply Hsome. by destruct c.
  - intros Hn. destruct (prune_entries es) as [|e es'] eqn:Hes; [|done].
    cbn in Hchild. destruct (is_dir c); [|done]. by apply Hnone.
Qed.

Lemma hollow_dir t (es : list (string * node)) :
  hollow (DirNode t true es) = forallb (λ e, hollow e.2) es.
Proof. reflexivity. Qed.

(** The directories that pruning removes are the hollow ones. *)
Lemma prune_None_hollow (n : node) : prune n = None ↔ hollow n = true.
Proof.
  induction n as [t data|t l es IH] using node_induction; [done|].
  destruct l; [|by destruct es].
  rewrite prune_dir, hollow_dir.
  assert (prune_entries es = [] ↔ forallb (λ e, hollow e.2) es = true) as <-.
  { induction es as [|[k c] es IHes]; [done|].
    apply Forall_cons in IH as [IHc IH]. cbn [snd] in IHc.
    change ((k, c) :: es) with ([(k, c)] ++ es).
    rewrite prune_entries_app. cbn [forallb app snd].
    rewrite andb_true_iff, <- (IHes IH), <- IHc.
    unfold prune_entries at 1. cbn. rewrite app_nil_r.
    destruct c as [|t' l' es']; cbn [is_dir].
    - split; [done|]. by intros [? _].
    - destruct (prune (DirNode t' l' es')); cbn; split; try done.
      + by intros [? _].
      + by intros [_ ?]. }
  by destruct (prune_entries es).
Qed.
End PruneMeaning.

Section PruneClaims.
Import memfs walk_spec prune_spec helpers.

(** What is found after pruning at a path that was reached from the
    root. *)
Lemma pruned_at (T : node) (root p : string) (n m : node) :
  wf T → resolve (path_of root) T = inr n → path_of root ≠ [] →
  reaches root n p m →
  resolve (path_of p) (update (path_of root) (prune n) T)
    = match prune m with Some m' => inr m' | None => inl ENOENT end.
Proof.
  intros HwfT Hroot Hp Hreach.
  assert (Hwf : wf n) by by eapply wf_resolve.
  assert (Hplain : plain root) by exact (wf_resolve_plain root T n HwfT Hroot).
  destruct (prune_reaches root n p m Hreach Hwf Hplain) as (q & Hq & Hsome & Hnone).
  rewrite Hq, resolve_app.
  destruct (prune n) as [n'|] eqn:Hn.
  - rewrite (resolve_update _ _ _ _ Hroot). by apply Hsome.
  - rewrite (resolve_removed _ _ _ HwfT Hp Hroot). by rewrite Hnone.
Qed.

(** On a well-formed tree, pruning below a path that is not the top of
    the tree returns nil for every tree it has fuel for, leaves the open
    descriptors alone, and leaves behind, for every node that is reached
    from the root through directories that can be listed, its pruned
    form, or nothing when pruning removes it. *)
Theorem RemoveEmptyDirectories_prunes_tree (w : fs) (root : string) (n : node) :
  wf (tree w) → lookup_path root w = inr n → path_of root ≠ [] →
  ∀ fuel, height n < fuel →
  ∃ w' tr,
    RemoveEmptyDirectories fuel root w = (Returned None, w', tr) ∧
    fds w' = fds w ∧
    ∀ p m, reaches root n p m →
      lookup_path p w' = match prune m with Some m' => inr m' | None => inl ENOENT end.
Proof.
  intros HwfT Hroot Hp fuel Hfuel.
  assert (Hwf : wf n) by by eapply wf_resolve.
  assert (Hplain : plain root) by exact (wf_resolve_plain root (tree w) n HwfT Hroot).
  destruct (prune_tree fuel root n w Hroot Hwf Hplain Hp Hfuel) as (tr & Hrun).
  eexists _, tr. split; [exact Hrun|]. split; [done|].
  intros p m Hreach. by apply pruned_at.
Qed.

Lemma sample_tree_wf : wf sample.site_tree.
Proof.
  apply wf_dir; [repeat constructor; by intros ?%elem_of_nil|].
  apply Forall_cons_2; [split; [by split|apply sample_wf]|apply Forall_nil_2].
Qed.

Lemma RemoveEmptyDirectories_prunes_tree_witness :
  ∃ w' tr,
    RemoveEmptyDirectories 4 "site" sample.world = (Returned None, w', tr) ∧
    fds w' = fds sample.world ∧
    ∀ p m, reaches "site" sample.site_dir p m →
      lookup_path p w' = match prune m with Some m' => inr m' | None => inl ENOENT end.
Proof.
  apply (RemoveEmptyDirectories_prunes_tree sample.world "site" sample.site_dir).
  - apply sample_tree_wf.
  - reflexivity.
  - discriminate.
  - cbn. lia.
Defined.

(** After the pass, a node that was reached from the root is gone
    exactly when it was a hollow directory: no file is removed, and no
    directory that still holds something. *)
Theorem RemoveEmptyDirectories_removes_hollow (w : fs) (root : string) (n : node) :
  wf (tree w) → lookup_path root w = inr n → path_of root ≠ [] →
  ∀ fuel, height n < fuel →
  ∃ w' tr,
    RemoveEmptyDirectories fuel root w = (Returned None, w', tr) ∧
    ∀ p m, reaches root n p m →
      (lookup_path p w' = inl ENOENT ↔ hollow m = true) ∧
      (∀ t data, m = FileNode t data → lookup_path p w' = inr m).
Proof.
  intros HwfT Hroot Hp fuel Hfuel.
  assert (Hwf : wf n) by by eapply wf_resolve.
  assert (Hplain : plain root) by exact (wf_resolve_plain root (tree w) n HwfT Hroot).
  destruct (prune_tree fuel root n w Hroot Hwf Hplain Hp Hfuel) as (tr & Hrun).
  eexists _, tr. split; [exact Hrun|]. intros p m Hreach.
  unfold lookup_path. cbn [tree].
  rewrite (pruned_at _ root p n m HwfT Hroot Hp Hreach), <- prune_None_hollow. split.
  - by destruct (prune m).
  - by intros t data ->.
Qed.

Lemma RemoveEmptyDirectories_removes_hollow_witness :
  ∃ w' tr,
    RemoveEmptyDirectories 4 "site" sample.world = (Returned None, w', tr) ∧
    ∀ p m, reaches "site" sample.site_dir p m →
      (lookup_path p w' = inl ENOENT ↔ hollow m = true) ∧
      (∀ t data, m = FileNode t data → lookup_path p w' = inr m).
Proof.
  apply (RemoveEmptyDirectories_removes_hollow sample.world "site" sample.site_dir).
  - apply sample_tree_wf.
  - reflexivity.
  - discriminate.
  - cbn. lia.
Defined.

(** The run on the sample site: the empty directories [site/b/c] and
    [site/e] go, [site/b] stays because of its file. *)
Example RemoveEmptyDirectories_sample :
  (RemoveEmptyDirectories 4 "site" sample.world).1 =
    (Returned None,
     mkFs (DirNode 0 true
             [("site", DirNode 1 true
                 [("a.md", FileNode 2 [x2d; x2d; x2d; x0d; x0a; x41]);
                  ("ab", FileNode 3 [x61; x62]);
                  ("ab00", FileNode 4 [x61; x62; x00; x00]);
                  ("b", DirNode 5 true [("d.txt", FileNode 7 [x41; x42])])])]) []).
Proof. vm_compute. reflexivity. Qed.
End PruneClaims.

Section PruneTwice.
Import memfs walk_spec prune_spec helpers.

Lemma elem_prune_entries (k : string) (c' : node) (es : list (string * node)) :
  (k, c') ∈ prune_entries es →
  ∃ c, (k, c) ∈ es ∧
       (is_dir c = false ∧ c' = c ∨ is_dir c = true ∧ prune c = Some c').
Proof.
  unfold prune_entries. rewrite list_elem_of_bind. intros ([k0 c] & Hin & Hes).
  cbn [fst snd] in Hin. destruct (is_dir c) eqn:Hdir.
  - destruct (prune c) as [c0|] eqn:Hc; [|by apply elem_of_nil in Hin].
    apply list_elem_of_singleton in Hin. injection Hin as -> ->. exists c. auto.
  - apply list_elem_of_singleton in Hin. injection Hin as -> ->. exists c. auto.
Qed.

Lemma prune_entries_sublist (es : list (string * node)) :
  (prune_entries es).*1 `sublist_of` es.*1.
Proof.
  induction es as [|[k c] es IH]; [done|].
  change ((k, c) :: es) with ([(k, c)] ++ es).
  rewrite prune_entries_app, !fmap_app. apply sublist_app; [|done].
  unfold prune_entries. cbn. rewrite app_nil_r.
  destruct (is_dir c); [destruct (prune c)|]; cbn; try done.
  by apply sublist_nil_l.
Qed.

Lemma wf_entries t l (es : list (string * node)) :
  NoDup es.*1 → (∀ k c, (k, c) ∈ es → valid_name k ∧ wf c) → wf (DirNode t l es).
Proof.
  intros Hnd Hall. apply wf_dir; [done|]. apply Forall_forall.
  intros [k c] Hin. by apply Hall.
Qed.

Lemma prune_is_dir (n n' : node) : prune n = Some n' → is_dir n' = is_dir n.
Proof.
  destruct n as [|t [] es].
  - by intros [= <-].
  - rewrite prune_dir. destruct (prune_entries es); [done|]. by intros [= <-].
  - destruct es; [done|]. by intros [= <-].
Qed.

(** Pruning keeps a tree well formed and makes it no higher. *)
Lemma prune_wf_height (n : node) :
  ∀ n', wf n → prune n = Some n' → wf n' ∧ height n' ≤ height n.
Proof.
  induction n as [t data|t l es IH] using node_induction; intros n' Hwf Hn.
  { cbn in Hn. by simplify_eq. }
  destruct l; [|destruct es; cbn in Hn; by simplify_eq].
  rewrite prune_dir in Hn.
  destruct (prune_entries es) as [|e es'] eqn:Hes; [done|]. simplify_eq.
  rewrite <- Hes. rewrite Forall_forall in IH.
  assert (∀ k c', (k, c') ∈ prune_entries es →
            valid_name k ∧ wf c' ∧ height c' < height (DirNode t true es)) as Hall.
  { intros k c' Hin.
    apply elem_prune_entries in Hin as (c & Hin & Hc).
    destruct (wf_child k c t true es Hwf Hin) as [Hk Hwfc].
    pose proof (height_child k c t true es Hin) as Hh.
    destruct Hc as [[_ ->]|[_ Hc]]; [done|].
    destruct (IH _ Hin c' Hwfc Hc) as [Hwfc' Hh']. cbn [snd] in Hh'.
    split_and!; [done|done|lia]. }
  split.
  - apply wf_entries.
    + eapply sublist_NoDup; [|apply prune_entries_sublist]. by inversion Hwf.
    + intros k c' Hin. destruct (Hall k c' Hin) as (? & ? & _). done.
  - assert (∀ (X : list (string * node)) h,
              0 < h → (∀ k c', (k, c') ∈ X → height c' < h) →
              height (DirNode t true X) ≤ h) as Hbound.
    { intros X h Hh HX. cbn. induction X as [|[k c'] X IHX]; [lia|].
      assert (height c' < h) by (apply (HX k); by left).
      assert (∀ k c', (k, c') ∈ X → height c' < h) as HX'.
      { intros k0 c0 Hin0. apply (HX k0). by right. }
      specialize (IHX HX'). cbn in IHX |- *. lia. }
    apply Hbound; [cbn; lia|]. intros k c' Hin. by destruct (Hall k c' Hin) as (_ & _ & ?).
Qed.

Lemma prune_entries_fixed (es : list (string * node)) :
  Forall (λ e, ∀ c', prune e.2 = Some c' → prune c' = Some c') es →
  prune_entries (prune_entries es) = prune_entries es.
Proof.
  induction es as [|[k c] es IHes]; [done|]. intros Hall.
  apply Forall_cons in Hall as [Hc Hall]. cbn [snd] in Hc.
  change ((k, c) :: es) with ([(k, c)] ++ es).
  rewrite !prune_entries_app, IHes by done. f_equal.
  unfold prune_entries at 2 3. cbn. rewrite app_nil_r.
  destruct (is_dir c) eqn:Hdir.
  - destruct (prune c) as [c'|] eqn:Hpc; [|done].
    unfold prune_entries. cbn. rewrite (prune_is_dir c c' Hpc), Hdir.
    by rewrite (Hc c' eq_refl).
  - unfold prune_entries. cbn. by rewrite Hdir.
Qed.

(** Pruning a pruned tree changes nothing. *)
Lemma prune_prune (n : node) : ∀ n', prune n = Some n' → prune n' = Some n'.
Proof.
  induction n as [t data|t l es IH] using node_induction; intros n' Hn.
  { cbn in Hn. by simplify_eq. }
  destruct l; [|destruct es; cbn in Hn; by simplify_eq].
  rewrite prune_dir in Hn.
  destruct (prune_entries es) as [|e es'] eqn:Hes; [done|]. simplify_eq.
  rewrite <- Hes, prune_dir, prune_entries_fixed by done. by rewrite Hes.
Qed.

(** A second pruning pass finds nothing to do: it returns nil and leaves
    exactly what the first pass left. *)
Theorem RemoveEmptyDirectories_idempotent (w : fs) (root : string) (n : node) :
  wf (tree w) → lookup_path root w = inr n → path_of root ≠ [] →
  ∀ fuel, height n < fuel →
  ∃ w1 tr1 tr2,
    RemoveEmptyDirectories fuel root w = (Returned None, w1, tr1) ∧
    RemoveEmptyDirectories fuel root w1 = (Returned None, w1, tr2).
Proof.
  intros HwfT Hroot Hp fuel Hfuel.
  assert (Hwf : wf n) by by eapply wf_resolve.
  assert (Hplain : plain root) by exact (wf_resolve_plain root (tree w) n HwfT Hroot).
  destruct (prune_tree fuel root n w Hroot Hwf Hplain Hp Hfuel) as (tr1 & Hrun).
  exists (mkFs (update (path_of root) (prune n) (tree w)) (fds w)), tr1.
  destruct (prune n) as [n'|] eqn:Hn.
  - destruct (prune_wf_height n n' Hwf Hn) as [Hwf' Hh'].
    destruct (prune_tree fuel root n'
                (mkFs (update (path_of root) (Some n') (tree w)) (fds w)))
      as (tr2 & Hrun2); [|done|done|done|lia|].
    { unfold lookup_path in *. cbn [tree]. by eapply resolve_update. }
    exists tr2. split; [exact Hrun|]. rewrite Hrun2. cbn [tree fds].
    unfold lookup_path in Hroot.
    by rewrite (prune_prune n n' Hn), (update_update _ _ _ _ _ Hp Hroot).
  - destruct fuel as [|fuel]; [lia|].
    eexists. split; [exact Hrun|].
    set (w1 := mkFs (update (path_of root) None (tree w)) (fds w)).
    assert (sys_readdir root w1 = (inl ENOENT, w1)) as Hrd.
    { cbn [sys_readdir memfs_OS]. unfold m_readdir, lookup_path in *.
      subst w1. cbn [tree]. by rewrite (resolve_removed _ _ _ HwfT Hp Hroot). }
    assert (sys_stat root w1 = (inl ENOENT, w1)) as Hst.
    { cbn [sys_stat memfs_OS]. unfold m_stat, lookup_path in *.
      subst w1. cbn [tree]. by rewrite (resolve_removed _ _ _ HwfT Hp Hroot). }
    unfold RemoveEmptyDirectories.
    rewrite PostfixWalk_S, Hrd, Hst, (walkFn_run root (inl ENOENT)). reflexivity.
Qed.

Lemma RemoveEmptyDirectories_idempotent_witness :
  ∃ w1 tr1 tr2,
    RemoveEmptyDirectories 4 "site" sample.world = (Returned None, w1, tr1) ∧
    RemoveEmptyDirectories 4 "site" w1 = (Returned None, w1, tr2).
Proof.
  apply (RemoveEmptyDirectories_idempotent sample.world "site" sample.site_dir).
  - apply sample_tree_wf.
  - reflexivity.
  - discriminate.
  - cbn. lia.
Defined.
End PruneTwice.

(** * Copying and writing files *)

Section CopyRuns.
Context {W : Type} `{OS W} `{OSMore W}.
Variable Dir : string → string.

(** [CopyFileContents] in terms of the calls it makes. *)
Lemma CopyFileContents_run (dst src : string) (perm : N) (w : W) :
  more.CopyFileContents Dir dst src perm w =
    let mk := EvCall "os.MkdirAll" (Dir dst) in
    match sys_mkdirall (Dir dst) w with
    | (Some err, w1) => (Returned (Some err), w1, [mk])
    | (None, w1) =>
        match sys_open src w1 with
        | (inl e, w2) =>
            (Returned (Some (sysError "open" src e)), w2, [mk; EvOpen src (inl e)])
        | (inr din, w2) =>
            match sys_creat dst w2 with
            | (inl e, w3) =>
                let '(ci, w4) := sys_close din w3 in
                (Returned (Some (sysError "open" dst e)), w4,
                 [mk; EvOpen src (inr din); EvCreate dst (inl e); EvClose din ci])
            | (inr dout, w3) =>
                match sys_copy dout din w3 with
                | (Some err, w4) =>
                    let '(r, w5) := sys_remove dst w4 in
                    let '(ci, w6) := sys_close din w5 in
                    (Returned (Some err), w6,
                     [mk; EvOpen src (inr din); EvCreate dst (inr dout);
                      EvCall "io.Copy" dst; EvRemove dst r; EvClose din ci])
                | (None, w4) =>
                    let '(co, w5) := sys_close dout w4 in
                    let '(ci, w6) := sys_close din w5 in
                    (Returned (sysError "close" dst <$> co), w6,
                     [mk; EvOpen src (inr din); EvCreate dst (inr dout);
                      EvCall "io.Copy" dst; EvClose dout co; EvClose din ci])
                end
            end
        end
    end.
Proof.
  unfold more.CopyFileContents. rewrite bind_run. unfold sys at 1.
  destruct (sys_mkdirall (Dir dst) w) as [[err|] w1]; [done|].
  cbv beta iota zeta. rewrite bind_run, os_Open_run.
  destruct (sys_open src w1) as [[e|din] w2]; [done|].
  cbv beta iota zeta. rewrite bind_run, os_Create_run.
  destruct (sys_creat dst w2) as [[e|dout] w3]; cbv beta iota zeta.
  { rewrite bind_run, File_Close_run. cbn [fd fname].
    by destruct (sys_close din w3) as [ci w4]. }
  rewrite bind_run. unfold sys at 1. cbn [fd fname].
  destruct (sys_copy dout din w3) as [[err|] w4]; cbv beta iota zeta.
  - rewrite bind_run, os_Remove_run.
    destruct (sys_remove dst w4) as [r w5]. cbv beta iota zeta.
    rewrite bind_run, File_Close_run. cbn [fd fname].
    by destruct (sys_close din w5) as [ci w6].
  - rewrite bind_run, File_Close_run. cbn [fd fname].
    destruct (sys_close dout w4) as [co w5]. cbv beta iota zeta.
    rewrite bind_run, File_Close_run. cbn [fd fname].
    by destruct (sys_close din w5) as [ci w6].
Qed.

(** [CopyFileContents] always returns, and whenever it opened the source
    the last thing it does is to close the descriptor it got, on every
    path out of the function. *)
Theorem CopyFileContents_closes_source_last (dst src : string) (perm : N) (w : W) :
  let '(out, _, tr) := more.CopyFileContents Dir dst src perm w in
  (∃ err, out = Returned err) ∧
  ∀ d, EvOpen src (inr d) ∈ tr → ∃ c, last tr = Some (EvClose d c).
Proof.
  rewrite CopyFileContents_run. cbv zeta.
  destruct (sys_mkdirall (Dir dst) w) as [[err|] w1].
  { split; [by eexists|]. intros d Hd.
    apply list_elem_of_singleton in Hd. done. }
  destruct (sys_open src w1) as [[e|din] w2].
  { split; [by eexists|]. intros d Hd.
    rewrite !elem_of_cons in Hd. destruct Hd as [|[|Hd]]; [done| |].
    - simplify_eq. - by apply elem_of_nil in Hd. }
  destruct (sys_creat dst w2) as [[e|dout] w3].
  { destruct (sys_close din w3) as [ci w4]. split; [by eexists|].
    intros d Hd. rewrite !elem_of_cons in Hd.
    destruct Hd as [|[Hd|[|[|Hd]]]]; try done.
    - simplify_eq. by eexists.
    - by apply elem_of_nil in Hd. }
  destruct (sys_copy dout din w3) as [[err|] w4].
  - destruct (sys_remove dst w4) as [r w5], (sys_close din w5) as [ci w6].
    split; [by eexists|]. intros d Hd. rewrite !elem_of_cons in Hd.
    destruct Hd as [|[Hd|[|[|[|[|Hd]]]]]]; try done.
    + simplify_eq. by eexists.
    + by apply elem_of_nil in Hd.
  - destruct (sys_close dout w4) as [co w5], (sys_close din w5) as [ci w6].
    split; [by eexists|]. intros d Hd. rewrite !elem_of_cons in Hd.
    destruct Hd as [|[Hd|[|[|[|[|Hd]]]]]]; try done.
    + simplify_eq. by eexists.
    + by apply elem_of_nil in Hd.
Qed.

(** When the copy itself fails, [CopyFileContents] returns the error of
    the copy whatever the removal and the close give, it has tried to
    remove the destination, it has closed the source once, and it has
    closed no other descriptor: the one it got for the destination stays
    open. *)
Theorem CopyFileContents_failed_copy (dst src : string) (perm : N)
    (w w1 w2 w3 w4 : W) (din dout : nat) (err : error) :
  sys_mkdirall (Dir dst) w = (None, w1) →
  sys_open src w1 = (inr din, w2) →
  sys_creat dst w2 = (inr dout, w3) →
  sys_copy dout din w3 = (Some err, w4) →
  let '(out, _, tr) := more.CopyFileContents Dir dst src perm w in
  out = Returned (Some err) ∧
  (∃ r, EvRemove dst r ∈ tr) ∧
  closes_of din tr = 1 ∧
  ∀ d, d ≠ din → closes_of d tr = 0.
Proof.
  intros Hmk Hopen Hcreat Hcopy.
  rewrite CopyFileContents_run, Hmk, Hopen, Hcreat, Hcopy. cbv zeta.
  destruct (sys_remove dst w4) as [r w5], (sys_close din w5) as [ci w6].
  assert (∀ d, closes_of d
            [EvCall "os.MkdirAll" (Dir dst); EvOpen src (inr din);
             EvCreate dst (inr dout); EvCall "io.Copy" dst; EvRemove dst r;
             EvClose din ci] = if decide (din = d) then 1 else 0) as Hcloses.
  { intros d.
    change [EvCall "os.MkdirAll" (Dir dst); EvOpen src (inr din);
            EvCreate dst (inr dout); EvCall "io.Copy" dst; EvRemove dst r;
            EvClose din ci]
      with ([EvCall "os.MkdirAll" (Dir dst); EvOpen src (inr din);
             EvCreate dst (inr dout); EvCall "io.Copy" dst; EvRemove dst r]
            ++ [EvClose din ci]).
    rewrite closes_of_app, closes_of_single. reflexivity. }
  split_and!.
  - done.
  - exists r. rewrite !elem_of_cons. auto 10.
  - by rewrite Hcloses, decide_True.
  - intros d Hd. by rewrite Hcloses, decide_False.
Qed.
End CopyRuns.

Lemma CopyFileContents_failed_copy_witness :
  let '(out, _, tr) :=
    more.CopyFileContents (W := stub.world) memfs_more.dirname
      "out/a.txt" "in/a.txt" 420 (Some (EText "no space left on device")) in
  out = Returned (Some (EText "no space left on device")) ∧
  (∃ r, EvRemove "out/a.txt" r ∈ tr) ∧
  closes_of 3 tr = 1 ∧
  ∀ d, d ≠ 3 → closes_of d tr = 0.
Proof.
  exact (CopyFileContents_failed_copy (W := stub.world) memfs_more.dirname
           "out/a.txt" "in/a.txt" 420 _ _ _ _ _ 3 4 _
           eq_refl eq_refl eq_refl eq_refl).
Defined.

(** * Copying and writing on the in-memory file system *)

Section MemCopy.
Import memfs memfs_more.

Lemma child_set_child_ne (k s : string) (y : option node) (es : list (string * node)) :
  k ≠ s → child s (set_child k y es) = child s es.
Proof.
  intros Hne. induction es as [|[k' c] es IH]; cbn.
  - destruct y; cbn; [|done]. by rewrite decide_False.
  - destruct (decide (k' = k)) as [->|Hk]; cbn.
    + rewrite decide_False by done. destruct y; cbn; [|done].
      by rewrite decide_False.
    + by rewrite IH.
Qed.

(** A file elsewhere is not touched when a file is put at [p], unless
    that replaces a directory. *)
Lemma resolve_update_other (p q : list string) (x : node) (T : node) t d :
  p ≠ [] → p ≠ q →
  (∀ t' l es, resolve p T ≠ inr (DirNode t' l es)) →
  resolve q T = inr (FileNode t d) →
  resolve q (update p (Some x) T) = inr (FileNode t d).
Proof.
  revert q T. induction p as [|c p IH]; intros q T Hp Hpq Hnd Hq; [done|].
  destruct T as [|t' l es]; [by destruct p|].
  destruct q as [|s q]; [done|]. cbn in Hq.
  destruct (child s es) as [n1|] eqn:Hs; [|done].
  rewrite update_cons. destruct p as [|c' p].
  - cbn. destruct (decide (c = s)) as [->|Hne].
    + destruct q as [|s' q]; [done|].
      destruct n1 as [|t1 l1 es1]; [done|].
      destruct (Hnd t1 l1 es1). cbn. by rewrite Hs.
    + by rewrite child_set_child_ne, Hs.
  - destruct (child c es) as [n2|] eqn:Hc.
    + cbn [resolve]. destruct (decide (c = s)) as [->|Hne].
      * rewrite child_set_child_eq. simplify_eq. apply IH; [done| | |done].
        -- intros Heq. apply Hpq. by rewrite Heq.
        -- intros t1 l1 es1 Hr. destruct (Hnd t1 l1 es1).
           cbn [resolve]. by rewrite Hs.
      * by rewrite child_set_child_ne, Hs.
    + cbn [resolve]. by rewrite Hs.
Qed.

(** Making directories leaves every file where it is. *)
Lemma mkdirs_keeps_file (p q : list string) (T T1 : node) t d :
  mkdirs p T = inr T1 →
  resolve q T = inr (FileNode t d) →
  resolve q T1 = inr (FileNode t d).
Proof.
  revert q T T1. induction p as [|c p IH]; intros q T T1 Hmk Hq.
  { destruct T; [done|]. cbn in Hmk. by simplify_eq. }
  destruct T as [|t' l es]; [done|]. cbn in Hmk.
  destruct (mkdirs p _) as [e|n''] eqn:Hrec; [done|]. simplify_eq.
  destruct q as [|s q]; [done|]. cbn in Hq |- *.
  destruct (child s es) as [n1|] eqn:Hs; [|done].
  destruct (decide (c = s)) as [->|Hne].
  - rewrite child_set_child_eq. rewrite Hs in Hrec. by eapply IH.
  - by rewrite child_set_child_ne, Hs.
Qed.

(** After making directories there is a directory at the path. *)
Lemma mkdirs_makes (p : list string) (T T1 : node) :
  mkdirs p T = inr T1 → ∃ t l es, resolve p T1 = inr (DirNode t l es).
Proof.
  revert T T1. induction p as [|c p IH]; intros T T1 Hmk.
  { destruct T; [done|]. cbn in Hmk. simplify_eq. by eexists _, _, _. }
  destruct T as [|t' l es]; [done|]. cbn in Hmk.
  destruct (mkdirs p _) as [e|n''] eqn:Hrec; [done|]. simplify_eq.
  cbn. rewrite child_set_child_eq. by eapply IH.
Qed.

(** Creating a file in a directory that is there. *)
Lemma m_creat_new (dst k : string) (p : list string) (T : node)
    (F : list (option (string * nat))) t l es :
  path_of dst = p ++ [k] →
  resolve p T = inr (DirNode t l es) →
  (∀ t' l' es', resolve (path_of dst) T ≠ inr (DirNode t' l' es')) →
  m_creat dst (mkFs T F) =
    (inr (length F),
     mkFs (update (path_of dst) (Some (FileNode 0 [])) T) (F ++ [Some (dst, 0)])).
Proof.
  intros Hdst Hp Hnd. unfold m_creat, lookup_path. cbn [tree fds].
  rewrite Hdst, reverse_snoc, reverse_involutive, Hp, <- Hdst.
  destruct (resolve (path_of dst) T) as [e|[|t' l' es']] eqn:Hr; try done.
  by destruct (Hnd t' l' es').
Qed.

(** The file at a path that ends in a file of the tree. *)
Lemma resolve_file_parent (p : list string) (k : string) (T : node) t l es :
  resolve p T = inr (DirNode t l es) →
  resolve (p ++ [k]) (update (p ++ [k]) (Some (FileNode 0 [])) T)
    = inr (FileNode 0 []).
Proof.
  intros Hp. rewrite (update_app p [k] _ T (DirNode t l es)) by done.
  rewrite resolve_app. rewrite (resolve_update p _ T (DirNode t l es)) by done.
  cbn. by rewrite child_set_child_eq.
Qed.

Lemma lookup_snoc2 {A} (F : list A) (a b : A) :
  (F ++ [a; b]) !! length F = Some a ∧ (F ++ [a; b]) !! S (length F) = Some b.
Proof.
  split.
  - rewrite lookup_app_r by lia. by rewrite Nat.sub_diag.
  - rewrite lookup_app_r by lia. by replace (S (length F) - length F) with 1 by lia.
Qed.

Lemma insert_snoc2 {A} (F : list A) (a b x : A) :
  <[length F := x]> (F ++ [a; b]) = F ++ [x; b] ∧
  <[S (length F) := x]> (F ++ [a; b]) = F ++ [a; x].
Proof.
  split.
  - rewrite insert_app_r_alt by lia. by rewrite Nat.sub_diag.
  - rewrite insert_app_r_alt by lia.
    by replace (S (length F) - length F) with 1 by lia.
Qed.

(** [CopyFileContents] on the in-memory file system.  When the source is
    a file, the directories of the destination can be made, the
    destination is another path than the source and not a directory,
    the copy returns nil; afterwards the destination is a file with the
    bytes of the source, the source is as it was, and both descriptors
    are closed. *)
Theorem CopyFileContents_copies (Dir : string → string) (dst src k : string)
    (perm : N) (w : fs) (T1 : node) t data :
  lookup_path src w = inr (FileNode t data) →
  path_of dst = path_of (Dir dst) ++ [k] →
  mkdirs (path_of (Dir dst)) (tree w) = inr T1 →
  (∀ t' l es, resolve (path_of dst) T1 ≠ inr (DirNode t' l es)) →
  path_of src ≠ path_of dst →
  let '(out, w', _) := more.CopyFileContents Dir dst src perm w in
  out = Returned None ∧
  lookup_path dst w' = inr (FileNode 0 data) ∧
  lookup_path src w' = inr (FileNode t data) ∧
  fds w' = fds w ++ [None; None].
Proof.
  intros Hsrc Hdst Hmk Hnd Hne. destruct w as [T F].
  unfold lookup_path in Hsrc. cbn [tree fds] in *.
  pose proof (mkdirs_keeps_file _ _ _ _ _ _ Hmk Hsrc) as Hsrc1.
  destruct (mkdirs_makes _ _ _ Hmk) as (td & ld & esd & Hdir).
  assert (path_of dst ≠ []) as Hp by (rewrite Hdst; by destruct (path_of (Dir dst))).
  set (T2 := update (path_of dst) (Some (FileNode 0 [])) T1).
  assert (resolve (path_of src) T2 = inr (FileNode t data)) as Hsrc2.
  { by apply resolve_update_other. }
  assert (resolve (path_of dst) T2 = inr (FileNode 0 [])) as Hdst2.
  { unfold T2. rewrite Hdst. by eapply resolve_file_parent. }
  set (T3 := update (path_of dst) (Some (FileNode 0 data)) T2).
  assert (resolve (path_of src) T3 = inr (FileNode t data)) as Hsrc3.
  { apply resolve_update_other; [done..| |done]. intros t' l es. by rewrite Hdst2. }
  assert (resolve (path_of dst) T3 = inr (FileNode 0 data)) as Hdst3.
  { by eapply resolve_update. }
  destruct (lookup_snoc2 F (Some (src, 0)) (Some (dst, 0))) as [Hin Hout].
  destruct (insert_snoc2 F (Some (src, 0)) (Some (dst, 0))
              (Some (src, 0 + length data))) as [Hin' _].
  rewrite CopyFileContents_run. cbv zeta.
  cbn [sys_mkdirall sys_open sys_creat sys_copy sys_close memfs_OS memfs_OSMore].
  unfold m_mkdirall. cbn [tree fds]. rewrite Hmk.
  unfold m_open, lookup_path, open_fd. cbn [tree fds]. rewrite Hsrc1.
  rewrite (m_creat_new dst k _ T1 _ td ld esd Hdst Hdir Hnd).
  fold T2. unfold m_copy, lookup_path. cbn [tree fds].
  rewrite length_app, Nat.add_1_r. cbn [length].
  rewrite <- app_assoc. cbn [app]. rewrite Hin, Hsrc2. cbv zeta.
  cbn [tree fds]. change (drop 0 data) with data. rewrite Hin'. unfold m_write, lookup_path. cbn [tree fds].
  destruct (lookup_snoc2 F (Some (src, 0 + length data)) (Some (dst, 0)))
    as [_ ->].
  rewrite Hdst2. cbn [take app drop]. fold T3.
  destruct (insert_snoc2 F (Some (src, 0 + length data)) (Some (dst, 0))
              (Some (dst, 0 + length data))) as [_ ->].
  unfold m_close. cbn [tree fds].
  destruct (lookup_snoc2 F (Some (src, 0 + length data)) (Some (dst, 0 + length data)))
    as [_ ->].
  destruct (insert_snoc2 F (Some (src, 0 + length data)) (Some (dst, 0 + length data))
              None) as [_ ->].
  cbn [tree fds].
  destruct (lookup_snoc2 F (Some (src, 0 + length data)) (@None (string * nat)))
    as [-> _].
  destruct (insert_snoc2 F (Some (src, 0 + length data)) (@None (string * nat))
              None) as [-> _].
  done.
Qed.

Lemma CopyFileContents_copies_witness :
  let '(out, w', _) :=
    more.CopyFileContents dirname "site/out/one/ab" "site/ab" 420 sample.world in
  out = Returned None ∧
  lookup_path "site/out/one/ab" w' = inr (FileNode 0 [x61; x62]) ∧
  lookup_path "site/ab" w' = inr (FileNode 3 [x61; x62]) ∧
  fds w' = fds sample.world ++ [None; None].
Proof.
  eapply (CopyFileContents_copies dirname "site/out/one/ab" "site/ab" "ab" 420
            sample.world).
  - reflexivity.
  - reflexivity.
  - vm_compute. reflexivity.
  - intros t' l es. vm_compute. discriminate.
  - vm_compute. discriminate.
Defined.

(** Making directories that are there changes nothing. *)
Lemma mkdirs_existing (p : list string) (T : node) t l es :
  resolve p T = inr (DirNode t l es) → mkdirs p T = inr T.
Proof.
  revert T. induction p as [|c p IH]; intros T Hp.
  { cbn in Hp. by simplify_eq. }
  destruct T as [|t' l' es']; [done|]. cbn in Hp |- *.
  destruct (child c es') as [n'|] eqn:Hc; [|done].
  rewrite (IH n') by done. by rewrite set_child_same.
Qed.

Lemma resolve_parent (p : list string) (k : string) (T : node) t d :
  resolve (p ++ [k]) T = inr (FileNode t d) →
  ∃ t' l es, resolve p T = inr (DirNode t' l es).
Proof.
  rewrite resolve_app. destruct (resolve p T) as [e|[|t' l es]]; [done..|].
  intros _. by eexists _, _, _.
Qed.

(** Copying a file onto itself empties it: the destination is truncated
    when it is created, which is after the source was opened and before
    anything was read from it.  [CopyFileContents] returns nil all the
    same. *)
Theorem CopyFileContents_onto_itself (Dir : string → string) (dst src k : string)
    (perm : N) (w : fs) t data :
  lookup_path src w = inr (FileNode t data) →
  path_of dst = path_of (Dir dst) ++ [k] →
  path_of src = path_of dst →
  let '(out, w', _) := more.CopyFileContents Dir dst src perm w in
  out = Returned None ∧
  lookup_path src w' = inr (FileNode 0 []) ∧
  fds w' = fds w ++ [None; None].
Proof.
  intros Hsrc Hdst Heq. destruct w as [T F].
  unfold lookup_path in *. cbn [tree fds] in *. rewrite Heq in *.
  pose proof Hsrc as Hfile. rewrite Hdst in Hsrc.
  destruct (resolve_parent _ _ _ _ _ Hsrc) as (td & ld & esd & Hdir).
  set (T2 := update (path_of dst) (Some (FileNode 0 [])) T).
  assert (resolve (path_of dst) T2 = inr (FileNode 0 [])) as Hdst2.
  { by eapply resolve_update. }
  assert (update (path_of dst) (Some (FileNode 0 [])) T2 = T2) as Hsame.
  { by apply update_same. }
  destruct (lookup_snoc2 F (Some (src, 0)) (Some (dst, 0))) as [Hin Hout].
  destruct (insert_snoc2 F (Some (src, 0)) (Some (dst, 0))
              (Some (src, 0 + 0))) as [Hin' _].
  rewrite CopyFileContents_run. cbv zeta.
  cbn [sys_mkdirall sys_open sys_creat sys_copy sys_close memfs_OS memfs_OSMore].
  unfold m_mkdirall. cbn [tree fds].
  rewrite (mkdirs_existing _ _ _ _ _ Hdir).
  unfold m_open, lookup_path, open_fd. cbn [tree fds]. rewrite Heq, Hfile.
  rewrite (m_creat_new dst k _ T _ td ld esd Hdst Hdir)
    by (intros t' l' es'; by rewrite Hfile).
  fold T2. unfold m_copy, lookup_path. cbn [tree fds].
  rewrite length_app, Nat.add_1_r. cbn [length].
  rewrite <- app_assoc. cbn [app]. rewrite Hin, Heq, Hdst2. cbv zeta.
  cbn [tree fds]. change (drop 0 []) with (@nil byte). cbn [length].
  rewrite Hin'. unfold m_write, lookup_path. cbn [tree fds].
  destruct (lookup_snoc2 F (Some (src, 0 + 0)) (Some (dst, 0))) as [_ ->].
  rewrite Hdst2. cbn [take app length]. rewrite Hsame.
  destruct (insert_snoc2 F (Some (src, 0 + 0)) (Some (dst, 0))
              (Some (dst, 0 + 0))) as [_ ->].
  unfold m_close. cbn [tree fds].
  destruct (lookup_snoc2 F (Some (src, 0 + 0)) (Some (dst, 0 + 0))) as [_ ->].
  destruct (insert_snoc2 F (Some (src, 0 + 0)) (Some (dst, 0 + 0)) None) as [_ ->].
  cbn [tree fds].
  destruct (lookup_snoc2 F (Some (src, 0 + 0)) (@None (string * nat))) as [-> _].
  destruct (insert_snoc2 F (Some (src, 0 + 0)) (@None (string * nat)) None)
    as [-> _].
  cbn [tree fds]. by rewrite Hdst2.
Qed.

Lemma CopyFileContents_onto_itself_witness :
  let '(out, w', _) :=
    more.CopyFileContents dirname "site/ab" "site/./ab" 420 sample.world in
  out = Returned None ∧
  lookup_path "site/./ab" w' = inr (FileNode 0 []) ∧
  fds w' = fds sample.world ++ [None; None].
Proof.
  eapply (CopyFileContents_onto_itself dirname "site/ab" "site/./ab" "ab" 420
            sample.world).
  - reflexivity.
  - reflexivity.
  - reflexivity.
Defined.

Lemma File_Write_run `{OS W} (f : File) (b : list byte) (w : W) :
  File_Write f b w =
    let '(r, w1) := sys_write (fd f) b w in
    (Returned (match r with
               | inl e => (0, Some (sysError "write" (fname f) e))
               | inr n => (n, None)
               end), w1, [EvWrite (fd f) b r]).
Proof.
  unfold File_Write, sys. rewrite bind_run.
  by destruct (sys_write (fd f) b w) as [[e|n] w1].
Qed.

(** A static page written into a created file, which is how the two
    functions are put together: when the source of the page is a file,
    the directory of the destination is there, and the destination is
    another path and not a directory, the result is nil; afterwards the
    destination holds the bytes of the source, the source is as it was,
    and the descriptor is closed. *)
Theorem StaticPage_Write_into_created_file (page : gojekyll.pageFields)
    (dst k : string) (p : list string) (w : fs) t data td ld esd :
  lookup_path (gojekyll.pageFields_Source page) w = inr (FileNode t data) →
  path_of dst = p ++ [k] →
  resolve p (tree w) = inr (DirNode td ld esd) →
  (∀ t' l es, lookup_path dst w ≠ inr (DirNode t' l es)) →
  path_of (gojekyll.pageFields_Source page) ≠ path_of dst →
  let '(out, w', _) :=
    helpers.VisitCreatedFile dst
      (λ f, more.StaticPage_Write page (File_Write f)) w in
  out = Returned None ∧
  lookup_path dst w' = inr (FileNode 0 data) ∧
  lookup_path (gojekyll.pageFields_Source page) w' = inr (FileNode t data) ∧
  fds w' = fds w ++ [None].
Proof.
  set (src := gojekyll.pageFields_Source page).
  intros Hsrc Hdst Hdir Hnd Hne. destruct w as [T F].
  unfold lookup_path in *. cbn [tree fds] in *.
  assert (path_of dst ≠ []) as Hp by (rewrite Hdst; by destruct p).
  set (T2 := update (path_of dst) (Some (FileNode 0 [])) T).
  assert (resolve (path_of src) T2 = inr (FileNode t data)) as Hsrc2.
  { by apply resolve_update_other. }
  assert (resolve (path_of dst) T2 = inr (FileNode 0 [])) as Hdst2.
  { unfold T2. rewrite Hdst. by eapply resolve_file_parent. }
  set (T3 := update (path_of dst) (Some (FileNode 0 data)) T2).
  assert (resolve (path_of src) T3 = inr (FileNode t data)) as Hsrc3.
  { apply resolve_update_other; [done..| |done]. intros t' l es. by rewrite Hdst2. }
  assert (resolve (path_of dst) T3 = inr (FileNode 0 data)) as Hdst3.
  { by eapply resolve_update. }
  assert ((F ++ [Some (dst, 0)]) !! length F = Some (Some (dst, 0))) as Hout.
  { rewrite lookup_app_r by lia. by rewrite Nat.sub_diag. }
  assert (∀ x y : option (string * nat),
            <[length F := x]> (F ++ [y]) = F ++ [x]) as Hins.
  { intros x y. rewrite insert_app_r_alt by lia. by rewrite Nat.sub_diag. }
  assert (∀ x : option (string * nat), (F ++ [x]) !! length F = Some x) as Hlook.
  { intros x. rewrite lookup_app_r by lia. by rewrite Nat.sub_diag. }
  unfold helpers.VisitCreatedFile. rewrite bind_run, os_Create_run.
  cbn [sys_creat memfs_OS].
  rewrite (m_creat_new dst k p T F td ld esd Hdst Hdir Hnd). fold T2.
  cbv beta iota zeta. rewrite bind_run. unfold attempt.
  unfold more.StaticPage_Write. fold src. rewrite bind_run. unfold sys at 1.
  cbn [sys_readfile memfs_OSMore]. unfold m_readfile, lookup_path.
  cbn [tree fds]. rewrite Hsrc2. cbv beta iota zeta.
  rewrite bind_run, File_Write_run. cbn [fd fname sys_write memfs_OS].
  unfold m_write, lookup_path. cbn [tree fds]. rewrite Hlook, Hdst2.
  cbn [take app]. fold T3. rewrite Hins. cbv beta iota zeta.
  rewrite ret_run. cbv beta iota zeta.
  rewrite bind_run, File_Close_run. cbn [fd fname sys_close memfs_OS].
  unfold m_close. cbn [tree fds]. rewrite Hlook, Hins.
  cbv beta iota zeta. rewrite bind_run, ret_run. cbv beta iota zeta.
  rewrite ret_run. cbn [tree fds]. done.
Qed.

Lemma StaticPage_Write_into_created_file_witness :
  let '(out, w', _) :=
    helpers.VisitCreatedFile "site/e/d.txt"
      (λ f, more.StaticPage_Write stub.fields_a (File_Write f)) sample.world in
  out = Returned None ∧
  lookup_path "site/e/d.txt" w' = inr (FileNode 0 [x41; x42]) ∧
  lookup_path (gojekyll.pageFields_Source stub.fields_a) w'
    = inr (FileNode 7 [x41; x42]) ∧
  fds w' = fds sample.world ++ [None].
Proof.
  eapply (StaticPage_Write_into_created_file stub.fields_a "site/e/d.txt" "d.txt"
            ["site"; "e"] sample.world).
  - reflexivity.
  - reflexivity.
  - reflexivity.
  - intros t' l es. vm_compute. discriminate.
  - vm_compute. discriminate.
Defined.
End MemCopy.

(** * The commands *)

Section Routes.
Import cmd gojekyll.

Lemma shown_sublist (dynamic : bool) (order : list (string * Page)) :
  omap (λ '(u, p), if negb (dynamic && Static p) then Some u else None) order
    `sublist_of` order.*1.
Proof.
  induction order as [|[u p] order IH]; cbn; [done|].
  destruct (negb _); by constructor.
Qed.

Lemma shown_elem (dynamic : bool) (order : list (string * Page)) (u : string) :
  u ∈ omap (λ '(u, p), if negb (dynamic && Static p) then Some u else None) order
  ↔ ∃ p, (u, p) ∈ order ∧ dynamic && Static p = false.
Proof.
  rewrite list_elem_of_omap. split.
  - intros ([u' p] & Hin & Hf). exists p.
    destruct (dynamic && Static p); cbn in Hf; [done|]. by simplify_eq.
  - intros (p & Hin & Hf). exists (u, p). split; [done|]. by rewrite Hf.
Qed.

Lemma printRoutes_returns (Paths : gmap string Page) (urls : list string) :
  (∀ u, u ∈ urls → is_Some (Paths !! u)) →
  ∃ lines,
    printRoutes Paths urls = Returned lines ∧
    Forall2 (λ u o, ∃ p, Paths !! u = Some p ∧ o = Text (routeLine u (Path p)))
      urls lines.
Proof.
  induction urls as [|u urls IH]; intros Hall.
  { exists []. by split. }
  destruct (Hall u) as [p Hp]; [by left|].
  destruct IH as (lines & Hrun & Hlines).
  { intros u' Hu'. apply Hall. by right. }
  exists (Text (routeLine u (Path p)) :: lines). cbn. rewrite Hp, Hrun.
  split; [done|]. constructor; [|done]. by exists p.
Qed.

(** [routesCommand], given the entries of the map in any order that
    [range] may yield them: it does not panic and returns nil; after the
    heading it prints one line for each URL, in ascending order of the
    URLs and each URL once; the URLs are those of the map, without the
    static pages when the flag is set; and each line shows the path of
    the page at that URL. *)
Theorem routesCommand_lists_routes (dynamic : bool) (Paths : gmap string Page)
    (order : list (string * Page)) :
  order ≡ₚ map_to_list Paths →
  ∃ urls lines,
    routesCommand dynamic Paths order
      = Returned (Setting "Routes:" "" :: lines, None) ∧
    Sorted String.le urls ∧
    NoDup urls ∧
    (∀ u, u ∈ urls ↔ ∃ p, Paths !! u = Some p ∧ dynamic && Static p = false) ∧
    Forall2 (λ u o, ∃ p, Paths !! u = Some p ∧ o = Text (routeLine u (Path p)))
      urls lines.
Proof.
  intros Horder. unfold routesCommand.
  set (shown := omap _ order).
  assert (∀ u, u ∈ frontmatter.sort_Strings shown
               ↔ ∃ p, Paths !! u = Some p ∧ dynamic && Static p = false) as Helem.
  { intros u. rewrite sort_Strings_perm. unfold shown. rewrite shown_elem.
    split; intros (p & Hp & Hf); exists p; (split; [|done]).
    - apply elem_of_map_to_list. by rewrite <- Horder.
    - rewrite Horder. by apply elem_of_map_to_list. }
  destruct (printRoutes_returns Paths (frontmatter.sort_Strings shown))
    as (lines & Hrun & Hlines).
  { intros u (p & Hp & _)%Helem. by exists p. }
  exists (frontmatter.sort_Strings shown), lines. rewrite Hrun.
  split_and!; [done| |  |done..].
  - apply sort_Strings_sorted.
  - rewrite sort_Strings_perm. eapply sublist_NoDup; [|apply shown_sublist].
    rewrite Horder. apply NoDup_fst_map_to_list.
Qed.

Lemma routesCommand_lists_routes_witness :
  ∃ urls lines,
    routesCommand true stub.paths (map_to_list stub.paths)
      = Returned (Setting "Routes:" "" :: lines, None) ∧
    Sorted String.le urls ∧
    NoDup urls ∧
    (∀ u, u ∈ urls ↔ ∃ p, stub.paths !! u = Some p ∧ true && Static p = false) ∧
    Forall2 (λ u o, ∃ p, stub.paths !! u = Some p ∧ o = Text (routeLine u (Path p)))
      urls lines.
Proof.
  apply (routesCommand_lists_routes true stub.paths (map_to_list stub.paths)).
  reflexivity.
Defined.

(** [cliPage] gives a page and no error, or no page and an error. *)
Lemma cliPage_cases (args : list string)
    (PageForURL FindPageByFilePath : string → option Page) :
  (∃ page, cliPage args PageForURL FindPageByFilePath = (Some page, None)) ∨
  (∃ text, cliPage args PageForURL FindPageByFilePath
           = (None, Some (EPath (helpers.NewPathError "render"
                                   (default "/" (head args)) text)))).
Proof.
  unfold cliPage.
  assert (match args with a :: _ => a | [] => "/" end = default "/" (head args))
    as -> by (by destruct args).
  destruct (hasSlashPrefix _); [destruct (PageForURL _)|destruct (FindPageByFilePath _)];
    eauto.
Qed.

(** [renderCommand] never calls a method of a nil page.  Either the
    lookup failed: then nothing is printed, the page is not written and
    the result is an error of the operation "render" that names the
    argument.  Or the three settings are printed and the result is that
    of the page's [Write], which runs last. *)
Theorem renderCommand_page_or_error {W : Type} (site : Site) (args : list string)
    (PageForURL FindPageByFilePath : string → option Page)
    (Write : Page → M W (option error)) (w : W) :
  (∃ text,
     renderCommand site args PageForURL FindPageByFilePath Write w
       = (Returned (Some (EPath (helpers.NewPathError "render"
                                   (default "/" (head args)) text))), w, [])) ∨
  (∃ page,
     (if hasSlashPrefix (default "/" (head args))
      then PageForURL (default "/" (head args))
      else FindPageByFilePath (default "/" (head args))) = Some page ∧
     renderCommand site args PageForURL FindPageByFilePath Write w
       = let '(r, w', tr) := Write page w in
         (r, w',
          [EvCall "printPathSetting" ("Render:" +:+ filepath_Join (Source site) (Path page));
           EvCall "printSetting" ("URL:" +:+ Permalink page);
           EvCall "printSetting" "Content:"] ++ tr)).
Proof.
  unfold renderCommand, cliPage.
  assert (∀ page : Page,
    (_ ← tell (EvCall "printPathSetting"
                 ("Render:" +:+ filepath_Join (Source site) (Path page)));
     _ ← tell (EvCall "printSetting" ("URL:" +:+ Permalink page));
     _ ← tell (EvCall "printSetting" "Content:");
     Write page) w
    = let '(r, w', tr) := Write page w in
      (r, w',
       [EvCall "printPathSetting" ("Render:" +:+ filepath_Join (Source site) (Path page));
        EvCall "printSetting" ("URL:" +:+ Permalink page);
        EvCall "printSetting" "Content:"] ++ tr)) as Hrun.
  { intros page. unfold mbind, M_bind, tell.
    by destruct (Write page w) as [[[r| |] w'] tr]. }
  assert (match args with a :: _ => a | [] => "/" end = default "/" (head args))
    as -> by (by destruct args).
  destruct (hasSlashPrefix (default "/" (head args))).
  - destruct (PageForURL _) as [page|].
    + right. exists page. split; [done|]. apply Hrun.
    + left. by eexists.
  - destruct (FindPageByFilePath _) as [page|].
    + right. exists page. split; [done|]. apply Hrun.
    + left. by eexists.
Qed.
End Routes.

Section Data.
Import cmd gojekyll.

Lemma elideCollections_returns (names : list string) (vars : gmap string siteValue) :
  (∃ vars', elideCollections names vars = Returned vars')
  ↔ NoDup names ∧ ∀ c, c ∈ names → ∃ items, vars !! c = Some (PageData items).
Proof.
  revert vars. induction names as [|c names IH]; intros vars; cbn.
  { split; [|by eauto]. intros _. split; [constructor|].
    intros c Hc. by apply elem_of_nil in Hc. }
  destruct (vars !! c) as [[items|v]|] eqn:Hc.
  - rewrite IH. split.
    + intros [Hnd Hall].
      assert (c ∉ names) as Hnotin.
      { intros Hin. destruct (Hall c Hin) as [items' Hitems].
        by rewrite lookup_insert_eq in Hitems. }
      split; [by constructor|]. intros c' [->|Hin]%elem_of_cons; [by eauto|].
      destruct (Hall c' Hin) as [items' Hitems].
      rewrite lookup_insert_ne in Hitems by (by intros ->). by eauto.
    + intros [[Hnotin Hnd]%NoDup_cons Hall]. split; [done|].
      intros c' Hin. destruct (Hall c') as [items' Hitems]; [by right|].
      exists items'. by rewrite lookup_insert_ne by (by intros ->).
  - split; [by intros [? ?]|]. intros [_ Hall].
    destruct (Hall c) as [items Hitems]; [by left|]. by rewrite Hc in Hitems.
  - split; [by intros [? ?]|]. intros [_ Hall].
    destruct (Hall c) as [items Hitems]; [by left|]. by rewrite Hc in Hitems.
Qed.

Lemma elideCollections_result (names : list string) (vars vars' : gmap string siteValue) :
  elideCollections names vars = Returned vars' →
  (∀ c items, c ∈ names → vars !! c = Some (PageData items) →
     vars' !! c = Some (OtherValue (VString (elided (length items))))) ∧
  (∀ c, c ∉ names → vars' !! c = vars !! c).
Proof.
  revert vars. induction names as [|c names IH]; intros vars; cbn.
  { intros [= ->]. split; [|done]. intros c items Hc. by apply elem_of_nil in Hc. }
  destruct (vars !! c) as [[items|v]|] eqn:Hc; [|done..]. intros Hrun.
  assert (c ∉ names) as Hnotin.
  { intros Hin.
    assert (∃ v, elideCollections names
                   (<[c:=OtherValue (VString (elided (length items)))]> vars)
                 = Returned v) as Hret by eauto.
    apply elideCollections_returns in Hret as [_ Hall].
    destruct (Hall c Hin) as [items' Hitems].
    by rewrite lookup_insert_eq in Hitems. }
  destruct (IH _ Hrun) as [Hin Hout]. split.
  - intros c' items' [->|Hc']%elem_of_cons Hitems.
    + rewrite Hout by done. rewrite lookup_insert_eq. by simplify_eq.
    + apply Hin; [done|]. rewrite lookup_insert_ne; [done|]. by intros ->.
  - intros c' [Hne Hc']%not_elem_of_cons. rewrite Hout by done.
    by rewrite lookup_insert_ne.
Qed.

Lemma elideCollections_ends (names : list string) (vars : gmap string siteValue) :
  elideCollections names vars ≠ Exhausted.
Proof.
  revert vars. induction names as [|c names IH]; intros vars; cbn; [done|].
  destruct (vars !! c) as [[items|v]|]; [|done..]. apply IH.
Qed.

(** [dataCommand], when the page is found.  It returns exactly when
    every collection has a list of pages for its variable and no two
    collections have the same name, and panics otherwise.  When it
    returns, the result is nil, and the variables of the site itself
    have been changed: that of each collection is now the text with the
    number of its pages; the others are as they were. *)
Theorem dataCommand_elides (args : list string)
    (PageForURL FindPageByFilePath : string → option Page)
    (names : list string) (Variables : gmap string siteValue)
    (DebugVariables : Page → VariableMap) (marshal : VariableMap → string) :
  (cliPage args PageForURL FindPageByFilePath).2 = None →
  let listed :=
    NoDup names ∧ ∀ c, c ∈ names → ∃ items, Variables !! c = Some (PageData items) in
  match dataCommand args PageForURL FindPageByFilePath names Variables
          DebugVariables marshal with
  | Returned (_, vars', err) =>
      listed ∧ err = None ∧
      (∀ c items, c ∈ names → Variables !! c = Some (PageData items) →
         vars' !! c = Some (OtherValue (VString (elided (length items))))) ∧
      (∀ c, c ∉ names → vars' !! c = Variables !! c)
  | Panicked _ => ¬ listed
  | Exhausted => False
  end.
Proof.
  intros Hfound listed. unfold dataCommand.
  destruct (cliPage_cases args PageForURL FindPageByFilePath)
    as [[page Hpage]|[text Hpage]]; rewrite Hpage in Hfound |- *; [|done].
  destruct (elideCollections names Variables) as [vars'| |] eqn:Hrun.
  - destruct (elideCollections_result _ _ _ Hrun) as [Hin Hout].
    split_and!; [|done..]. apply elideCollections_returns. by eauto.
  - intros [vars' Hret]%elideCollections_returns. by rewrite Hrun in Hret.
  - by apply elideCollections_ends in Hrun.
Qed.

Lemma dataCommand_elides_witness :
  match dataCommand ["a.md"] stub.PageForURL stub.FindPageByFilePath ["posts"]
          stub.variables (λ p, pageFields_DebugVariables (fieldsOf p)) (λ _, "")
  with
  | Returned (_, vars', err) =>
      (NoDup ["posts"] ∧
       ∀ c, c ∈ ["posts"] → ∃ items, stub.variables !! c = Some (PageData items)) ∧
      err = None ∧
      (∀ c items, c ∈ ["posts"] → stub.variables !! c = Some (PageData items) →
         vars' !! c = Some (OtherValue (VString (elided (length items))))) ∧
      (∀ c, c ∉ ["posts"] → vars' !! c = stub.variables !! c)
  | Panicked _ =>
      ¬ (NoDup ["posts"] ∧
         ∀ c, c ∈ ["posts"] → ∃ items, stub.variables !! c = Some (PageData items))
  | Exhausted => False
  end.
Proof.
  apply (dataCommand_elides ["a.md"] stub.PageForURL stub.FindPageByFilePath
           ["posts"] stub.variables
           (λ p, pageFields_DebugVariables (fieldsOf p)) (λ _, "")).
  reflexivity.
Defined.
End Data.

Section BenchmarkRuns.
Context {W : Type} `{SiteOps W}.
Import cmd.

(** The loop after [k] builds that succeed. *)
Lemma benchmarkLoop_run (k left : nat) (w w1 : W) :
  after_builds k w = Some w1 → k ≤ left →
  ∃ tr,
    calls_of "site.Build" tr = k ∧
    benchmarkLoop left w =
      let '(r, w', tr') := benchmarkLoop (left - k) w1 in (r, w', tr ++ tr').
Proof.
  revert left w. induction k as [|k IH]; intros left w Hk Hle.
  { cbn in Hk. simplify_eq. exists []. split; [done|].
    rewrite Nat.sub_0_r. by destruct (benchmarkLoop left w1) as [[r w'] tr']. }
  destruct left as [|left]; [lia|]. cbn in Hk.
  destruct (site_Build w) as [[e|n] w0] eqn:Hbuild; [done|].
  destruct (IH left w0 Hk) as (tr & Hcalls & Hrun); [lia|].
  exists ([EvCall "printSetting" (pretty (10 - left)); EvCall "site.Build" ""] ++ tr).
  split.
  { rewrite calls_of_app, Hcalls. reflexivity. }
  cbn [benchmarkLoop Nat.sub]. unfold mbind at 1 2, M_bind, tell, sys.
  rewrite Hbuild, Hrun.
  by destruct (benchmarkLoop (left - k) w1) as [[r w'] tr'].
Qed.

(** When ten builds in a row succeed, [benchmarkCommand] builds the site
    exactly ten times, each time from the state that the build before
    left, and returns nil. *)
Theorem benchmarkCommand_builds_ten_times (w w1 : W) :
  after_builds 10 w = Some w1 →
  ∃ tr, benchmarkCommand w = (Returned None, w1, tr) ∧
        calls_of "site.Build" tr = 10.
Proof.
  intros Hk. destruct (benchmarkLoop_run 10 10 w w1 Hk) as (tr & Hcalls & Hrun); [lia|].
  exists (EvCall "printSetting" "Generating..." :: tr ++ []).
  unfold benchmarkCommand. unfold mbind at 1, M_bind, tell. rewrite Hrun.
  split; [done|]. rewrite app_nil_r.
  change (EvCall "printSetting" "Generating..." :: tr)
    with ([EvCall "printSetting" "Generating..."] ++ tr).
  by rewrite calls_of_app, Hcalls.
Qed.

(** When a build fails after [k] builds that succeeded, [k] less than
    ten, [benchmarkCommand] stops there: it returns the error of that
    build, and has built the site [k + 1] times. *)
Theorem benchmarkCommand_stops_at_failure (k : nat) (w w1 w2 : W) (err : error) :
  k < 10 →
  after_builds k w = Some w1 →
  site_Build w1 = (inl err, w2) →
  ∃ tr, benchmarkCommand w = (Returned (Some err), w2, tr) ∧
        calls_of "site.Build" tr = S k.
Proof.
  intros Hlt Hk Hfail.
  destruct (benchmarkLoop_run k 10 w w1 Hk) as (tr & Hcalls & Hrun); [lia|].
  destruct (10 - k) as [|left] eqn:Hleft; [lia|].
  exists (EvCall "printSetting" "Generating..." ::
          tr ++ [EvCall "printSetting" (pretty (10 - left)); EvCall "site.Build" ""]).
  unfold benchmarkCommand. unfold mbind at 1, M_bind, tell. rewrite Hrun.
  cbn [benchmarkLoop]. unfold mbind at 1 2, M_bind, tell, sys. rewrite Hfail.
  split; [done|].
  set (last := [EvCall "printSetting" (pretty (10 - left)); EvCall "site.Build" ""]).
  change (EvCall "printSetting" "Generating..." :: tr ++ last)
    with ([EvCall "printSetting" "Generating..."] ++ tr ++ last).
  rewrite !calls_of_app, Hcalls.
  assert (calls_of "site.Build" last = 1) as -> by reflexivity.
  assert (calls_of "site.Build" [EvCall "printSetting" "Generating..."] = 0) as ->
    by reflexivity.
  lia.
Qed.
End BenchmarkRuns.

Lemma benchmarkCommand_builds_ten_times_witness :
  ∃ tr, cmd.benchmarkCommand (W := stub.builds) 10 = (Returned None, 0, tr) ∧
        calls_of "site.Build" tr = 10.
Proof.
  apply (benchmarkCommand_builds_ten_times (W := stub.builds) 10 0). reflexivity.
Defined.

Lemma benchmarkCommand_stops_at_failure_witness :
  ∃ tr, cmd.benchmarkCommand (W := stub.builds) 3
          = (Returned (Some (EText "build failed")), 0, tr) ∧
        calls_of "site.Build" tr = 4.
Proof.
  apply (benchmarkCommand_stops_at_failure (W := stub.builds) 3 3 0 0
           (EText "build failed")).
  - lia.
  - reflexivity.
  - reflexivity.
Defined.
